(** * swayimg: image list (imglist.c) and gallery thumbnail loader (gallery.c)

    A shallow embedding of the ordered image registry, of the file-system
    reconciliation handler and of the thumbnail worker's per-item steps,
    followed by the properties stated about them.

    Conventions.
    - [size_t] values are integers in [0, 2^64) with wrap-around written out;
      [ssize_t]/[time_t] values are read in two's complement (x86-64 Linux).
    - A [struct image*] is an address ([ptr]); [NULL] is [None].
    - An intrusive list is the sequence of its nodes, in link order.
    - The two file-scope [ctx] objects, the file system and the calls that
      leave the program (notifications, persistent-store writes) are fields
      of one [world] threaded through a state-and-fault monad. *)

From Stdlib Require Import ZArith List Bool String Ascii Lia.
From Stdlib Require DecimalString.
Import ListNotations.
Local Open Scope string_scope.
Local Open Scope Z_scope.

(** [length] is the length of a list; the length of a string is written
    [String.length]. *)
Local Abbreviation length := List.length.

(** ** Machine integers *)

Definition SIZE_MOD : Z := 2 ^ 64.
Definition SSIZE_HALF : Z := 2 ^ 63.
Definition ULLONG_MAX : Z := 2 ^ 64 - 1.
Definition RAND_MOD : Z := 2 ^ 31.
Definition PATH_MAX : Z := 4096.

(** Conversion to [size_t] / [unsigned long long]. *)
Definition to_size_t (z : Z) : Z := z mod SIZE_MOD.

(** Conversion to [ssize_t] / [time_t] (two's complement). *)
Definition to_ssize_t (z : Z) : Z :=
  let u := z mod SIZE_MOD in
  if u <? SSIZE_HALF then u else u - SIZE_MOD.

(** ** Characters and strings *)

(** Value of a [char] promoted to [int]; [char] is signed on the target. *)
Definition char_val (c : ascii) : Z :=
  let v := Z.of_N (N_of_ascii c) in
  if v <? 128 then v else v - 256.

Definition isdigit (c : ascii) : bool :=
  let v := Z.of_N (N_of_ascii c) in
  (48 <=? v) && (v <=? 57).

(** Digit run at the head of [s]: accumulated value and remaining text. *)
Fixpoint digit_run (s : string) (acc : Z) : Z * string :=
  match s with
  | String c rest =>
      if isdigit c
      then digit_run rest (10 * acc + (Z.of_N (N_of_ascii c) - 48))
      else (acc, s)
  | EmptyString => (acc, s)
  end.

(** [strtoull(s, &s, 10)] on text that starts with a digit: the whole digit
    run is consumed; a value that does not fit saturates at [ULLONG_MAX]. *)
Definition strtoull (s : string) : Z * string :=
  let (v, rest) := digit_run s 0 in
  (Z.min v ULLONG_MAX, rest).

(** [strcmp(a, b) == 0]. *)
Definition streq (a b : string) : bool := String.eqb a b.

(** [strncmp(s, p, strlen(p)) == 0]. *)
Definition has_prefix (p s : string) : bool := String.prefix p s.

(** Modelled from the spec: [LDRSRC_STDIN] (loader.h is not among the
    sources), the tagged "stdin" marker a source identifier can be. *)
Definition LDRSRC_STDIN : string := "stdin://".

(** Modelled from the spec: [LDRSRC_EXEC] (loader.h is not among the
    sources), the tag that opens an "external command" source identifier. *)
Definition LDRSRC_EXEC : string := "exec://".

(** ** Entries *)

Definition ptr := Z.

(** Modelled from the spec: [struct pixmap] (pixmap.h is not among the
    sources), a pixel buffer with its dimensions. *)
Record pixmap := mk_pixmap {
  pm_width : Z;
  pm_height : Z;
  pm_data : list Z
}.

(** Modelled from the spec: [struct image] (image.h is not among the
    sources), with the attributes of an entry that the list and the worker
    read or write: source identifier, 1-based position index, file size
    (a [size_t]), modification time (a [time_t]), decoded frames,
    thumbnail.  [addr] is the address of the object: two pointers are equal
    exactly when the addresses are. *)
Record image := mk_image {
  addr : ptr;
  source : string;
  index : Z;
  file_size : Z;
  file_time : Z;
  frames : list pixmap;
  thumbnail : option pixmap
}.

Definition set_index (i : Z) (e : image) : image :=
  mk_image (addr e) (source e) i (file_size e) (file_time e)
           (frames e) (thumbnail e).

Definition set_file_info (sz tm : Z) (e : image) : image :=
  mk_image (addr e) (source e) (index e) sz tm (frames e) (thumbnail e).

Definition set_frames (f : list pixmap) (e : image) : image :=
  mk_image (addr e) (source e) (index e) (file_size e) (file_time e)
           f (thumbnail e).

Definition set_thumbnail (t : option pixmap) (e : image) : image :=
  mk_image (addr e) (source e) (index e) (file_size e) (file_time e)
           (frames e) t.

(** Modelled from the spec: [image_has_thumb] (image.c is not among the
    sources): an entry carries an optional thumbnail pixel buffer. *)
Definition image_has_thumb (e : image) : bool :=
  match thumbnail e with Some _ => true | None => false end.

(** Modelled from the spec: [image_has_frames] (image.c is not among the
    sources): an entry carries optional decoded frames. *)
Definition image_has_frames (e : image) : bool :=
  match frames e with [] => false | _ :: _ => true end.

(** ** Intrusive doubly-linked list *)

Module IList.

(** The list primitives the image list is built on are not among the
    sources.  They are modelled on what the spec calls a doubly-linked
    sequence of entries: a list is given by its nodes in link order, and a
    node is designated by its address. *)

(** Modelled from the spec: the nodes [list_for_each(p, ...)] visits, [p]
    and its successors. *)
Fixpoint from (l : list image) (p : ptr) : list image :=
  match l with
  | [] => []
  | x :: t => if addr x =? p then x :: t else from t p
  end.

(** Modelled from the spec: the nodes that precede [p], nearest first. *)
Fixpoint before (l : list image) (p : ptr) (seen : list image) : list image :=
  match l with
  | [] => []
  | x :: t => if addr x =? p then seen else before t p (x :: seen)
  end.

(** Modelled from the spec: the nodes [list_for_each_back(p, ...)] visits,
    [p] and its predecessors. *)
Definition back_from (l : list image) (p : ptr) : list image :=
  match from l p with
  | [] => []
  | x :: _ => x :: before l p []
  end.

(** The pointer to the first node, [NULL] for the empty list. *)
Definition head_ptr (l : list image) : option ptr :=
  match l with [] => None | x :: _ => Some (addr x) end.

(** Modelled from the spec: [list_next(p)], the successor of [p]. *)
Definition next (l : list image) (p : ptr) : option ptr :=
  match from l p with
  | _ :: t => head_ptr t
  | [] => None
  end.

(** Modelled from the spec: [list_prev(p)], the predecessor of [p]. *)
Definition prev (l : list image) (p : ptr) : option ptr :=
  head_ptr (before l p []).

(** Modelled from the spec: [list_insert(pos, entry)] links [entry] in
    front of [pos] and returns the list [pos] belongs to.  [pos] is a node
    of [l] at every call ([ordered_position_member] below). *)
Fixpoint insert (l : list image) (pos : ptr) (entry : image) : list image :=
  match l with
  | [] => [entry]
  | x :: t =>
      if addr x =? pos then entry :: x :: t else x :: insert t pos entry
  end.

(** Modelled from the spec: [list_append(head, entry)] links [entry] after
    the last node. *)
Definition append (l : list image) (entry : image) : list image :=
  l ++ [entry].

(** Modelled from the spec: [list_remove(p)] unlinks [p]. *)
Fixpoint remove (l : list image) (p : ptr) : list image :=
  match l with
  | [] => []
  | x :: t => if addr x =? p then t else x :: remove t p
  end.

(** The node a pointer designates. *)
Definition node (l : list image) (p : ptr) : option image :=
  match from l p with x :: _ => Some x | [] => None end.

(** Assignment through a pointer: [*p = f( *p )]. *)
Fixpoint update (l : list image) (p : ptr) (f : image -> image) : list image :=
  match l with
  | [] => []
  | x :: t => if addr x =? p then f x :: t else x :: update t p f
  end.

End IList.

(** ** The image list context (imglist.c) *)

Inductive list_order :=
| order_none
| order_alpha
| order_numeric
| order_mtime
| order_size
| order_random.

Record image_list := mk_image_list {
  images : list image;
  size : Z;
  lock : bool;
  order : list_order;
  reverse : bool;
  loop : bool;
  recursive : bool;
  all_files : bool;
  from_file : bool
}.

Definition set_images (l : list image) (c : image_list) : image_list :=
  mk_image_list l (size c) (lock c) (order c) (reverse c) (loop c)
                (recursive c) (all_files c) (from_file c).

Definition set_size (n : Z) (c : image_list) : image_list :=
  mk_image_list (images c) n (lock c) (order c) (reverse c) (loop c)
                (recursive c) (all_files c) (from_file c).

Definition set_lock (b : bool) (c : image_list) : image_list :=
  mk_image_list (images c) (size c) b (order c) (reverse c) (loop c)
                (recursive c) (all_files c) (from_file c).

(** ** The gallery context (gallery.c) *)

(** [struct gallery], without the colours and the thread handle;
    [thumb_size] is [layout.thumb_size], [thumb_aa] the [enum aa_mode]. *)
Record gallery := mk_gallery {
  cache : Z;
  preload : bool;
  thumb_aa : Z;
  thumb_fill : bool;
  thumb_pstore : bool;
  thumb_size : Z;
  loader_active : bool
}.

(** ** File system *)

Record timespec := mk_timespec {
  tv_sec : Z;
  tv_nsec : Z
}.

Inductive file_kind := S_IFREG | S_IFDIR | S_IFOTHER.

(** [struct stat], with the members the program reads. *)
Record stat_t := mk_stat {
  st_mode : file_kind;
  st_size : Z;
  st_mtim : timespec
}.

(** [st_mtime] is [st_mtim.tv_sec]. *)
Definition st_mtime (st : stat_t) : Z := tv_sec (st_mtim st).

Definition S_ISREG (st : stat_t) : bool :=
  match st_mode st with S_IFREG => true | _ => false end.

Definition S_ISDIR (st : stat_t) : bool :=
  match st_mode st with S_IFDIR => true | _ => false end.

(** A file tree.  [Unreachable] is a name whose [stat] fails; a directory
    that is not [readable] makes [opendir] fail.  The order of [dirents] is
    the order in which [readdir] returns the names. *)
Inductive fsnode :=
| File (sz : Z) (mtim : timespec)
| Special (mtim : timespec)
| Unreachable
| Dir (readable : bool) (mtim : timespec) (ents : dirents)
with dirents :=
| DNil
| DCons (name : string) (n : fsnode) (rest : dirents).

Definition node_stat (n : fsnode) : option stat_t :=
  match n with
  | File sz t => Some (mk_stat S_IFREG sz t)
  | Special t => Some (mk_stat S_IFOTHER 0 t)
  | Unreachable => None
  | Dir _ t _ => Some (mk_stat S_IFDIR 0 t)
  end.

Fixpoint dirents_find (name : string) (d : dirents) : option fsnode :=
  match d with
  | DNil => None
  | DCons n x rest => if streq name n then Some x else dirents_find name rest
  end.

(** Components of a path: the text between separators, empty ones dropped. *)
Fixpoint split_path (s : string) (cur : string) : list string :=
  match s with
  | EmptyString => if streq cur "" then [] else [cur]
  | String c rest =>
      if Ascii.eqb c "/"%char
      then (if streq cur "" then [] else [cur]) ++ split_path rest ""
      else split_path rest (cur ++ String c "")%string
  end.

Fixpoint walk (n : fsnode) (comps : list string) : option fsnode :=
  match comps with
  | [] => Some n
  | c :: rest =>
      match n with
      | Dir _ _ ents =>
          match dirents_find c ents with
          | Some child => walk child rest
          | None => None
          end
      | _ => None
      end
  end.

Definition resolve (root : fsnode) (path : string) : option fsnode :=
  walk root (split_path path "").

(** [stat(path, &st)]: [None] is the return value -1. *)
Definition fs_stat (root : fsnode) (path : string) : option stat_t :=
  match resolve root path with
  | Some n => node_stat n
  | None => None
  end.

(** ** Calls that leave the program *)

Inductive fsevent := fsevent_create | fsevent_modify | fsevent_remove.

Inductive event :=
| Ev_imglist (img : ptr) (ty : fsevent)
| Ev_redraw
| Ev_monitor (path : string)
| Ev_thumb_save (path : string) (pm : pixmap).

(** ** The world and its monad *)

(** [heap] lists what the coming allocations of an entry return ([None]
    for a failed one), [entropy] what the coming calls of [rand()] return,
    [trace] the calls made so far, oldest first. *)
Record world := mk_world {
  il : image_list;
  gl : gallery;
  fsroot : fsnode;
  heap : list (option ptr);
  entropy : list Z;
  trace : list event
}.

Definition set_il (c : image_list) (w : world) : world :=
  mk_world c (gl w) (fsroot w) (heap w) (entropy w) (trace w).

Definition set_heap (h : list (option ptr)) (w : world) : world :=
  mk_world (il w) (gl w) (fsroot w) h (entropy w) (trace w).

Definition set_entropy (r : list Z) (w : world) : world :=
  mk_world (il w) (gl w) (fsroot w) (heap w) r (trace w).

Definition set_trace (t : list event) (w : world) : world :=
  mk_world (il w) (gl w) (fsroot w) (heap w) (entropy w) t.

(** How a run ends without a result: undefined behaviour the code can run
    into, and the [abort] of an [assert] that fails. *)
Inductive fault :=
  DivisionByZero | InvalidPointer | OutOfBounds | AssertionFailed.

Inductive result (A : Type) :=
| Done (a : A) (w : world)
| Fault (f : fault).
Arguments Done {A} a w.
Arguments Fault {A} f.

Definition M (A : Type) : Type := world -> result A.

Definition ret {A} (a : A) : M A := fun w => Done a w.

Definition bind {A B} (m : M A) (k : A -> M B) : M B :=
  fun w => match m w with
           | Done a w' => k a w'
           | Fault f => Fault f
           end.

Definition raise {A} (f : fault) : M A := fun _ => Fault f.

Definition gets {A} (f : world -> A) : M A := fun w => Done (f w) w.

Definition modify (f : world -> world) : M unit := fun w => Done tt (f w).

Notation "x <- m ;; k" := (bind m (fun x => k))
  (at level 61, m at next level, right associativity).
Notation "m ;;; k" := (bind m (fun _ => k))
  (at level 61, right associativity).

Definition modify_il (f : image_list -> image_list) : M unit :=
  modify (fun w => set_il (f (il w)) w).

(** The statements of a function body, run one after another. *)
Fixpoint sequence (stmts : list (M unit)) : M unit :=
  match stmts with
  | [] => ret tt
  | s :: rest =>
      match rest with
      | [] => s
      | _ :: _ => s ;;; sequence rest
      end
  end.

(** The worlds such a run passes through: the world each statement
    leaves behind, in the order of the statements, and the last of them
    once more as the world of the result. *)
Fixpoint passes (stmts : list (M unit)) : M (list world) :=
  match stmts with
  | [] => ret []
  | s :: rest =>
      fun w => match s w with
               | Done _ w1 =>
                   match passes rest w1 with
                   | Done ws w' => Done (w1 :: ws) w'
                   | Fault f => Fault f
                   end
               | Fault f => Fault f
               end
  end.

Definition emit (e : event) : M unit :=
  modify (fun w => set_trace (trace w ++ [e]) w).

(** [rand()]: a value in [0, RAND_MAX]. *)
Definition rand : M Z :=
  fun w => match entropy w with
           | r :: rest => Done (r mod RAND_MOD) (set_entropy rest w)
           | [] => Done 0 w
           end.

(** Modelled from the spec: [image_create] (image.c is not among the
    sources) allocates a new entry for a source, with no size, time, index,
    frames or thumbnail yet; [None] when the allocation fails. *)
Definition image_create (src : string) : M (option image) :=
  fun w => match heap w with
           | Some a :: rest =>
               Done (Some (mk_image a src 0 0 0 [] None)) (set_heap rest w)
           | None :: rest => Done None (set_heap rest w)
           | [] => Done None w
           end.

(** Modelled from the spec: [app_on_imglist] (application.c is not among
    the sources), the advisory notification "list changed at entry E with
    event kind". *)
Definition app_on_imglist (img : ptr) (ty : fsevent) : M unit :=
  emit (Ev_imglist img ty).

(** Modelled from the spec: [app_redraw] (application.c is not among the
    sources), the advisory notification "redraw requested". *)
Definition app_redraw : M unit := emit Ev_redraw.

(** Modelled from the spec: [fs_monitor_add] (fs.c is not among the
    sources) registers a path for live updates. *)
Definition fs_monitor_add (path : string) : M unit := emit (Ev_monitor path).

(** [stat(path, &st)] on the current file system. *)
Definition stat (path : string) : M (option stat_t) :=
  gets (fun w => fs_stat (fsroot w) path).

(** ** formats/loader.c *)

Inductive image_status := imgload_success | imgload_unsupported | imgload_ioerror.

Module Loader.

(** [malloc] and [realloc]: what the allocator answers is read off the
    [heap] of the world, as for the allocation of an entry; [false] is the
    null pointer. *)
Definition malloc : M bool :=
  fun w => match heap w with
           | Some _ :: rest => Done true (set_heap rest w)
           | None :: rest => Done false (set_heap rest w)
           | [] => Done false w
           end.

(** An entry with the members of [struct image] that [image_load] writes
    besides those of [image]: the display name, the name of the parent
    directory and the copy of the raw bytes ([None] is the null
    pointer). *)
Record loading := mk_loading {
  entry : image;
  name : option string;
  parent_dir : option string;
  file_raw : option (list Z)
}.

Definition set_entry (e : image) (img : loading) : loading :=
  mk_loading e (name img) (parent_dir img) (file_raw img).

Definition set_file_raw (r : option (list Z)) (img : loading) : loading :=
  mk_loading (entry img) (name img) (parent_dir img) r.

Definition set_names (n p : option string) (img : loading) : loading :=
  mk_loading (entry img) n p (file_raw img).

(** Modelled from the spec: a decoder ([image_decoder]; the decoders are
    not among the sources) is given the entry, the bytes and their number;
    it answers with a status and leaves the frames and the meta data it
    has decoded in the entry. *)
Definition image_decoder : Type := image -> list Z -> Z -> image_status * image.

(** Modelled from the spec: of the members of [image], a decoder writes
    the frames only; [frame_decoder] is what it decodes from the bytes. *)
Definition frame_decoder : Type := list Z -> Z -> image_status * list pixmap.

Definition decoder_of (d : frame_decoder) : image_decoder :=
  fun e data size => let (status, frs) := d data size in (status, set_frames frs e).

(** What a [read] on the standard input finds: bytes that have arrived, no
    bytes yet ([EAGAIN]), or an error.  The end of the list is the end of
    the stream. *)
Inductive read_event :=
| Rd_data (bytes : list Z)
| Rd_again
| Rd_error.

(** The result of [read(fd, buf, count)]: the return value, whether
    [errno] is [EAGAIN], the bytes stored at [buf], and what is left of the
    stream. *)
Definition read (input : list read_event) (count : Z)
  : Z * bool * list Z * list read_event :=
  match input with
  | [] => (0, false, [], [])
  | Rd_data bytes :: rest =>
      let now := firstn (Z.to_nat count) bytes in
      let later := skipn (Z.to_nat count) bytes in
      (Z.of_nat (length now), false, now,
       match later with
       | [] => rest
       | _ :: _ => Rd_data later :: rest
       end)
  | Rd_again :: rest => (-1, true, [], rest)
  | Rd_error :: rest => (-1, false, [], rest)
  end.

(** The bytes and the events a stream holds: a bound on the number of
    [read] calls that return something. *)
Fixpoint stream_weight (input : list read_event) : nat :=
  match input with
  | [] => O
  | Rd_data bytes :: rest => S (length bytes + stream_weight rest)
  | _ :: rest => S (stream_weight rest)
  end.

(** [while (pos && src[--pos] != '/') { }]: the position the loop stops
    at. *)
Fixpoint scan_back (src : string) (pos : nat) : nat :=
  match pos with
  | O => O
  | S p =>
      match String.get p src with
      | Some "/"%char => p
      | _ => scan_back src p
      end
  end.

(** [src[pos] == '/']. *)
Definition slash_at (src : string) (pos : nat) : bool :=
  match String.get pos src with
  | Some c => Ascii.eqb c "/"%char
  | None => false
  end.

(** The display name of a file source of at least one character:
    [src + pos + (src[pos] == '/' ? 1 : 0)]. *)
Definition name_of (src : string) : string :=
  let pos := scan_back src (String.length src - 1) in
  let pos := if slash_at src pos then S pos else pos in
  substring pos (String.length src - pos) src.

(** The name of the parent directory of a file source of at least one
    character. *)
Definition parent_of (src : string) : string :=
  let pos := scan_back src (String.length src - 1) in
  if (pos =? 0)%nat then ""
  else
    let end_ := pos in
    let pos := scan_back src pos in
    let pos := if slash_at src pos then S pos else pos in
    substring pos (end_ - pos) src.

Section Loading.

(** The table [decoders], the standard input, and what is not among the
    sources.  Modelled from the spec: [shellcmd_exec] gives the return
    code of a command and the buffer with its output ([None]: a null
    pointer); the bytes of a file that [open] and [mmap] give ([None]: one
    of them fails). *)
Variable decoders : list image_decoder.
Variable stdin : list read_event.
Variable shellcmd_exec : string -> Z * option (list Z).
Variable file_data : string -> option (list Z).

(** The loop of [load_from_memory] over the table. *)
Fixpoint decode (ds : list image_decoder) (status : image_status)
         (e : image) (data : list Z) (size : Z) : image_status * image :=
  match ds with
  | [] => (status, e)
  | d :: rest =>
      match status with
      | imgload_unsupported =>
          let (s, e') := d e data size in decode rest s e' data size
      | _ => (status, e)
      end
  end.

Definition load_from_memory (img : loading) (data : list Z) (size : Z)
  : M (image_status * loading) :=
  let (status, e) := decode decoders imgload_unsupported (entry img) data size in
  r <- match status with
       | imgload_success =>
           dest <- malloc ;;
           if dest
           then ret (imgload_success, Some (firstn (Z.to_nat size) data))
           else ret (imgload_ioerror, None)
       | _ => ret (status, file_raw img)
       end ;;
  let (status', raw) := r in
  ret (status',
       set_file_raw raw (set_entry (set_file_info size (file_time e) e) img)).

Definition load_from_file (img : loading) (file : string)
  : M (image_status * loading) :=
  st <- stat file ;;
  match st with
  | None => ret (imgload_ioerror, img)
  | Some s =>
      if negb (S_ISREG s) then ret (imgload_ioerror, img)
      else
        match file_data file with
        | None => ret (imgload_ioerror, img)
        | Some data => load_from_memory img data (to_size_t (st_size s))
        end
  end.

(** The loop of [load_from_stream]: [data] holds the bytes of the buffer,
    of which the first [size] count.  Every round but the last takes an
    event or a byte from the stream; [fuel] bounds the rounds. *)
Fixpoint stream_loop (fuel : nat) (img : loading) (input : list read_event)
         (data : list Z) (size capacity : Z) : M (image_status * loading) :=
  match fuel with
  | O => ret (imgload_ioerror, img)
  | S fuel' =>
      grown <- (if size =? capacity then
                  new_buf <- malloc ;;
                  if new_buf
                  then ret (Some (to_size_t (capacity + 256 * 1024)))
                  else ret None
                else ret (Some capacity)) ;;
      match grown with
      | None => ret (imgload_ioerror, img)
      | Some capacity' =>
          if capacity' <? size then raise OutOfBounds
          else
            let '(rc, again, bytes, input') := read input (capacity' - size) in
            let held := firstn (Z.to_nat size) data in
            if rc =? 0 then load_from_memory img held size
            else if (rc =? -1) && negb again then ret (imgload_ioerror, img)
            else stream_loop fuel' img input' (held ++ bytes)
                             (to_size_t (size + rc)) capacity'
      end
  end.

Definition load_from_stream (img : loading) : M (image_status * loading) :=
  stream_loop (S (stream_weight stdin)) img stdin [] 0 0.

Definition load_from_exec (img : loading) (cmd : string)
  : M (image_status * loading) :=
  match shellcmd_exec cmd with
  | (0, Some data) => load_from_memory img data (Z.of_nat (length data))
  | _ => ret (imgload_ioerror, img)
  end.

(** [image_load].  The scan for the name of a file source starts at
    [strlen(img->source) - 1], which for an empty source is a position
    outside the string. *)
Definition image_load (img : loading) : M (image_status * loading) :=
  let img := set_entry (set_thumbnail None (set_frames [] (entry img))) img in
  let src := source (entry img) in
  r <- (if streq src LDRSRC_STDIN then load_from_stream img
        else if has_prefix LDRSRC_EXEC src
        then load_from_exec img (substring (String.length LDRSRC_EXEC)
                                           (String.length src) src)
        else load_from_file img src) ;;
  let (status, img) := r in
  match status with
  | imgload_success =>
      let src := source (entry img) in
      if streq src LDRSRC_STDIN || has_prefix LDRSRC_EXEC src
      then ret (status, set_names (Some src) (Some "") img)
      else
        match name img, parent_dir img with
        | Some n, Some p => ret (status, img)
        | n, p =>
            if (String.length src =? 0)%nat then raise OutOfBounds
            else ret (status,
                      set_names
                        (match n with
                         | Some _ => n
                         | None => Some (name_of src)
                         end)
                        (match p with
                         | Some _ => p
                         | None => Some (parent_of src)
                         end) img)
        end
  | _ => ret (status, img)
  end.

End Loading.

End Loader.

(** ** What the program takes from elsewhere *)

(** The collation of the locale, the helpers of fs.c (which return the
    number of characters written, 0 on failure: here the new text of the
    buffer, [None] for 0), [mkdir], what [image_load] works on (the table
    of decoders, the standard input, the commands and the bytes of the
    files), the scaler, and the reader of a stored thumbnail. *)
Record externals := mk_externals {
  strcoll : string -> string -> Z;
  fs_envpath : string -> string -> option string;
  fs_append_path : option string -> string -> Z -> option string;
  mkdir_ok : string -> bool;
  decoders : list Loader.frame_decoder;
  stdin : list Loader.read_event;
  shellcmd_exec : string -> Z * option (list Z);
  file_data : string -> option (list Z);
  thumb_scale : pixmap -> Z -> bool -> Z -> option pixmap;
  thumb_read : string -> option pixmap
}.

(** ** imglist.c *)

(** The comparison loop of [order_numeric].  Every round consumes at least
    one character of [a]; [fuel] bounds the rounds. *)
Fixpoint numeric_loop (fuel : nat) (a b : string) (cmp : Z) : option Z :=
  match fuel with
  | O => None
  | S fuel' =>
      if cmp =? 0 then
        match a, b with
        | String ca ra, String cb rb =>
            if isdigit ca && isdigit cb then
              let (va, a') := strtoull a in
              let (vb, b') := strtoull b in
              numeric_loop fuel' a' b' (to_ssize_t (va - vb))
            else
              numeric_loop fuel' ra rb (char_val ca - char_val cb)
        | _, _ => Some cmp
        end
      else Some cmp
  end.

Definition numeric_cmp (a b : string) : Z :=
  match numeric_loop (S (String.length a)) a b 0 with
  | Some cmp => cmp
  | None => 0
  end.

(** The first entry whose source is [src]: the loop of [imglist_find]. *)
Fixpoint find_source (l : list image) (src : string) : option ptr :=
  match l with
  | [] => None
  | it :: t => if streq src (source it) then Some (addr it) else find_source t src
  end.

(** The loop of the [order_random] branch: [if (!index--)]. *)
Fixpoint nth_node (l : list image) (index : Z) : option ptr :=
  match l with
  | [] => None
  | it :: t => if index =? 0 then Some (addr it) else nth_node t (index - 1)
  end.

(** The loop of [reindex], entered with the current value of [ctx.size]. *)
Fixpoint reindex_from (sz : Z) (l : list image) : Z * list image :=
  match l with
  | [] => (sz, [])
  | it :: t =>
      let sz' := to_size_t (sz + 1) in
      let (n, t') := reindex_from sz' t in
      (n, set_index sz' it :: t')
  end.

(** The counting loops of [imglist_distance]. *)
Fixpoint count_forward (l : list image) (stop : ptr) (distance : Z) : Z :=
  match l with
  | [] => distance
  | it :: t =>
      if addr it =? stop then distance
      else count_forward t stop (to_ssize_t (distance + 1))
  end.

Fixpoint count_backward (l : list image) (stop : ptr) (distance : Z) : Z :=
  match l with
  | [] => distance
  | it :: t =>
      if addr it =? stop then distance
      else count_backward t stop (to_ssize_t (distance - 1))
  end.

Section Imglist.

Variable X : externals.

(** The value of [cmp] for one entry [it] of the list. *)
Definition entry_cmp (o : list_order) (img it : image) : Z :=
  match o with
  | order_alpha => strcoll X (source img) (source it)
  | order_numeric => numeric_cmp (source img) (source it)
  | order_mtime => to_ssize_t (file_time it - file_time img)
  | order_size => to_ssize_t (file_size it - file_size img)
  | order_none | order_random => 0
  end.

(** The comparison scan of [ordered_position]. *)
Fixpoint scan_position (o : list_order) (rev : bool) (img : image)
                       (l : list image) : option ptr :=
  match l with
  | [] => None
  | it :: t =>
      let cmp := entry_cmp o img it in
      if (rev && (cmp >? 0)) || (negb rev && (cmp <? 0))
      then Some (addr it)
      else scan_position o rev img t
  end.

Definition ordered_position (img : image) : M (option ptr) :=
  c <- gets il ;;
  match order c with
  | order_none => ret None
  | order_random =>
      r <- rand ;;
      if size c =? 0 then raise DivisionByZero
      else ret (nth_node (images c) (r mod size c))
  | o => ret (scan_position o (reverse c) img (images c))
  end.

Definition imglist_find (src : string) : M (option ptr) :=
  gets (fun w => find_source (images (il w)) src).

Definition add_entry (src : string) (st : option stat_t) : M (option ptr) :=
  found <- imglist_find src ;;
  match found with
  | Some entry => ret (Some entry)
  | None =>
      created <- image_create src ;;
      match created with
      | None => ret None
      | Some e0 =>
          let e1 := match st with
                    | Some s => set_file_info (to_size_t (st_size s)) (st_mtime s) e0
                    | None => e0
                    end in
          modify_il (fun c => set_size (to_size_t (size c + 1)) c) ;;;
          sz <- gets (fun w => size (il w)) ;;
          let entry := set_index sz e1 in
          pos <- ordered_position entry ;;
          match pos with
          | Some p => modify_il (fun c => set_images (IList.insert (images c) p entry) c)
          | None => modify_il (fun c => set_images (IList.append (images c) entry) c)
          end ;;;
          ret (Some (addr entry))
      end
  end.

Definition reindex : M unit :=
  modify_il (fun c =>
    let (n, l) := reindex_from 0 (images c) in
    set_size n (set_images l c)).

Definition imglist_lock : M unit := modify_il (set_lock true).

Definition imglist_unlock : M unit := modify_il (set_lock false).

(** [image_free(img, IMGFREE_ALL)] releases an entry that is no longer
    linked; nothing of it remains in the world. *)
Definition imglist_remove (img : ptr) : M unit :=
  modify_il (fun c => set_images (IList.remove (images c) img) c) ;;;
  reindex.

(** Reading through a pointer to an entry of the list. *)
Definition deref (p : ptr) : M image :=
  fun w => match IList.node (images (il w)) p with
           | Some e => Done e w
           | None => Fault InvalidPointer
           end.

Definition imglist_distance (start stop : ptr) : M Z :=
  s <- deref start ;;
  e <- deref stop ;;
  l <- gets (fun w => images (il w)) ;;
  if index s <=? index e
  then ret (count_forward (IList.from l start) stop 0)
  else ret (count_backward (IList.from l stop) start 0).

(** The loop of [imglist_rand]: [offset] rounds. *)
Fixpoint rand_walk (offset : nat) (img : option ptr) : M (option ptr) :=
  match offset with
  | O => ret img
  | S k =>
      match img with
      | None => raise InvalidPointer
      | Some p =>
          l <- gets (fun w => images (il w)) ;;
          match IList.next l p with
          | Some q => rand_walk k (Some q)
          | None => rand_walk k (IList.head_ptr l)
          end
      end
  end.

Definition imglist_rand (img : ptr) : M (option ptr) :=
  r <- rand ;;
  sz <- gets (fun w => size (il w)) ;;
  let d := to_size_t (sz - 1) in
  if d =? 0 then raise DivisionByZero
  else rand_walk (Z.to_nat (to_size_t (1 + r mod d))) (Some img).

(** [strncpy(path, dir, sizeof(path) - 1)] into a zeroed buffer. *)
Definition path_of_dir (dir : string) : string :=
  substring 0 (Z.to_nat (PATH_MAX - 1)) dir.

(** The backward scan at the end of [add_dir]. *)
Fixpoint first_in_dir (dir : string) (back : list image) (img : ptr) : ptr :=
  match back with
  | [] => img
  | it :: t =>
      if has_prefix dir (source it) then first_in_dir dir t (addr it) else img
  end.

(** [add_dir], on the directory [opendir(dir)] has opened ([add_dir_node])
    and on the names [readdir] has yet to return ([add_dir_loop]).  The
    [stat] of a name is the one of the node found under it. *)
Fixpoint add_dir_node (dir : string) (n : fsnode) {struct n} : M (option ptr) :=
  match n with
  | Dir true _ ents =>
      img <- add_dir_loop dir ents None ;;
      first <- match img with
               | Some p =>
                   l <- gets (fun w => images (il w)) ;;
                   match IList.prev l p with
                   | Some q => ret (Some (first_in_dir dir (IList.back_from l q) p))
                   | None => ret (Some p)
                   end
               | None => ret None
               end ;;
      fs_monitor_add dir ;;;
      ret first
  | _ => ret None
  end
with add_dir_loop (dir : string) (d : dirents) (img : option ptr) {struct d}
  : M (option ptr) :=
  match d with
  | DNil => ret img
  | DCons name child rest =>
      img' <-
        (if streq name "." || streq name ".." then ret img
         else
           match fs_append_path X (Some name) (path_of_dir dir) PATH_MAX with
           | None => ret img
           | Some path =>
               match node_stat child with
               | Some st =>
                   if S_ISDIR st then
                     rec <- gets (fun w => recursive (il w)) ;;
                     if rec then
                       let path' := match fs_append_path X None path PATH_MAX with
                                    | Some p => p
                                    | None => path
                                    end in
                       add_dir_node path' child
                     else ret img
                   else if S_ISREG st then add_entry path (Some st)
                   else ret img
               | None => ret img
               end
           end) ;;
      add_dir_loop dir rest img'
  end.

Definition add_dir (dir : string) : M (option ptr) :=
  n <- gets (fun w => resolve (fsroot w) dir) ;;
  match n with
  | Some d => add_dir_node dir d
  | None => ret None
  end.

(** [path[path_len - 1] == '/']; an empty [path] is read out of bounds. *)
Fixpoint last_char (s : string) : option ascii :=
  match s with
  | EmptyString => None
  | String c EmptyString => Some c
  | String _ rest => last_char rest
  end.

Definition notify (img : option ptr) (ty : fsevent) : M unit :=
  match img with
  | Some p => app_on_imglist p ty
  | None => ret tt
  end.

(** The [switch] of [on_fsevent]. *)
Definition fsevent_body (ty : fsevent) (path : string) (is_dir : bool) : M unit :=
  match ty with
  | fsevent_create =>
      if is_dir then
        rec <- gets (fun w => recursive (il w)) ;;
        if rec then img <- add_dir path ;; notify img ty else ret tt
      else
        st <- stat path ;;
        match st with
        | Some s =>
            if S_ISREG s then img <- add_entry path (Some s) ;; notify img ty
            else ret tt
        | None => ret tt
        end
  | fsevent_remove =>
      if is_dir then ret tt
      else
        img <- imglist_find path ;;
        match img with
        | Some p => app_on_imglist p ty ;;; imglist_remove p
        | None => ret tt
        end
  | fsevent_modify =>
      if is_dir then ret tt
      else img <- imglist_find path ;; notify img ty
  end.

(** The statements of [on_fsevent] that follow its declarations, in the
    order of the source: [imglist_lock()], the [switch], [reindex()],
    [imglist_unlock()]. *)
Definition fsevent_statements (ty : fsevent) (path : string) (is_dir : bool)
  : list (M unit) :=
  [ imglist_lock; fsevent_body ty path is_dir; reindex; imglist_unlock ].

Definition on_fsevent (ty : fsevent) (path : string) : M unit :=
  match last_char path with
  | None => raise OutOfBounds
  | Some c =>
      let is_dir := Ascii.eqb c "/"%char in
      sequence (fsevent_statements ty path is_dir)
  end.

End Imglist.

(** ** gallery.c *)

Definition hex_digit (n : Z) : ascii :=
  nth (Z.to_nat n)
      ["0"; "1"; "2"; "3"; "4"; "5"; "6"; "7";
       "8"; "9"; "a"; "b"; "c"; "d"; "e"; "f"]%char "0"%char.

(** ["%04x"] of a [uint16_t]. *)
Definition hex4 (v : Z) : string :=
  let u := v mod 65536 in
  String (hex_digit (u / 4096))
    (String (hex_digit (u / 256 mod 16))
      (String (hex_digit (u / 16 mod 16))
        (String (hex_digit (u mod 16)) ""))).

(** ["%d"]. *)
Definition dec (z : Z) : string :=
  DecimalString.NilZero.string_of_int (Z.to_int z).

(** The text [snprintf] formats for [".%04x%d%d"]. *)
Definition thumb_postfix (g : gallery) : string :=
  ("." ++ hex4 (thumb_size g) ++ dec (if thumb_fill g then 1 else 0)
       ++ dec (thumb_aa g))%string.

Definition strlen (s : string) : Z := Z.of_nat (String.length s).

(** Positions [i >= 1] of a separator in [s]: the text before each, which
    is what [pstore_save] hands to [mkdir], outermost first. *)
Fixpoint dir_prefixes (done rest : string) : list string :=
  match rest with
  | EmptyString => []
  | String c rest' =>
      let here := if Ascii.eqb c "/"%char && negb (streq done "")
                  then [done] else [] in
      here ++ dir_prefixes (done ++ String c "")%string rest'
  end.

Section Gallery.

Variable X : externals.

(** [pstore_path]: [None] is the return value 0.  The 16 bytes of
    [postfix] hold any text of at most 15 characters; a longer one makes
    the final [memcpy] read past the array. *)
Definition pstore_path (src : string) : M (option string) :=
  if streq src LDRSRC_STDIN || has_prefix LDRSRC_EXEC src then ret None
  else
    let dir := match fs_envpath X "XDG_CACHE_HOME" "/swayimg" with
               | Some p => Some p
               | None => fs_envpath X "HOME" "/.cache/swayimg"
               end in
    match dir with
    | None => ret None
    | Some path0 =>
        match fs_append_path X (Some src) path0 PATH_MAX with
        | None => ret None
        | Some path =>
            g <- gets gl ;;
            let postfix := thumb_postfix g in
            let len := strlen path in
            let append_len := strlen postfix in
            if (append_len <=? 0) || (PATH_MAX <=? len + append_len + 1)
            then ret None
            else if 16 <=? append_len then raise OutOfBounds
            else ret (Some (path ++ postfix)%string)
        end
    end.

(** Modelled from the spec: [image_thumb_save] (image.c is not among the
    sources) persists the thumbnail of an entry under a path of the
    persistent store. *)
Definition image_thumb_save (img : image) (path : string) : M unit :=
  match thumbnail img with
  | Some pm => emit (Ev_thumb_save path pm)
  | None => ret tt
  end.

(** Modelled from the spec: [image_thumb_load] (image.c is not among the
    sources) updates the entry from the cached bytes; it fails when the
    file does not hold a well-formed thumbnail. *)
Definition image_thumb_load (img : image) (path : string) : M (bool * image) :=
  match thumb_read X path with
  | Some pm => ret (true, set_thumbnail (Some pm) img)
  | None => ret (false, img)
  end.

(** Modelled from the spec: [image_thumb_create] (image.c is not among the
    sources) synthesizes the thumbnail from the first decoded frame, under
    the scaling mode and the anti-aliasing setting; it fails on an entry
    without frames and when the scaler fails. *)
Definition image_thumb_create (img : image) (sz : Z) (fill : bool) (aa : Z)
  : bool * image :=
  match frames img with
  | [] => (false, img)
  | f :: _ =>
      match thumb_scale X f sz fill aa with
      | Some t => (true, set_thumbnail (Some t) img)
      | None => (false, img)
      end
  end.

(** Modelled from the spec: [image_update] (image.c is not among the
    sources) merges a loaded result into the live entry: the decoded
    frames and the thumbnail the result carries replace those of the
    entry, which keeps its place, source and index. *)
Definition image_update (dst src : image) : image :=
  let d := if image_has_frames src then set_frames (frames src) dst else dst in
  if image_has_thumb src then set_thumbnail (thumbnail src) d else d.

(** [pstore_save]: the directories are created outermost first and the
    first failure other than [EEXIST] abandons the save. *)
Definition pstore_save (img : image) : M unit :=
  if negb (image_has_thumb img) then ret tt
  else
    p <- pstore_path (source img) ;;
    match p with
    | None => ret tt
    | Some path =>
        if forallb (mkdir_ok X) (dir_prefixes "" path)
        then image_thumb_save img path
        else ret tt
    end.

Definition pstore_load (img : image) : M (bool * image) :=
  p <- pstore_path (source img) ;;
  match p with
  | None => ret (false, img)
  | Some path =>
      st_image <- stat (source img) ;;
      match st_image with
      | None => ret (false, img)
      | Some si =>
          st_thumb <- stat path ;;
          match st_thumb with
          | None => ret (false, img)
          | Some sth =>
              if tv_sec (st_mtim si) >? tv_sec (st_mtim sth)
              then ret (false, img)
              else image_thumb_load img path
          end
      end
  end.

(** [image_load] (formats/loader.c) on a queued entry, whose name and
    parent directory are not set yet.  The name, the parent directory and
    the raw bytes that [image_load] leaves in the entry are not read by
    the worker and are not kept. *)
Definition image_load (img : image) : M (image_status * image) :=
  r <- Loader.image_load (map Loader.decoder_of (decoders X)) (stdin X)
                         (shellcmd_exec X) (file_data X)
                         (Loader.mk_loading img None None None) ;;
  ret (fst r, Loader.entry (snd r)).

(** What one round of the worker's loop does next. *)
Inductive flow := Proceed | Skip | Stop.

(** First critical section of [loader_thread]: is the thumbnail of the
    live entry already there, or can it be made from its frames? *)
Definition loader_check (it : image) : M flow :=
  imglist_lock ;;;
  g <- gets gl ;;
  if negb (loader_active g) then imglist_unlock ;;; ret Stop
  else
    origin <- imglist_find (source it) ;;
    origin' <-
      match origin with
      | Some o =>
          e <- deref o ;;
          if image_has_thumb e then ret None
          else
            let (created, e') :=
              image_thumb_create e (thumb_size g) (thumb_fill g) (thumb_aa g) in
            if created then
              modify_il (fun c => set_images (IList.update (images c) o (fun _ => e')) c) ;;;
              app_redraw ;;;
              ret None
            else ret (Some o)
      | None => ret None
      end ;;
    imglist_unlock ;;;
    match origin' with
    | Some _ => ret Proceed
    | None => ret Skip
    end.

(** The loading step of [loader_thread], outside the lock, on the queued
    entry [it]; the result is [it] as the step leaves it. *)
Definition loader_load (it : image) : M image :=
  g <- gets gl ;;
  hit <- (if thumb_pstore g then pstore_load it else ret (false, it)) ;;
  let (loaded, it1) := hit in
  if loaded then ret it1
  else
    r <- image_load it1 ;;
    let (status, it2) := r in
    match status with
    | imgload_success =>
        let (created, it3) :=
          image_thumb_create it2 (thumb_size g) (thumb_fill g) (thumb_aa g) in
        (if created && thumb_pstore g then
           match frames it3 with
           | [] => raise OutOfBounds
           | f0 :: _ =>
               let width := pm_width f0 in
               let height := pm_height f0 in
               if (width >? thumb_size g) && (height >? thumb_size g)
               then pstore_save it3
               else ret tt
           end
         else ret tt) ;;;
        ret (set_frames [] it3)
    | _ => ret it2
    end.

(** Second critical section of [loader_thread]: the result is put into the
    image list.  [false] when the round ends the loop. *)
Definition loader_commit (it : image) : M bool :=
  imglist_lock ;;;
  g <- gets gl ;;
  if negb (loader_active g) then imglist_unlock ;;; ret false
  else
    origin <- imglist_find (source it) ;;
    match origin with
    | Some o =>
        if image_has_thumb it
        then modify_il (fun c =>
               set_images (IList.update (images c) o (fun d => image_update d it)) c)
        else imglist_remove o
    | None => ret tt
    end ;;;
    imglist_unlock ;;;
    app_redraw ;;;
    ret true.

(** One round of the loop of [loader_thread].  [others] is what the other
    thread does to the world while the worker does not hold the lock. *)
Definition loader_item (others : M unit) (it : image) : M bool :=
  f <- loader_check it ;;
  match f with
  | Stop => ret false
  | Skip => ret true
  | Proceed =>
      others ;;;
      it' <- loader_load it ;;
      others ;;;
      loader_commit it'
  end.

(** The loop of [loader_thread] over the detached queue. *)
Fixpoint loader_loop (others : M unit) (queue : list image) : M unit :=
  match queue with
  | [] => ret tt
  | it :: rest =>
      go_on <- loader_item others it ;;
      if go_on then loader_loop others rest else ret tt
  end.

End Gallery.

(** * Concrete instances

    An environment, a file tree and image lists on which the properties
    below are exercised. *)

Module Demo.

(** [strcmp]: the difference of the first two bytes that differ. *)
Fixpoint strcmp (a b : string) : Z :=
  match a, b with
  | EmptyString, EmptyString => 0
  | EmptyString, String cb _ => - Z.of_N (N_of_ascii cb)
  | String ca _, EmptyString => Z.of_N (N_of_ascii ca)
  | String ca ra, String cb rb =>
      if Ascii.eqb ca cb then strcmp ra rb
      else Z.of_N (N_of_ascii ca) - Z.of_N (N_of_ascii cb)
  end.

(** Appends a name (or only the separator) to a path held in a buffer of
    [max] bytes. *)
Definition append_path (file : option string) (path : string) (max : Z)
  : option string :=
  let sep := match last_char path, file with
             | Some "/"%char, _ => ""
             | _, Some (String "/"%char _) => ""
             | _, _ => "/"
             end in
  let tail := match file with
              | Some f => (sep ++ f)%string
              | None => sep
              end in
  if (strlen tail =? 0) || (max <=? strlen path + strlen tail) then None
  else Some (path ++ tail)%string.

Definition frame_800x600 : pixmap := mk_pixmap 800 600 [].
Definition thumb_128 : pixmap := mk_pixmap 128 96 [].

(** The C locale, a home directory, one decoder that takes everything for
    an image of 800x600, a standard input that cannot be read, commands
    and files that give four bytes, a working scaler. *)
Definition env : externals :=
  {| strcoll := strcmp;
     fs_envpath := fun var postfix =>
       if streq var "HOME" then Some ("/home/u" ++ postfix)%string else None;
     fs_append_path := append_path;
     mkdir_ok := fun _ => true;
     decoders := [fun _ _ => (imgload_success, [frame_800x600])];
     stdin := [Loader.Rd_error];
     shellcmd_exec := fun _ => (0, Some [137; 80; 78; 71]);
     file_data := fun _ => Some [137; 80; 78; 71];
     thumb_scale := fun _ _ _ _ => Some thumb_128;
     thumb_read := fun _ => Some thumb_128 |}.

Definition t0 : timespec := mk_timespec 1700000000 0.

(** [/pics] holds three images and a directory with one more. *)
Definition tree : fsnode :=
  Dir true t0
    (DCons "pics"
       (Dir true t0
          (DCons "a.png" (File 10 t0)
          (DCons "b.png" (File 20 t0)
          (DCons "sub" (Dir true t0 (DCons "c.png" (File 30 t0) DNil))
          (DCons "d.png" (File 40 t0) DNil)))))
       DNil).

Definition entry (a : ptr) (src : string) (i : Z) : image :=
  mk_image a src i 0 0 [] None.

Definition ctx_of (l : list image) (n : Z) (o : list_order) (rec : bool)
  : image_list :=
  mk_image_list l n false o false false rec false false.

Definition gal : gallery := mk_gallery 0 false 0 false true 128 true.

Definition world_of (c : image_list) : world :=
  mk_world c gal tree [Some 1000; Some 1001; Some 1002; Some 1003] [5; 7] [].

(** A source next to its stored thumbnail, which was written at
    100.5 s. *)
Definition tree_cached (source_time : timespec) : fsnode :=
  Dir true t0
    (DCons "pics"
       (Dir true t0 (DCons "a.png" (File 10 source_time) DNil))
    (DCons "home"
       (Dir true t0 (DCons "u"
         (Dir true t0 (DCons ".cache"
           (Dir true t0 (DCons "swayimg"
             (Dir true t0 (DCons "pics"
               (Dir true t0
                  (DCons "a.png.008000" (File 99 (mk_timespec 100 500000000))
                   DNil))
               DNil))
             DNil))
           DNil))
         DNil))
     DNil)).

Definition w_cached (source_time : timespec) : world :=
  mk_world (ctx_of [entry 1 "/pics/a.png" 1] 1 order_none false)
           gal (tree_cached source_time) [Some 2000] [] [].

(** The source was modified 400 ms after the thumbnail was written. *)
Definition w_same_second : world := w_cached (mk_timespec 100 900000000).

(** The source was modified 100 s after the thumbnail was written. *)
Definition w_later : world := w_cached (mk_timespec 200 500000000).

(** Queued entries: a file and the output of a command. *)
Definition queued_file : image := entry 500 "/pics/a.png" 0.
Definition queued_exec : image := entry 501 "exec://convert a.svg png:-" 0.

(** An empty list under the numeric-aware policy. *)
Definition w_numeric : world := world_of (ctx_of [] 0 order_numeric false).

(** Three entries with dense indices. *)
Definition w_three : world :=
  world_of (ctx_of [entry 1 "/pics/a.png" 1; entry 2 "/pics/b.png" 2;
                    entry 3 "/pics/d.png" 3] 3 order_none false).

(** A list whose indices and size counter are stale. *)
Definition w_stale : world :=
  world_of (ctx_of [entry 1 "/pics/a.png" 7; entry 2 "/pics/b.png" 7]
                   9 order_none false).

(** A one-entry list, in lexicographic order, directories read
    recursively. *)
Definition w_alpha : world :=
  world_of (ctx_of [entry 1 "/pics/a.png" 1] 1 order_alpha true).

End Demo.

(** * The rest of the program

    Traversal and navigation, and the initial load of the list
    (imglist.c), on the definitions above. *)

(** ** Traversal (imglist.c) *)

(** Modelled from the spec: [list_get_last(head)], the last node of a
    list (the list primitives are not among the sources). *)
Definition list_get_last (l : list image) : option ptr :=
  IList.head_ptr (rev l).

Definition imglist_size : M Z := gets (fun w => size (il w)).

Definition imglist_first : M (option ptr) :=
  gets (fun w => IList.head_ptr (images (il w))).

Definition imglist_last : M (option ptr) :=
  gets (fun w => list_get_last (images (il w))).

Definition imglist_next (img : ptr) : M (option ptr) :=
  gets (fun w => IList.next (images (il w)) img).

Definition imglist_prev (img : ptr) : M (option ptr) :=
  gets (fun w => IList.prev (images (il w)) img).

Definition imglist_next_file (img : ptr) : M (option ptr) :=
  next <- imglist_next img ;;
  lp <- gets (fun w => loop (il w)) ;;
  match next with
  | Some n => ret (Some n)
  | None =>
      if lp then
        first <- imglist_first ;;
        match first with
        | Some f => if f =? img then ret None else ret (Some f)
        | None => ret None
        end
      else ret None
  end.

Definition imglist_prev_file (img : ptr) : M (option ptr) :=
  prev <- imglist_prev img ;;
  lp <- gets (fun w => loop (il w)) ;;
  match prev with
  | Some p => ret (Some p)
  | None =>
      if lp then
        last <- imglist_last ;;
        match last with
        | Some f => if f =? img then ret None else ret (Some f)
        | None => ret None
        end
      else ret None
  end.

(** The loops of [imglist_jump]: [if (distance-- == 0)] over the successors,
    [if (distance++ == 0)] over the predecessors. *)
Fixpoint jump_forward (l : list image) (distance : Z) : option ptr :=
  match l with
  | [] => None
  | it :: t =>
      if distance =? 0 then Some (addr it)
      else jump_forward t (to_ssize_t (distance - 1))
  end.

Fixpoint jump_backward (l : list image) (distance : Z) : option ptr :=
  match l with
  | [] => None
  | it :: t =>
      if distance =? 0 then Some (addr it)
      else jump_backward t (to_ssize_t (distance + 1))
  end.

Definition imglist_jump (img : ptr) (distance : Z) : M (option ptr) :=
  l <- gets (fun w => images (il w)) ;;
  if distance >? 0 then ret (jump_forward (IList.from l img) distance)
  else if distance <? 0 then ret (jump_backward (IList.back_from l img) distance)
  else ret (Some img).


(** ** Navigation between directories (imglist.c) *)

(** [strrchr(s, c) - s]: the position of the last [c] in [s]; [None] when
    there is none. *)
Fixpoint strrchr (s : string) (c : ascii) : option nat :=
  match s with
  | EmptyString => None
  | String x rest =>
      match strrchr rest c with
      | Some n => Some (S n)
      | None => if Ascii.eqb x c then Some O else None
      end
  end.

(** [delim ? delim - src : 0]. *)
Definition delim_len (src : string) : nat :=
  match strrchr src "/" with
  | Some n => n
  | None => O
  end.

(** [strncmp(a, b, n) == 0]: the first [n] characters agree, or both
    strings end before and are equal. *)
Definition strncmp_eq (a b : string) (n : nat) : bool :=
  String.eqb (substring 0 n a) (substring 0 n b).

(** The move of one round of [get_next_parent]: to the neighbour and, in
    loop mode, from the last entry to the first and back. *)
Definition parent_step (l : list image) (loop forward : bool) (it : ptr)
  : option ptr :=
  if forward then
    match IList.next l it with
    | Some q => Some q
    | None => if loop then IList.head_ptr l else None
    end
  else
    match IList.prev l it with
    | Some q => Some q
    | None => if loop then list_get_last l else None
    end.

(** The loop [while (!next)] of [get_next_parent].  [fuel] bounds the
    rounds: a walk that starts at an entry of the list is back at that
    entry, or at an end of the list, within as many rounds as the list has
    entries; only a walk from a pointer that is no node of the list goes
    on. *)
Fixpoint next_parent_loop (fuel : nat) (img : ptr) (cur_src : string)
         (cur_len : nat) (loop forward : bool) (it : ptr) : M (option ptr) :=
  match fuel with
  | O => raise InvalidPointer
  | S fuel' =>
      l <- gets (fun w => images (il w)) ;;
      match parent_step l loop forward it with
      | None => ret None
      | Some q =>
          if q =? img then ret None
          else
            e <- deref q ;;
            let it_src := source e in
            let it_len := delim_len it_src in
            if negb (Nat.eqb cur_len it_len)
               || negb (strncmp_eq cur_src it_src cur_len)
            then ret (Some q)
            else next_parent_loop fuel' img cur_src cur_len loop forward q
      end
  end.

Definition get_next_parent (img : ptr) (loop forward : bool)
  : M (option ptr) :=
  e <- deref img ;;
  let cur_src := source e in
  let cur_len := delim_len cur_src in
  n <- gets (fun w => length (images (il w))) ;;
  next_parent_loop (S n) img cur_src cur_len loop forward img.

Definition imglist_next_dir (img : ptr) : M (option ptr) :=
  lp <- gets (fun w => loop (il w)) ;;
  get_next_parent img lp true.

Definition imglist_prev_dir (img : ptr) : M (option ptr) :=
  lp <- gets (fun w => loop (il w)) ;;
  get_next_parent img lp false.

(** ** The initial load (imglist.c) *)

Definition set_all_files (b : bool) (c : image_list) : image_list :=
  mk_image_list (images c) (size c) (lock c) (order c) (reverse c) (loop c)
                (recursive c) b (from_file c).

(** [while (rd && (line[rd - 1] == '\r' || line[rd - 1] == '\n'))
    line[--rd] = 0]: the line without the carriage returns and line feeds
    it ends with.  A tail that is stripped to nothing consists of such
    characters only. *)
Fixpoint strip_eol (line : string) : string :=
  match line with
  | EmptyString => EmptyString
  | String c rest =>
      match strip_eol rest with
      | EmptyString =>
          if Ascii.eqb c "013"%char || Ascii.eqb c "010"%char
          then EmptyString
          else String c EmptyString
      | r => String c r
      end
  end.

(** The C string a buffer holds: the characters before its first NUL. *)
Fixpoint c_str (buf : string) : string :=
  match buf with
  | EmptyString => EmptyString
  | String c rest =>
      if Ascii.eqb c "000"%char then EmptyString else String c (c_str rest)
  end.

Section Load.

Variable X : externals.

(** Modelled from the spec: [fs_abspath] (fs.c is not among the sources)
    gives the absolute path of a source; [None] is the return value 0. *)
Variable fs_abspath : string -> option string.

(** What [getline] reads from a list file, line by line: the [rd]
    characters of each line, its line end among them and any NUL the file
    holds; [None] when [fopen] fails. *)
Variable list_file : string -> option (list string).

(** [add_source]; the messages on [stderr] are left out. *)
Definition add_source (src : string) : M (option ptr) :=
  if has_prefix LDRSRC_STDIN src || has_prefix LDRSRC_EXEC src
  then add_entry X src None
  else
    st <- stat src ;;
    match st with
    | None => ret None
    | Some s =>
        match fs_abspath src with
        | None => ret None
        | Some fspath =>
            if S_ISDIR s then
              let fspath' := match fs_append_path X None fspath PATH_MAX with
                             | Some p => p
                             | None => fspath
                             end in
              add_dir X fspath'
            else if S_ISREG s then
              img <- add_entry X fspath (Some s) ;;
              match img with
              | Some p =>
                  af <- gets (fun w => all_files (il w)) ;;
                  (if negb af
                   then e <- deref p ;; fs_monitor_add (source e)
                   else ret tt) ;;;
                  ret img
              | None => ret img
              end
            else ret None
        end
    end.

(** The loop of [load_sources] over several sources:
    [if (!img && added) img = added]. *)
Fixpoint load_each (sources : list string) (img : option ptr)
  : M (option ptr) :=
  match sources with
  | [] => ret img
  | s :: rest =>
      added <- add_source s ;;
      load_each rest (match img with
                      | Some _ => img
                      | None => added
                      end)
  end.

Definition load_sources (sources : list string) : M (option ptr) :=
  match sources with
  | [] =>
      img <- add_source "." ;;
      modify_il (set_all_files false) ;;;
      ret img
  | [s0] =>
      if streq s0 "-" then add_source LDRSRC_STDIN
      else
        af <- gets (fun w => all_files (il w)) ;;
        (if af then
           st <- stat s0 ;;
           match st with
           | Some s =>
               if S_ISDIR s then modify_il (set_all_files false) else ret tt
           | None => ret tt
           end
         else ret tt) ;;;
        img <- add_source s0 ;;
        af' <- gets (fun w => all_files (il w)) ;;
        match img with
        | Some p =>
            if af' then
              e <- deref p ;;
              match strrchr (source e) "/" with
              | Some d =>
                  let len := S d in
                  if Z.of_nat len <? PATH_MAX
                  then add_dir X (substring 0 len (source e)) ;;; ret img
                  else ret img
              | None => ret img
              end
            else ret img
        | None => ret img
        end
  | _ =>
      modify_il (set_all_files false) ;;;
      load_each sources None
  end.

(** The loop [while ((rd = getline(&line, &line_sz, fd)) > 0)].  The
    line end is stripped from the [rd] characters read; [*line] and
    [add_source(line)] then take the buffer as a C string. *)
Fixpoint load_lines (lines : list string) : M unit :=
  match lines with
  | [] => ret tt
  | line :: rest =>
      if (String.length line =? 0)%nat then ret tt
      else
        let line' := c_str (strip_eol line) in
        (if streq line' "" then ret tt
         else add_source line' ;;; ret tt) ;;;
        load_lines rest
  end.

Fixpoint load_files (files : list string) : M unit :=
  match files with
  | [] => ret tt
  | f :: rest =>
      match list_file f with
      | None => ret tt
      | Some lines => load_lines lines
      end ;;;
      load_files rest
  end.

Definition load_fromfile (files : list string) : M (option ptr) :=
  modify_il (set_all_files false) ;;;
  load_files files ;;;
  imglist_first.

(** [imglist_load]; a list that is loaded already fails its
    [assert(ctx.size == 0)]. *)
Definition imglist_load (sources : list string) : M (option ptr) :=
  sz <- gets (fun w => size (il w)) ;;
  if negb (sz =? 0) then raise AssertionFailed
  else
    ff <- gets (fun w => from_file (il w)) ;;
    img <- (if ff then load_fromfile sources else load_sources sources) ;;
    reindex ;;;
    ret img.

End Load.

(** * Properties *)

(** ** The monad *)

Lemma bind_Done {A B} (m : M A) (k : A -> M B) (w w' : world) (b : B) :
  bind m k w = Done b w' ->
  exists a w1, m w = Done a w1 /\ k a w1 = Done b w'.
Proof.
  unfold bind. destruct (m w) as [a w1 | f]; [ | discriminate ].
  intros H. exists a, w1. split; [ reflexivity | exact H ].
Qed.

Lemma bind_eq {A B} (m : M A) (k : A -> M B) (w w1 : world) (a : A) :
  m w = Done a w1 -> bind m k w = k a w1.
Proof. unfold bind. intros ->. reflexivity. Qed.

(** Splits the hypothesis [H : (x <- m ;; k) w = Done _ _]. *)
Tactic Notation "bind_inv" hyp(H) "as" ident(a) ident(w1) ident(H1) :=
  apply bind_Done in H; destruct H as (a & w1 & H1 & H).

Ltac done_inv H := inversion H; subst; clear H.

(** ** List primitives *)

Lemma streq_refl (s : string) : streq s s = true.
Proof. unfold streq. apply String.eqb_refl. Qed.

Lemma find_source_insert (l : list image) (p : ptr) (entry : image)
      (src : string) (a : ptr) :
  source entry = src -> addr entry = a ->
  find_source l src = None ->
  find_source (IList.insert l p entry) src = Some a.
Proof.
  intros <- <-.
  induction l as [ | x t IH ]; simpl; intros H.
  - now rewrite streq_refl.
  - destruct (streq (source entry) (source x)) eqn:E; [ discriminate | ].
    destruct (addr x =? p); simpl.
    + now rewrite streq_refl.
    + rewrite E. now apply IH.
Qed.

Lemma find_source_append (l : list image) (entry : image) (src : string)
      (a : ptr) :
  source entry = src -> addr entry = a ->
  find_source l src = None ->
  find_source (IList.append l entry) src = Some a.
Proof.
  intros <- <-. unfold IList.append.
  induction l as [ | x t IH ]; simpl; intros H.
  - now rewrite streq_refl.
  - destruct (streq (source entry) (source x)) eqn:E; [ discriminate | ].
    now apply IH.
Qed.

(** A pointer [find_source] returns designates a node of the list. *)
Lemma find_source_In (l : list image) (src : string) (p : ptr) :
  find_source l src = Some p -> In p (map addr l).
Proof.
  induction l as [ | x t IH ]; simpl; [ discriminate | ].
  destruct (streq src (source x)).
  - intros [= <-]. now left.
  - intros H. right. now apply IH.
Qed.

(** ** Insertion *)

Lemma rand_il (w w' : world) (r : Z) :
  rand w = Done r w' ->
  il w' = il w /\ heap w' = heap w /\ trace w' = trace w /\ gl w' = gl w
  /\ 0 <= r < RAND_MOD.
Proof.
  unfold rand. destruct (entropy w) as [ | r0 rest ]; intros H; done_inv H;
    repeat split; try reflexivity; try (unfold RAND_MOD; lia);
    apply Z.mod_pos_bound; reflexivity.
Qed.

Lemma ordered_position_il (X : externals) (img : image) (w w' : world)
      (pos : option ptr) :
  ordered_position X img w = Done pos w' ->
  il w' = il w /\ heap w' = heap w /\ trace w' = trace w.
Proof.
  unfold ordered_position. intros H. bind_inv H as c w0 Hc.
  unfold gets in Hc. done_inv Hc.
  destruct (order (il w0)); try (unfold ret in H; done_inv H; now repeat split).
  bind_inv H as r w1 Hr. apply rand_il in Hr. destruct Hr as (E1 & E2 & E3 & _).
  destruct (size (il w0) =? 0); [ discriminate | ].
  unfold ret in H. done_inv H. now repeat split.
Qed.

(** The position [ordered_position] returns is a node of the list. *)
Lemma nth_node_In (l : list image) (i : Z) (p : ptr) :
  nth_node l i = Some p -> In p (map addr l).
Proof.
  revert i. induction l as [ | x t IH ]; simpl; intros i; [ discriminate | ].
  destruct (i =? 0).
  - intros [= <-]. now left.
  - intros H. right. eapply IH, H.
Qed.

Lemma scan_position_In (X : externals) (o : list_order) (rev : bool)
      (img : image) (l : list image) (p : ptr) :
  scan_position X o rev img l = Some p -> In p (map addr l).
Proof.
  induction l as [ | x t IH ]; simpl; [ discriminate | ].
  destruct (_ || _).
  - intros [= <-]. now left.
  - intros H. right. now apply IH.
Qed.

Lemma ordered_position_member (X : externals) (img : image) (w w' : world)
      (p : ptr) :
  ordered_position X img w = Done (Some p) w' ->
  In p (map addr (images (il w))).
Proof.
  unfold ordered_position. intros H. bind_inv H as c w0 Hc.
  unfold gets in Hc. done_inv Hc.
  destruct (order (il w0)) eqn:O; unfold ret in H;
    try (done_inv H; eapply scan_position_In; eassumption);
    try discriminate.
  bind_inv H as r w1 Hr. destruct (size (il w0) =? 0); [ discriminate | ].
  done_inv H. eapply nth_node_In. eassumption.
Qed.

Lemma add_entry_present (X : externals) (src : string) (st : option stat_t)
      (w : world) (e : ptr) :
  find_source (images (il w)) src = Some e ->
  add_entry X src st w = Done (Some e) w.
Proof.
  intros H. unfold add_entry, bind, imglist_find, gets. now rewrite H.
Qed.

Definition has_source (src : string) (e : image) : bool := streq src (source e).

Lemma find_source_none_filter (l : list image) (src : string) :
  find_source l src = None -> filter (has_source src) l = [].
Proof.
  induction l as [ | x t IH ]; simpl; [ reflexivity | ]. unfold has_source at 1.
  destruct (streq src (source x)); [ discriminate | exact IH ].
Qed.

Lemma filter_insert (l : list image) (p : ptr) (entry : image) (src : string) :
  source entry = src ->
  length (filter (has_source src) (IList.insert l p entry))
  = S (length (filter (has_source src) l)).
Proof.
  intros <-. induction l as [ | x t IH ]; simpl.
  - unfold has_source. now rewrite streq_refl.
  - destruct (addr x =? p); simpl.
    + unfold has_source at 1. now rewrite streq_refl.
    + destruct (has_source (source entry) x); simpl; now rewrite IH.
Qed.

Lemma filter_append (l : list image) (entry : image) (src : string) :
  source entry = src ->
  length (filter (has_source src) (IList.append l entry))
  = S (length (filter (has_source src) l)).
Proof.
  intros <-. unfold IList.append. rewrite filter_app, length_app. simpl.
  unfold has_source at 2. rewrite streq_refl. simpl. lia.
Qed.

(** What an insertion that had to create the entry does to the list. *)
Lemma add_entry_new (X : externals) (src : string) (st : option stat_t)
      (w w' : world) (e : ptr) :
  find_source (images (il w)) src = None ->
  add_entry X src st w = Done (Some e) w' ->
  exists entry rest,
    heap w = Some e :: rest /\ heap w' = rest
    /\ addr entry = e /\ source entry = src
    /\ index entry = to_size_t (size (il w) + 1)
    /\ size (il w') = to_size_t (size (il w) + 1)
    /\ ((exists p, In p (map addr (images (il w)))
                   /\ images (il w') = IList.insert (images (il w)) p entry)
        \/ images (il w') = IList.append (images (il w)) entry).
Proof.
  intros F H. unfold add_entry in H. bind_inv H as found w0 Hf.
  unfold imglist_find, gets in Hf. done_inv Hf. rewrite F in H.
  bind_inv H as created w1 Hc. unfold image_create in Hc.
  destruct (heap w0) as [ | [ ad | ] rest ] eqn:Hh; done_inv Hc;
    try (unfold ret in H; discriminate).
  bind_inv H as u w2 Hs. unfold modify_il, modify in Hs. done_inv Hs.
  bind_inv H as sz w3 Hg. unfold gets in Hg. done_inv Hg.
  bind_inv H as pos w4 Hp.
  pose proof (ordered_position_il _ _ _ _ _ Hp) as (E & Eh & _).
  bind_inv H as u' w5 Hi. unfold ret in H. done_inv H.
  set (entry := set_index _ _) in Hp.
  exists entry, rest.
  destruct pos as [ p | ]; unfold modify_il, modify in Hi; done_inv Hi;
    cbn [il set_il images set_images size set_size heap];
    rewrite Eh, E; cbn [il set_il set_heap images set_images size set_size heap];
    repeat (split; [ solve [ subst entry; destruct st; reflexivity ] | ]).
  - left. exists p. split; [ | reflexivity ].
    apply ordered_position_member in Hp. exact Hp.
  - right. reflexivity.
Qed.

(** After an insertion that returned an entry, the source is found, and
    the entry found is the one returned. *)
Lemma add_entry_found (X : externals) (src : string) (st : option stat_t)
      (w w' : world) (e : ptr) :
  add_entry X src st w = Done (Some e) w' ->
  find_source (images (il w')) src = Some e.
Proof.
  intros H. destruct (find_source (images (il w)) src) as [ e0 | ] eqn:F.
  - rewrite (add_entry_present X src st w e0 F) in H. now done_inv H.
  - destruct (add_entry_new _ _ _ _ _ _ F H)
      as (entry & rest & _ & _ & Ha & Hs & _ & _ & [ (p & _ & Hi) | Hi ]);
      rewrite Hi.
    + now apply find_source_insert.
    + now apply find_source_append.
Qed.

(** C1. Inserting a source that is already in the list returns the entry
    that holds it, consumes no allocation and leaves the whole world, so
    the contents, the order and the size counter of the list, as it was.
    When an insertion has returned an entry, inserting the same source
    again returns that very entry and changes nothing; and if the source
    was not in the list before the first insertion, exactly one entry
    holds it afterwards. *)
Theorem add_entry_idempotent (X : externals) (src : string)
        (st st' : option stat_t) (w : world) :
  (forall e, find_source (images (il w)) src = Some e ->
             add_entry X src st w = Done (Some e) w)
  /\ (forall e w', add_entry X src st w = Done (Some e) w' ->
                   add_entry X src st' w' = Done (Some e) w'
                   /\ (find_source (images (il w)) src = None ->
                       length (filter (has_source src) (images (il w'))) = 1%nat)).
Proof.
  split.
  - intros e H. now apply add_entry_present.
  - intros e w' H. split.
    + apply add_entry_present. eapply add_entry_found, H.
    + intros F.
      destruct (add_entry_new _ _ _ _ _ _ F H)
        as (entry & rest & _ & _ & _ & Hs & _ & _ & [ (p & _ & Hi) | Hi ]);
        rewrite Hi.
      * rewrite (filter_insert _ _ _ _ Hs).
        now rewrite (find_source_none_filter _ _ F).
      * rewrite (filter_append _ _ _ Hs).
        now rewrite (find_source_none_filter _ _ F).
Qed.

Lemma add_entry_idempotent_witness :
  add_entry Demo.env "/pics/b.png" None Demo.w_three = Done (Some 2) Demo.w_three
  /\ exists w',
       add_entry Demo.env "/pics/new.png" None Demo.w_three = Done (Some 1000) w'
       /\ add_entry Demo.env "/pics/new.png" None w' = Done (Some 1000) w'
       /\ length (images (il w')) = 4%nat.
Proof.
  destruct (add_entry_idempotent Demo.env "/pics/b.png" None None Demo.w_three)
    as [ H _ ].
  split; [ apply H; reflexivity | ].
  destruct (add_entry_idempotent Demo.env "/pics/new.png" None None Demo.w_three)
    as [ _ H2 ].
  eexists. split; [ vm_compute; reflexivity | ].
  split; [ apply H2; vm_compute; reflexivity | reflexivity ].
Defined.

(** ** Reindexing *)

(** The indices are dense: the k-th entry carries k, and the size counter
    is the number of entries. *)
Definition dense (c : image_list) : Prop :=
  size c = Z.of_nat (length (images c))
  /\ map index (images c) = map Z.of_nat (seq 1 (length (images c))).

Lemma reindex_from_spec (l : list image) (n : nat) :
  Z.of_nat n + Z.of_nat (length l) < SIZE_MOD ->
  fst (reindex_from (Z.of_nat n) l) = Z.of_nat (n + length l)
  /\ map index (snd (reindex_from (Z.of_nat n) l))
     = map Z.of_nat (seq (S n) (length l))
  /\ map addr (snd (reindex_from (Z.of_nat n) l)) = map addr l
  /\ map source (snd (reindex_from (Z.of_nat n) l)) = map source l
  /\ map thumbnail (snd (reindex_from (Z.of_nat n) l)) = map thumbnail l.
Proof.
  revert n. induction l as [ | x t IH ]; intros n Hb.
  - simpl. repeat split. f_equal. lia.
  - cbn [reindex_from length] in *.
    assert (E : to_size_t (Z.of_nat n + 1) = Z.of_nat (S n)).
    { unfold to_size_t. rewrite Z.mod_small; lia. }
    rewrite E. destruct (IH (S n)) as (I1 & I2 & I3 & I4 & I5); [ lia | ].
    destruct (reindex_from (Z.of_nat (S n)) t) as [ m t' ].
    cbn [fst snd map seq] in *. repeat split.
    + rewrite I1. f_equal. lia.
    + now rewrite I2.
    + now rewrite I3.
    + now rewrite I4.
    + now rewrite I5.
Qed.

Lemma reindex_from_length (l : list image) (sz : Z) :
  length (snd (reindex_from sz l)) = length l.
Proof.
  revert sz. induction l as [ | x t IH ]; intros sz; [ reflexivity | ].
  simpl. specialize (IH (to_size_t (sz + 1))).
  destruct (reindex_from (to_size_t (sz + 1)) t). simpl in *. now rewrite IH.
Qed.

Lemma reindex_run (w : world) :
  reindex w
  = Done tt (set_il (set_size (fst (reindex_from 0 (images (il w))))
                       (set_images (snd (reindex_from 0 (images (il w)))) (il w)))
                    w).
Proof.
  unfold reindex, modify_il, modify.
  now destruct (reindex_from 0 (images (il w))).
Qed.

Lemma reindex_dense (w w' : world) :
  Z.of_nat (length (images (il w))) < SIZE_MOD ->
  reindex w = Done tt w' ->
  dense (il w')
  /\ map addr (images (il w')) = map addr (images (il w))
  /\ map source (images (il w')) = map source (images (il w)).
Proof.
  intros Hb H. rewrite reindex_run in H. done_inv H.
  destruct (reindex_from_spec (images (il w)) 0) as (I1 & I2 & I3 & I4 & _);
    [ simpl; lia | ].
  change (Z.of_nat 0) with 0 in *.
  unfold dense. cbn [il set_il images set_images size set_size].
  rewrite reindex_from_length. repeat split; assumption.
Qed.

(** ** The lock across the event handler *)

(** A computation that leaves the lock as it found it. *)
Definition keeps_lock {A} (m : M A) : Prop :=
  forall w a w', m w = Done a w' -> lock (il w') = lock (il w).

Lemma keeps_ret {A} (a : A) : keeps_lock (ret a).
Proof. intros w b w' H. now done_inv H. Qed.

Lemma keeps_gets {A} (f : world -> A) : keeps_lock (gets f).
Proof. intros w b w' H. now done_inv H. Qed.

Lemma keeps_raise {A} (f : fault) : keeps_lock (@raise A f).
Proof. intros w b w' H. discriminate. Qed.

Lemma keeps_bind {A B} (m : M A) (k : A -> M B) :
  keeps_lock m -> (forall a, keeps_lock (k a)) -> keeps_lock (bind m k).
Proof.
  intros Hm Hk w b w' H. bind_inv H as a w1 H1.
  rewrite (Hk a _ _ _ H). eapply Hm, H1.
Qed.

Lemma keeps_modify_il (f : image_list -> image_list) :
  (forall c, lock (f c) = lock c) -> keeps_lock (modify_il f).
Proof. intros Hf w b w' H. done_inv H. simpl. apply Hf. Qed.

Lemma keeps_emit (e : event) : keeps_lock (emit e).
Proof. intros w b w' H. now done_inv H. Qed.

Lemma keeps_rand : keeps_lock rand.
Proof. intros w r w' H. apply rand_il in H. destruct H as (E & _). now rewrite E. Qed.

Lemma keeps_image_create (src : string) : keeps_lock (image_create src).
Proof.
  intros w r w' H. unfold image_create in H.
  destruct (heap w) as [ | [ a | ] rest ]; now done_inv H.
Qed.

Lemma keeps_reindex : keeps_lock reindex.
Proof. intros w r w' H. rewrite reindex_run in H. now done_inv H. Qed.

Create HintDb keeps.
#[local] Hint Resolve keeps_ret keeps_gets keeps_raise keeps_emit keeps_rand
  keeps_image_create keeps_reindex : keeps.

(** Goes through binds and case distinctions down to the primitives. *)
Ltac keeps :=
  repeat first
    [ solve [ auto with keeps ]
    | apply keeps_bind; [ | intros ? ]
    | apply keeps_modify_il; intros ?; reflexivity
    | match goal with
      | |- keeps_lock (match ?x with _ => _ end) => destruct x
      end ].

Lemma keeps_ordered_position (X : externals) (img : image) :
  keeps_lock (ordered_position X img).
Proof. unfold ordered_position. keeps. Qed.
#[local] Hint Resolve keeps_ordered_position : keeps.

Lemma keeps_add_entry (X : externals) (src : string) (st : option stat_t) :
  keeps_lock (add_entry X src st).
Proof. unfold add_entry, imglist_find. keeps. Qed.
#[local] Hint Resolve keeps_add_entry : keeps.

Lemma keeps_imglist_remove (p : ptr) : keeps_lock (imglist_remove p).
Proof. unfold imglist_remove. keeps. Qed.
#[local] Hint Resolve keeps_imglist_remove : keeps.

Lemma keeps_notify (img : option ptr) (ty : fsevent) : keeps_lock (notify img ty).
Proof. unfold notify, app_on_imglist. keeps. Qed.
#[local] Hint Resolve keeps_notify : keeps.

Scheme fsnode_ind2 := Induction for fsnode Sort Prop
  with dirents_ind2 := Induction for dirents Sort Prop.
Combined Scheme fs_mutind from fsnode_ind2, dirents_ind2.

Lemma keeps_add_dir_mut (X : externals) :
  (forall n dir, keeps_lock (add_dir_node X dir n))
  /\ (forall d dir img, keeps_lock (add_dir_loop X dir d img)).
Proof.
  apply fs_mutind.
  - intros sz t dir. apply keeps_ret.
  - intros t dir. apply keeps_ret.
  - intros dir. apply keeps_ret.
  - intros r t ents IH dir. cbn [add_dir_node]. unfold fs_monitor_add.
    destruct r; [ | apply keeps_ret ].
    apply keeps_bind; [ apply IH | intros ? ]. keeps.
  - intros dir img. apply keeps_ret.
  - intros name n IHn rest IHrest dir img. cbn [add_dir_loop].
    apply keeps_bind; [ | intros ?; apply IHrest ].
    destruct (_ || _); [ keeps | ].
    destruct (fs_append_path X _ _ _); [ | keeps ].
    destruct (node_stat n) as [ st | ]; [ | keeps ].
    destruct (S_ISDIR st).
    + apply keeps_bind; [ keeps | intros rec ].
      destruct rec; [ apply IHn | keeps ].
    + keeps.
Qed.

Lemma keeps_add_dir (X : externals) (dir : string) : keeps_lock (add_dir X dir).
Proof.
  unfold add_dir. apply keeps_bind; [ keeps | intros n ].
  destruct n; [ apply keeps_add_dir_mut | keeps ].
Qed.
#[local] Hint Resolve keeps_add_dir : keeps.

Lemma keeps_fsevent_body (X : externals) (ty : fsevent) (path : string)
      (is_dir : bool) :
  keeps_lock (fsevent_body X ty path is_dir).
Proof.
  unfold fsevent_body, stat, imglist_find, app_on_imglist.
  destruct ty, is_dir; keeps.
Qed.

(** ** Completion of the event handler *)

(** Under every policy but the random one no step of the handler can
    fault once the path is known not to be empty. *)
Definition ordered (w : world) : Prop := order (il w) <> order_random.

Definition completes {A} (m : M A) : Prop :=
  forall w, ordered w -> exists a w', m w = Done a w' /\ ordered w'.

Lemma completes_ret {A} (a : A) : completes (ret a).
Proof. intros w H. now exists a, w. Qed.

Lemma completes_gets {A} (f : world -> A) : completes (gets f).
Proof. intros w H. now exists (f w), w. Qed.

Lemma completes_bind {A B} (m : M A) (k : A -> M B) :
  completes m -> (forall a, completes (k a)) -> completes (bind m k).
Proof.
  intros Hm Hk w H. destruct (Hm w H) as (a & w1 & E & H1).
  destruct (Hk a w1 H1) as (b & w2 & E2 & H2).
  exists b, w2. split; [ | exact H2 ]. unfold bind. now rewrite E.
Qed.

Lemma completes_modify_il (f : image_list -> image_list) :
  (forall c, order (f c) = order c) -> completes (modify_il f).
Proof.
  intros Hf w H. exists tt, (set_il (f (il w)) w). split; [ reflexivity | ].
  unfold ordered in *. simpl. now rewrite Hf.
Qed.

Lemma completes_emit (e : event) : completes (emit e).
Proof. intros w H. eexists tt, _. split; [ reflexivity | exact H ]. Qed.

Lemma completes_image_create (src : string) : completes (image_create src).
Proof.
  intros w H. unfold image_create.
  destruct (heap w) as [ | [ a | ] rest ]; eexists _, _;
    (split; [ reflexivity | exact H ]).
Qed.

Lemma completes_reindex : completes reindex.
Proof.
  intros w H. eexists tt, _. split; [ apply reindex_run | exact H ].
Qed.

Lemma completes_ordered_position (X : externals) (img : image) :
  completes (ordered_position X img).
Proof.
  intros w H. unfold ordered_position, bind, gets, ret.
  destruct (order (il w)) eqn:O;
    try (eexists _, w; split; [ reflexivity | exact H ]).
  unfold ordered in H. congruence.
Qed.

Create HintDb completes.
#[local] Hint Resolve completes_ret completes_gets completes_emit
  completes_image_create completes_reindex completes_ordered_position
  : completes.

Ltac completes :=
  repeat first
    [ solve [ auto with completes ]
    | apply completes_bind; [ | intros ? ]
    | apply completes_modify_il; intros ?; reflexivity
    | match goal with
      | |- completes (match ?x with _ => _ end) => destruct x
      end ].

Lemma completes_add_entry (X : externals) (src : string) (st : option stat_t) :
  completes (add_entry X src st).
Proof. unfold add_entry, imglist_find. completes. Qed.
#[local] Hint Resolve completes_add_entry : completes.

Lemma completes_add_dir_mut (X : externals) :
  (forall n dir, completes (add_dir_node X dir n))
  /\ (forall d dir img, completes (add_dir_loop X dir d img)).
Proof.
  apply fs_mutind.
  - intros sz t dir. apply completes_ret.
  - intros t dir. apply completes_ret.
  - intros dir. apply completes_ret.
  - intros r t ents IH dir. cbn [add_dir_node]. unfold fs_monitor_add.
    destruct r; [ | apply completes_ret ].
    apply completes_bind; [ apply IH | intros ? ]. completes.
  - intros dir img. apply completes_ret.
  - intros name n IHn rest IHrest dir img. cbn [add_dir_loop].
    apply completes_bind; [ | intros ?; apply IHrest ].
    destruct (_ || _); [ completes | ].
    destruct (fs_append_path X _ _ _); [ | completes ].
    destruct (node_stat n) as [ st | ]; [ | completes ].
    destruct (S_ISDIR st).
    + apply completes_bind; [ completes | intros rec ].
      destruct rec; [ apply IHn | completes ].
    + completes.
Qed.

Lemma completes_add_dir (X : externals) (dir : string) : completes (add_dir X dir).
Proof.
  unfold add_dir. apply completes_bind; [ completes | intros n ].
  destruct n; [ apply completes_add_dir_mut | completes ].
Qed.
#[local] Hint Resolve completes_add_dir : completes.

Lemma completes_on_fsevent (X : externals) (ty : fsevent) (path : string) :
  path <> "" -> completes (on_fsevent X ty path).
Proof.
  intros Hp. unfold on_fsevent. cbn [fsevent_statements sequence].
  destruct (last_char path) as [ c | ] eqn:L.
  - unfold imglist_lock, imglist_unlock, fsevent_body, stat, imglist_find,
      imglist_remove, notify, app_on_imglist.
    destruct ty, (Ascii.eqb c "/"); completes.
  - destruct path as [ | a [ | b rest ] ]; try discriminate; [ congruence | ].
    exfalso. clear Hp. revert a b L.
    induction rest as [ | c' rest IH ]; intros a b L; [ discriminate | ].
    apply (IH b c'). exact L.
Qed.

(** A completed run of statements passes through as many worlds as it has
    statements, and [sequence] ends in the last of them. *)
Lemma passes_sequence (stmts : list (M unit)) (w w' : world)
      (ws : list world) :
  stmts <> [] ->
  passes stmts w = Done ws w' ->
  sequence stmts w = Done tt w'
  /\ length ws = length stmts
  /\ last ws w = w'.
Proof.
  revert w ws. induction stmts as [ | s rest IH ]; intros w ws Hne H;
    [ contradiction | ].
  cbn [passes] in H. destruct (s w) as [ [] w1 | f ] eqn:E; [ | discriminate ].
  destruct rest as [ | s2 rest ].
  - cbn [passes] in H. unfold ret in H. injection H as <- <-.
    cbn [sequence]. now rewrite E.
  - destruct (passes (s2 :: rest) w1) as [ ws1 w2 | f ] eqn:P;
      [ | discriminate ].
    injection H as <- <-.
    destruct (IH w1 ws1) as (Hs & Hl & Hw); [ discriminate | exact P | ].
    split; [ | split ].
    + change (sequence (s :: s2 :: rest)) with (s ;;; sequence (s2 :: rest)).
      unfold bind. now rewrite E.
    + cbn [length]. now rewrite Hl.
    + destruct ws1 as [ | v ws1 ]; [ discriminate | ].
      change (last (w1 :: v :: ws1) w) with (last (v :: ws1) w).
      rewrite <- Hw. clear. revert v. induction ws1 as [ | x t IHt ];
        intros v; [ reflexivity | ].
      change (last (v :: x :: t) w) with (last (x :: t) w).
      change (last (v :: x :: t) w1) with (last (x :: t) w1). apply IHt.
Qed.

(** C2. [reindex] always completes; after it, on a list that fits the
    address space, the k-th entry in traversal order carries the index k,
    the indices are 1..size and the size counter is the number of entries,
    while the entries and their order are untouched.  Whenever the
    file-system event handler completes, its statements have run in the
    order of the source and the worlds between them are these: the lock is
    held after the first statement and still held after the [switch];
    [reindex] is the statement that runs next, on the locked list, and
    leaves the list locked; only the last statement releases the lock.  So
    no world of the run that comes after the first statement has the lock
    free without its indices being dense.  And the handler does complete,
    for every event on a path that is not empty, under every policy but
    the random one. *)
Theorem reindex_indices_dense (X : externals) (w : world) :
  (Z.of_nat (length (images (il w))) < SIZE_MOD ->
   exists w', reindex w = Done tt w'
     /\ dense (il w')
     /\ map addr (images (il w')) = map addr (images (il w))
     /\ map source (images (il w')) = map source (images (il w)))
  /\ (forall ty path w',
        on_fsevent X ty path w = Done tt w' ->
        exists c w0 w1 w2,
          last_char path = Some c
          /\ passes (fsevent_statements X ty path (Ascii.eqb c "/")) w
             = Done [w0; w1; w2; w'] w'
          /\ imglist_lock w = Done tt w0
          /\ lock (il w0) = true
          /\ fsevent_body X ty path (Ascii.eqb c "/") w0 = Done tt w1
          /\ lock (il w1) = true
          /\ reindex w1 = Done tt w2
          /\ lock (il w2) = true
          /\ imglist_unlock w2 = Done tt w'
          /\ lock (il w') = false
          /\ (Z.of_nat (length (images (il w1))) < SIZE_MOD ->
              Forall (fun v => lock (il v) = false -> dense (il v))
                     [w0; w1; w2; w']
              /\ dense (il w')))
  /\ (forall ty path,
        order (il w) <> order_random -> path <> "" ->
        exists w', on_fsevent X ty path w = Done tt w').
Proof.
  split; [ | split ].
  - intros Hb. eexists. split; [ apply reindex_run | ].
    apply reindex_dense; [ exact Hb | apply reindex_run ].
  - intros ty path w' H. unfold on_fsevent in H.
    cbn [fsevent_statements sequence] in H.
    destruct (last_char path) as [ c | ]; [ | discriminate ].
    bind_inv H as u0 w0 Hl. bind_inv H as u1 w1 Hb. bind_inv H as u2 w2 Hr.
    destruct u0, u1, u2. exists c, w0, w1, w2.
    assert (L0 : lock (il w0) = true).
    { unfold imglist_lock, modify_il, modify in Hl. now done_inv Hl. }
    assert (L1 : lock (il w1) = true).
    { now rewrite (keeps_fsevent_body _ _ _ _ _ _ _ Hb). }
    assert (L2 : lock (il w2) = true).
    { rewrite reindex_run in Hr. done_inv Hr.
      cbn [il set_il]. destruct (reindex_from 0 (images (il w1))).
      exact L1. }
    assert (L3 : lock (il w') = false).
    { unfold imglist_unlock, modify_il, modify in H. now done_inv H. }
    split; [ reflexivity | ].
    split; [ cbn [passes fsevent_statements]; rewrite Hl, Hb, Hr, H;
             reflexivity | ].
    split; [ exact Hl | ]. split; [ exact L0 | ].
    split; [ exact Hb | ]. split; [ exact L1 | ].
    split; [ exact Hr | ]. split; [ exact L2 | ].
    split; [ exact H | ]. split; [ exact L3 | ].
    intros Hlen. destruct (reindex_dense _ _ Hlen Hr) as (D & _).
    assert (D' : dense (il w')).
    { unfold imglist_unlock, modify_il, modify in H. done_inv H. exact D. }
    split; [ | exact D' ].
    repeat (apply Forall_cons; [ intros F; first [ congruence | exact D' ] | ]).
    apply Forall_nil.
  - intros ty path Ho Hp.
    destruct (completes_on_fsevent X ty path Hp w Ho) as ([] & w' & E & _).
    now exists w'.
Qed.

Lemma reindex_indices_dense_witness :
  (exists w', reindex Demo.w_stale = Done tt w'
     /\ map index (images (il w')) = [1; 2] /\ size (il w') = 2)
  /\ match on_fsevent Demo.env fsevent_create "/pics/sub/" Demo.w_alpha with
     | Done _ w' => dense (il w') /\ map source (images (il w'))
                                     = ["/pics/a.png"; "/pics/sub/c.png"]
     | Fault _ => False
     end.
Proof.
  split.
  - destruct (reindex_indices_dense Demo.env Demo.w_stale) as [ H _ ].
    destruct H as (w' & Hr & (Hs & Hi) & _); [ vm_compute; reflexivity | ].
    exists w'. split; [ exact Hr | ].
    rewrite reindex_run in Hr. inversion Hr; subst w'. split; reflexivity.
  - destruct (reindex_indices_dense Demo.env Demo.w_alpha) as (_ & H & _).
    specialize (H fsevent_create "/pics/sub/").
    destruct (on_fsevent Demo.env fsevent_create "/pics/sub/" Demo.w_alpha)
      as [ [] w' | f ] eqn:E.
    + destruct (H w' eq_refl)
        as (c & w0 & w1 & w2 & _ & _ & _ & _ & _ & _ & Hr & _ & Hu & _ & D).
      vm_compute in E. inversion E; subst w'. split; [ | reflexivity ].
      apply D. rewrite reindex_run in Hr. inversion Hr; subst w2.
      apply (f_equal (fun r => match r with
                               | Done _ v => length (images (il v))
                               | Fault _ => 0%nat
                               end)) in Hu.
      cbn in Hu. rewrite reindex_from_length in Hu. rewrite Hu.
      vm_compute. reflexivity.
    + vm_compute in E. discriminate.
Defined.

(** ** Numeric-aware order *)

Lemma digit_run_length (s : string) (acc : Z) :
  (String.length (snd (digit_run s acc)) <= String.length s)%nat.
Proof.
  revert acc. induction s as [ | c rest IH ]; intros acc;
    cbn [digit_run]; [ simpl; lia | ].
  destruct (isdigit c); cbn [snd String.length]; [ | lia ].
  apply Nat.le_trans with (String.length rest); [ apply IH | lia ].
Qed.

(** On text that starts with a digit [strtoull] consumes at least it. *)
Lemma strtoull_shrinks (c : ascii) (rest : string) :
  isdigit c = true ->
  (String.length (snd (strtoull (String c rest))) <= String.length rest)%nat.
Proof.
  intros D. unfold strtoull. cbn [digit_run]. rewrite D.
  pose proof (digit_run_length rest (10 * 0 + (Z.of_N (N_of_ascii c) - 48))) as L.
  destruct (digit_run rest _). exact L.
Qed.

(** The comparison loop ends within the rounds [numeric_cmp] grants. *)
Lemma numeric_loop_total (fuel : nat) (a b : string) (cmp : Z) :
  (String.length a < fuel)%nat ->
  exists c, numeric_loop fuel a b cmp = Some c.
Proof.
  revert a b cmp. induction fuel as [ | fuel IH ]; intros a b cmp L; [ lia | ].
  cbn [numeric_loop]. destruct (cmp =? 0); [ | now eexists ].
  destruct a as [ | ca ra ]; [ now eexists | ].
  destruct b as [ | cb rb ]; [ now eexists | ].
  destruct (isdigit ca) eqn:Da; cbn [andb].
  - destruct (isdigit cb).
    + pose proof (strtoull_shrinks ca ra Da) as S.
      destruct (strtoull (String ca ra)) as [ va a' ].
      destruct (strtoull (String cb rb)) as [ vb b' ].
      apply IH. simpl in *. lia.
    + apply IH. simpl in L. lia.
  - apply IH. simpl in L. lia.
Qed.

(** Three insertions into the empty list of a world. *)
Definition insert3 (X : externals) (s1 s2 s3 : string)
           (st1 st2 st3 : option stat_t) : M unit :=
  add_entry X s1 st1 ;;; add_entry X s2 st2 ;;; add_entry X s3 st3 ;;; ret tt.

(** C3. Under the numeric-aware policy without reversal, inserting
    img2.png, img10.png and img1.png, in that order, into an empty list
    yields the traversal order img1.png, img2.png, img10.png, whatever the
    file information and the addresses of the new entries.  The comparison
    always ends; it reads the digit runs as numbers (10 against 2 gives 8,
    1 against 2 gives -1), other characters by their byte value ("a"
    against "b" gives -1), and the first difference decides. *)
Theorem numeric_order_example (X : externals) (w : world)
        (st1 st2 st3 : option stat_t) (a1 a2 a3 : ptr) (rest : list (option ptr)) :
  images (il w) = [] ->
  order (il w) = order_numeric ->
  reverse (il w) = false ->
  heap w = Some a1 :: Some a2 :: Some a3 :: rest ->
  (exists w', insert3 X "img2.png" "img10.png" "img1.png" st1 st2 st3 w = Done tt w'
      /\ map source (images (il w')) = ["img1.png"; "img2.png"; "img10.png"]
      /\ map addr (images (il w')) = [a3; a1; a2])
  /\ (forall a b, exists c, numeric_loop (S (String.length a)) a b 0 = Some c)
  /\ numeric_cmp "img10.png" "img2.png" = 8
  /\ numeric_cmp "img1.png" "img2.png" = -1
  /\ numeric_cmp "a.png" "b.png" = -1
  /\ numeric_cmp "img2.png" "img2.png" = 0.
Proof.
  intros Hi Ho Hr Hh.
  split; [ | split; [ | repeat split ] ].
  - destruct w as [ [ l n lk o rv lp rc af ff ] g f h e t ].
    cbn in Hi, Ho, Hr, Hh. subst l o rv h.
    unfold insert3, add_entry, bind, imglist_find, gets, image_create,
      modify_il, modify, ordered_position, ret.
    destruct st1, st2, st3; cbn; rewrite Z.eqb_refl;
      (eexists; split; [ reflexivity | split; reflexivity ]).
  - intros a b. apply numeric_loop_total. lia.
Qed.

Lemma numeric_order_example_witness :
  exists w',
    insert3 Demo.env "img2.png" "img10.png" "img1.png" None None None
            Demo.w_numeric = Done tt w'
    /\ map source (images (il w')) = ["img1.png"; "img2.png"; "img10.png"].
Proof.
  destruct (numeric_order_example Demo.env Demo.w_numeric None None None
              1000 1001 1002 [Some 1003]) as [ H _ ]; try reflexivity.
  destruct H as (w' & H1 & H2 & _). exists w'. split; assumption.
Defined.

(** ** Distance *)

Lemma to_ssize_t_small (z : Z) :
  - SSIZE_HALF <= z < SSIZE_HALF -> to_ssize_t z = z.
Proof.
  unfold to_ssize_t, SSIZE_HALF, SIZE_MOD. intros H.
  destruct (Z_lt_le_dec z 0) as [ Hn | Hp ].
  - replace (z mod 2 ^ 64) with (z + 2 ^ 64).
    + destruct (z + 2 ^ 64 <? 2 ^ 63) eqn:E; [ apply Z.ltb_lt in E | ]; lia.
    + rewrite <- (Z_mod_plus_full z 1 (2 ^ 64)). rewrite Z.mod_small; lia.
  - rewrite Z.mod_small by lia.
    destruct (z <? 2 ^ 63) eqn:E; [ reflexivity | apply Z.ltb_ge in E; lia ].
Qed.

(** Number of nodes in front of the first one at address [p]. *)
Fixpoint offset (l : list image) (p : ptr) : nat :=
  match l with
  | [] => 0
  | x :: t => if addr x =? p then 0 else S (offset t p)
  end.

Lemma offset_lt (l : list image) (p : ptr) :
  In p (map addr l) -> (offset l p < length l)%nat.
Proof.
  induction l as [ | x t IH ]; simpl; [ tauto | ].
  destruct (addr x =? p) eqn:E; [ lia | ].
  intros [ H | H ]; [ apply Z.eqb_neq in E; contradiction | ].
  specialize (IH H). lia.
Qed.

Lemma offset_inj (l : list image) (a b : ptr) :
  In a (map addr l) -> In b (map addr l) ->
  offset l a = offset l b -> a = b.
Proof.
  induction l as [ | x t IH ]; simpl; [ tauto | ].
  intros Ha Hb.
  destruct (addr x =? a) eqn:Ea, (addr x =? b) eqn:Eb; try discriminate.
  - apply Z.eqb_eq in Ea, Eb. congruence.
  - apply Z.eqb_neq in Ea, Eb. intros [= E]. apply IH; tauto.
Qed.

Lemma count_forward_offset (l : list image) (p : ptr) (d : Z) :
  0 <= d -> d + Z.of_nat (offset l p) < SSIZE_HALF ->
  count_forward l p d = d + Z.of_nat (offset l p).
Proof.
  revert d. induction l as [ | x t IH ]; intros d H0 H1; simpl in *; [ lia | ].
  destruct (addr x =? p); [ simpl; lia | ].
  rewrite to_ssize_t_small by (unfold SSIZE_HALF in *; lia).
  rewrite IH; lia.
Qed.

Lemma count_backward_offset (l : list image) (p : ptr) (d : Z) :
  d <= 0 -> - SSIZE_HALF <= d - Z.of_nat (offset l p) ->
  count_backward l p d = d - Z.of_nat (offset l p).
Proof.
  revert d. induction l as [ | x t IH ]; intros d H0 H1; simpl in *; [ lia | ].
  destruct (addr x =? p); [ simpl; lia | ].
  rewrite to_ssize_t_small by (unfold SSIZE_HALF in *; lia).
  rewrite IH; lia.
Qed.

Lemma node_index (l : list image) (p : ptr) (n : nat) :
  map index l = map Z.of_nat (seq (S n) (length l)) ->
  In p (map addr l) ->
  exists x, IList.node l p = Some x
            /\ index x = Z.of_nat (S n + offset l p).
Proof.
  revert n. unfold IList.node.
  induction l as [ | x t IH ]; intros n Hd Hp; simpl in *; [ tauto | ].
  injection Hd as Hx Ht.
  destruct (addr x =? p) eqn:E.
  - exists x. split; [ reflexivity | ]. rewrite Hx. f_equal. lia.
  - destruct Hp as [ Hp | Hp ]; [ apply Z.eqb_neq in E; contradiction | ].
    destruct (IH (S n) Ht Hp) as (y & Hy & Hi).
    exists y. split; [ exact Hy | ]. rewrite Hi. f_equal. lia.
Qed.

Lemma from_offset (l : list image) (a b : ptr) :
  (offset l a <= offset l b)%nat ->
  offset (IList.from l a) b = (offset l b - offset l a)%nat.
Proof.
  induction l as [ | x t IH ]; simpl; [ reflexivity | ].
  destruct (addr x =? a) eqn:Ea; simpl.
  - intros _. destruct (addr x =? b); lia.
  - destruct (addr x =? b); [ lia | ].
    intros H. rewrite IH; lia.
Qed.

(** The value of [imglist_distance] on a dense list. *)
Lemma distance_value (w : world) (a b : ptr) :
  dense (il w) ->
  Z.of_nat (length (images (il w))) <= SSIZE_HALF ->
  In a (map addr (images (il w))) ->
  In b (map addr (images (il w))) ->
  imglist_distance a b w
  = Done (Z.of_nat (offset (images (il w)) b)
          - Z.of_nat (offset (images (il w)) a)) w.
Proof.
  intros [ _ Hd ] Hl Ha Hb.
  destruct (node_index _ _ 0 Hd Ha) as (xa & Na & Ia).
  destruct (node_index _ _ 0 Hd Hb) as (xb & Nb & Ib).
  pose proof (offset_lt _ _ Ha) as La. pose proof (offset_lt _ _ Hb) as Lb.
  unfold imglist_distance, bind, deref, gets, ret. rewrite Na, Nb.
  rewrite Ia, Ib.
  destruct (Z.of_nat (1 + offset (images (il w)) a)
            <=? Z.of_nat (1 + offset (images (il w)) b)) eqn:C.
  - apply Z.leb_le in C.
    rewrite count_forward_offset; rewrite ?from_offset; try lia.
    f_equal. lia.
  - apply Z.leb_gt in C.
    rewrite count_backward_offset; rewrite ?from_offset; try lia.
    f_equal. lia.
Qed.

(** C4. On a list with dense indices (and no longer than the range of
    the signed counter), for any two entries a and b of the list the
    distance from a to b is the negation of the distance from b to a, and
    the distance from an entry to itself is 0; neither call changes the
    world. *)
Theorem distance_antisymmetric (w : world) (a b : ptr) :
  dense (il w) ->
  Z.of_nat (length (images (il w))) <= SSIZE_HALF ->
  In a (map addr (images (il w))) ->
  In b (map addr (images (il w))) ->
  exists d,
    imglist_distance a b w = Done d w
    /\ imglist_distance b a w = Done (- d) w
    /\ imglist_distance a a w = Done 0 w
    /\ (d = 0 <-> a = b).
Proof.
  intros Hd Hl Ha Hb.
  exists (Z.of_nat (offset (images (il w)) b)
          - Z.of_nat (offset (images (il w)) a)).
  split; [ | split; [ | split ] ].
  - now apply distance_value.
  - rewrite distance_value by assumption. f_equal. lia.
  - rewrite distance_value by assumption. f_equal. lia.
  - split.
    + intros E. apply (offset_inj (images (il w))); try assumption. lia.
    + intros ->. lia.
Qed.

Lemma distance_antisymmetric_witness :
  imglist_distance 1 3 Demo.w_three = Done 2 Demo.w_three
  /\ imglist_distance 3 1 Demo.w_three = Done (-2) Demo.w_three.
Proof.
  destruct (distance_antisymmetric Demo.w_three 1 3) as (d & H1 & H2 & _).
  - split; reflexivity.
  - vm_compute. discriminate.
  - simpl. tauto.
  - simpl. tauto.
  - assert (d = 2) as ->.
    { vm_compute in H1. now inversion H1. }
    split; assumption.
Defined.

(** ** Comparison of times and sizes *)

(** The comparison the order asks for, free of overflow: the sign of
    [x - y] over the integers. *)
Definition three_way (x y : Z) : Z :=
  if x <? y then -1 else if x =? y then 0 else 1.

(** As long as the difference fits the signed result, the subtraction has
    the sign of the three-way comparison. *)
Lemma subtraction_sign_in_range (x y : Z) :
  - SSIZE_HALF <= x - y < SSIZE_HALF ->
  Z.sgn (to_ssize_t (x - y)) = three_way x y.
Proof.
  intros H. rewrite to_ssize_t_small by exact H. unfold three_way.
  destruct (x <? y) eqn:L; [ apply Z.ltb_lt in L; lia | apply Z.ltb_ge in L ].
  destruct (x =? y) eqn:E; [ apply Z.eqb_eq in E | apply Z.eqb_neq in E ]; lia.
Qed.

(** An entry last modified at the largest time a [time_t] holds. *)
Definition latest : image := mk_image 1 "/pics/new.png" 1 10 (2 ^ 63 - 1) [] None.

Definition w_mtime : world :=
  mk_world (mk_image_list [latest] 1 true order_mtime false false false false false)
           Demo.gal Demo.tree [Some 2] [] [].

(** A file last modified two seconds before the epoch. *)
Definition st_old : stat_t := mk_stat S_IFREG 10 (mk_timespec (-2) 0).

(** C9. The comparison of [order_mtime] against an overflow-free
    three-way comparison, on an entry of time 2^63 - 1 and a new file of
    time -2: the entry is the newer one, yet the subtraction comes out
    negative, and the new file is inserted in front of it; the same happens
    under [order_size] between the sizes 2^63 and 0. *)
Theorem mtime_comparison_overflow (X : externals) :
  three_way (file_time latest) (st_mtime st_old) = 1
  /\ entry_cmp X order_mtime (set_file_info 10 (st_mtime st_old) latest) latest
     = - (2 ^ 63 - 1)
  /\ (exists w', add_entry X "/pics/old.png" (Some st_old) w_mtime = Done (Some 2) w'
        /\ map file_time (images (il w')) = [-2; 2 ^ 63 - 1])
  /\ three_way (2 ^ 63) 0 = 1
  /\ entry_cmp X order_size (set_file_info 0 0 latest)
               (set_file_info (2 ^ 63) 0 latest) = - 2 ^ 63.
Proof.
  split; [ reflexivity | ]. split; [ reflexivity | ].
  split; [ | split; reflexivity ].
  vm_compute. eexists. split; reflexivity.
Qed.

(** ** Random successor *)

Lemma from_skipn (l : list image) (p : ptr) :
  In p (map addr l) -> IList.from l p = skipn (offset l p) l.
Proof.
  induction l as [ | x t IH ]; simpl; [ tauto | ].
  destruct (addr x =? p) eqn:E; [ reflexivity | ].
  intros [ H | H ]; [ apply Z.eqb_neq in E; contradiction | now apply IH ].
Qed.

Lemma head_ptr_skipn (l : list image) (j : nat) :
  IList.head_ptr (skipn j l) = nth_error (map addr l) j.
Proof.
  revert l. induction j as [ | j IH ]; intros [ | x t ]; simpl; try reflexivity.
  apply IH.
Qed.

Lemma next_nth (l : list image) (p : ptr) :
  In p (map addr l) ->
  IList.next l p = nth_error (map addr l) (S (offset l p)).
Proof.
  intros H. unfold IList.next. rewrite from_skipn by exact H.
  rewrite <- head_ptr_skipn.
  generalize (offset l p). clear. intros i. revert l.
  induction i as [ | i IH ]; intros [ | x t ]; simpl; try reflexivity.
  apply IH.
Qed.

Lemma offset_nth_error (l : list image) (j : nat) (q : ptr) :
  NoDup (map addr l) ->
  nth_error (map addr l) j = Some q ->
  offset l q = j.
Proof.
  revert j. induction l as [ | x t IH ]; intros j Hn Hq.
  - destruct j; discriminate.
  - simpl in Hn. inversion Hn as [ | a m Hnot Hnd ]; subst.
    destruct j as [ | j ]; simpl in *.
    + injection Hq as ->. now rewrite Z.eqb_refl.
    + destruct (addr x =? q) eqn:E.
      * apply Z.eqb_eq in E. subst q. apply nth_error_In in Hq. contradiction.
      * f_equal. now apply IH.
Qed.

(** One round of the walk: the successor, or the head after the last. *)
Lemma walk_step (l : list image) (p : ptr) :
  NoDup (map addr l) ->
  In p (map addr l) ->
  exists q,
    match IList.next l p with
    | Some n => Some n
    | None => IList.head_ptr l
    end = Some q
    /\ In q (map addr l)
    /\ Z.of_nat (offset l q)
       = (Z.of_nat (offset l p) + 1) mod Z.of_nat (length l).
Proof.
  intros Hn Hp. pose proof (offset_lt _ _ Hp) as Hlt.
  rewrite next_nth by exact Hp.
  destruct (nth_error (map addr l) (S (offset l p))) as [ q | ] eqn:E.
  - exists q. split; [ reflexivity | ]. split; [ eapply nth_error_In, E | ].
    rewrite (offset_nth_error _ _ _ Hn E).
    assert (S (offset l p) < length (map addr l))%nat as B
        by (apply nth_error_Some; congruence).
    rewrite length_map in B. rewrite Z.mod_small; lia.
  - apply nth_error_None in E. rewrite length_map in E.
    assert (S (offset l p) = length l) as L by lia.
    change l with (skipn 0 l) at 1. rewrite head_ptr_skipn.
    destruct (nth_error (map addr l) 0) as [ q | ] eqn:E0.
    + exists q. split; [ reflexivity | ]. split; [ eapply nth_error_In, E0 | ].
      rewrite (offset_nth_error _ _ _ Hn E0).
      replace (Z.of_nat (offset l p) + 1) with (Z.of_nat (length l)) by lia.
      now rewrite Z.mod_same by lia.
    + apply nth_error_None in E0. rewrite length_map in E0. lia.
Qed.

Lemma rand_walk_offset (k : nat) (w : world) (p : ptr) :
  NoDup (map addr (images (il w))) ->
  In p (map addr (images (il w))) ->
  exists q,
    rand_walk k (Some p) w = Done (Some q) w
    /\ In q (map addr (images (il w)))
    /\ Z.of_nat (offset (images (il w)) q)
       = (Z.of_nat (offset (images (il w)) p) + Z.of_nat k)
           mod Z.of_nat (length (images (il w))).
Proof.
  intros Hn. revert p. induction k as [ | k IH ]; intros p Hp.
  - exists p. split; [ reflexivity | ]. split; [ exact Hp | ].
    pose proof (offset_lt _ _ Hp). rewrite Z.mod_small; lia.
  - destruct (walk_step _ _ Hn Hp) as (q & Hq & Iq & Oq).
    destruct (IH q Iq) as (q' & Hw & Iq' & Oq').
    exists q'. split; [ | split; [ exact Iq' | ] ].
    + cbn [rand_walk]. unfold bind, gets.
      destruct (IList.next (images (il w)) p) as [ n | ].
      * injection Hq as ->. exact Hw.
      * rewrite Hq. exact Hw.
    + rewrite Oq', Oq. rewrite Zplus_mod_idemp_l. f_equal. lia.
Qed.

(** C10. On a list whose size counter is the number of its entries (none
    of them linked twice), [imglist_rand] from an entry of the list is
    defined exactly from two entries on: with one entry the divisor
    [size - 1] is zero; with two or more the walk ends on an entry of the
    list other than the one it started from, and the list is as before. *)
Theorem imglist_rand_defined (w : world) (img : ptr) :
  size (il w) = Z.of_nat (length (images (il w))) ->
  Z.of_nat (length (images (il w))) < SIZE_MOD ->
  NoDup (map addr (images (il w))) ->
  In img (map addr (images (il w))) ->
  (size (il w) = 1 -> imglist_rand img w = Fault DivisionByZero)
  /\ (2 <= size (il w) ->
      exists p w',
        imglist_rand img w = Done (Some p) w'
        /\ p <> img
        /\ In p (map addr (images (il w')))
        /\ il w' = il w).
Proof.
  intros Hs Hb Hn Hi. split.
  - intros H1. unfold imglist_rand, bind, gets.
    destruct (rand w) as [ r w1 | f ] eqn:R.
    + apply rand_il in R. destruct R as (E & _). rewrite E, H1. reflexivity.
    + unfold rand in R. destruct (entropy w); discriminate.
  - intros H2. unfold imglist_rand, bind, gets.
    destruct (rand w) as [ r w1 | f ] eqn:R;
      [ | unfold rand in R; destruct (entropy w); discriminate ].
    apply rand_il in R. destruct R as (E & _ & _ & _ & Hr).
    rewrite E. set (n := Z.of_nat (length (images (il w)))) in *.
    assert (D : to_size_t (size (il w) - 1) = n - 1).
    { unfold to_size_t. rewrite Hs. apply Z.mod_small. lia. }
    rewrite D. destruct (n - 1 =? 0) eqn:Z0; [ apply Z.eqb_eq in Z0; lia | ].
    pose proof (Z.mod_pos_bound r (n - 1) ltac:(lia)) as Hm.
    assert (K : to_size_t (1 + r mod (n - 1)) = 1 + r mod (n - 1)).
    { unfold to_size_t. apply Z.mod_small. lia. }
    rewrite K.
    assert (Hn1 : NoDup (map addr (images (il w1)))) by now rewrite E.
    assert (Hi1 : In img (map addr (images (il w1)))) by now rewrite E.
    destruct (rand_walk_offset (Z.to_nat (1 + r mod (n - 1))) w1 img Hn1 Hi1)
      as (q & Hw & Iq & Oq).
    exists q, w1. split; [ exact Hw | ]. split; [ | split; [ exact Iq | exact E ] ].
    intros ->. rewrite E in Oq. fold n in Oq.
    pose proof (offset_lt _ _ Hi) as Hlt. rewrite Z2Nat.id in Oq by lia.
    set (i := Z.of_nat (offset (images (il w)) img)) in *.
    set (k := 1 + r mod (n - 1)) in *.
    assert (0 <= i < n) by lia. assert (1 <= k <= n - 1) by lia.
    destruct (Z_lt_le_dec (i + k) n) as [ Hlt' | Hge ].
    + rewrite Z.mod_small in Oq; lia.
    + replace (i + k) with ((i + k - n) + 1 * n) in Oq by lia.
      rewrite Z_mod_plus_full, Z.mod_small in Oq; lia.
Qed.

Lemma imglist_rand_defined_witness :
  imglist_rand 1 Demo.w_alpha = Fault DivisionByZero
  /\ exists p w', imglist_rand 2 Demo.w_three = Done (Some p) w' /\ p <> 2.
Proof.
  split.
  - apply (imglist_rand_defined Demo.w_alpha 1); try reflexivity.
    + repeat constructor. simpl. tauto.
    + simpl. tauto.
  - destruct (imglist_rand_defined Demo.w_three 2) as [ _ H ]; try reflexivity.
    + repeat constructor; simpl; intuition discriminate.
    + simpl. tauto.
    + destruct H as (p & w' & H1 & H2 & _); [ vm_compute; discriminate | ].
      exists p, w'. split; assumption.
Defined.

(** ** Persistent store: lookup *)

Lemma pstore_path_pure (X : externals) (src : string) (w w' : world)
      (p : option string) :
  pstore_path X src w = Done p w' -> w' = w.
Proof.
  unfold pstore_path, bind, gets, ret, raise.
  destruct (_ || _); [ now intros [= _ ->] | ].
  destruct (match fs_envpath X "XDG_CACHE_HOME" "/swayimg" with
            | Some p0 => Some p0
            | None => fs_envpath X "HOME" "/.cache/swayimg"
            end); [ | now intros [= _ ->] ].
  destruct (fs_append_path X _ _ _); [ | now intros [= _ ->] ].
  destruct (_ || _); [ now intros [= _ ->] | ].
  destruct (16 <=? _); [ discriminate | now intros [= _ ->] ].
Qed.

(** [a] is later than [b], to the nanosecond. *)
Definition newer (a b : timespec) : bool :=
  (tv_sec a >? tv_sec b) || ((tv_sec a =? tv_sec b) && (tv_nsec a >? tv_nsec b)).

(** Every way [pstore_load] ends. *)
Lemma pstore_load_cases (X : externals) (img : image) (w : world)
      (p : option string) :
  pstore_path X (source img) w = Done p w ->
  pstore_load X img w
  = Done match p with
         | None => (false, img)
         | Some path =>
             match fs_stat (fsroot w) (source img), fs_stat (fsroot w) path with
             | Some si, Some sth =>
                 if tv_sec (st_mtim si) >? tv_sec (st_mtim sth) then (false, img)
                 else match thumb_read X path with
                      | Some pm => (true, set_thumbnail (Some pm) img)
                      | None => (false, img)
                      end
             | _, _ => (false, img)
             end
         end w.
Proof.
  intros Hp. unfold pstore_load. rewrite (bind_eq _ _ _ _ _ Hp).
  destruct p as [ path | ]; [ | reflexivity ].
  unfold bind, stat, gets, ret, image_thumb_load.
  destruct (fs_stat (fsroot w) (source img)) as [ si | ]; [ | reflexivity ].
  destruct (fs_stat (fsroot w) path) as [ sth | ]; [ | reflexivity ].
  destruct (_ >? _); [ reflexivity | ].
  now destruct (thumb_read X path).
Qed.

(** C5, as the code has it.  For a source and a cached thumbnail file of
    which both [stat] succeed, [pstore_load] reports a miss whenever the
    modification time of the source, in whole seconds, is greater than the
    one of the cached file, even if that file holds a well-formed
    thumbnail; it also reports a miss when no cache path can be derived
    and when either [stat] fails.  A miss leaves the entry and the world
    untouched, and a hit is reported only for a cached file whose second
    of modification is not before the one of the source.  Once the second
    of the source is not after the one of the cached file, the nanoseconds
    are not looked at and the cached file alone decides: a source modified
    later than the cached file, within the same second, is not detected,
    and a well-formed cached file is a hit. *)
Theorem pstore_load_stale_miss (X : externals) (img : image) (w : world)
        (p : option string) :
  pstore_path X (source img) w = Done p w ->
  (p = None -> pstore_load X img w = Done (false, img) w)
  /\ (forall path, p = Some path ->
        (fs_stat (fsroot w) (source img) = None
         \/ fs_stat (fsroot w) path = None) ->
        pstore_load X img w = Done (false, img) w)
  /\ (forall path si sth, p = Some path ->
        fs_stat (fsroot w) (source img) = Some si ->
        fs_stat (fsroot w) path = Some sth ->
        tv_sec (st_mtim si) > tv_sec (st_mtim sth) ->
        pstore_load X img w = Done (false, img) w)
  /\ (forall img' w', pstore_load X img w = Done (true, img') w' ->
        exists path si sth pm,
          p = Some path
          /\ fs_stat (fsroot w) (source img) = Some si
          /\ fs_stat (fsroot w) path = Some sth
          /\ tv_sec (st_mtim si) <= tv_sec (st_mtim sth)
          /\ thumb_read X path = Some pm
          /\ img' = set_thumbnail (Some pm) img /\ w' = w)
  /\ (forall path si sth, p = Some path ->
        fs_stat (fsroot w) (source img) = Some si ->
        fs_stat (fsroot w) path = Some sth ->
        tv_sec (st_mtim si) <= tv_sec (st_mtim sth) ->
        pstore_load X img w
        = Done match thumb_read X path with
               | Some pm => (true, set_thumbnail (Some pm) img)
               | None => (false, img)
               end w)
  /\ (forall path si sth pm, p = Some path ->
        fs_stat (fsroot w) (source img) = Some si ->
        fs_stat (fsroot w) path = Some sth ->
        tv_sec (st_mtim si) = tv_sec (st_mtim sth) ->
        newer (st_mtim si) (st_mtim sth) = true ->
        thumb_read X path = Some pm ->
        pstore_load X img w = Done (true, set_thumbnail (Some pm) img) w).
Proof.
  intros Hp. rewrite (pstore_load_cases _ _ _ _ Hp).
  split; [ | split; [ | split; [ | split; [ | split ] ] ] ].
  - now intros ->.
  - intros path -> [ H | H ]; rewrite H; [ reflexivity | ].
    now destruct (fs_stat (fsroot w) (source img)).
  - intros path si sth -> -> -> H.
    destruct (_ >? _) eqn:E; [ reflexivity | ].
    rewrite Z.gtb_ltb in E. apply Z.ltb_ge in E. lia.
  - intros img' w'. destruct p as [ path | ]; [ | discriminate ].
    destruct (fs_stat (fsroot w) (source img)) as [ si | ] eqn:S1;
      [ | discriminate ].
    destruct (fs_stat (fsroot w) path) as [ sth | ] eqn:S2; [ | discriminate ].
    destruct (_ >? _) eqn:E; [ discriminate | ].
    destruct (thumb_read X path) as [ pm | ] eqn:T; [ | discriminate ].
    intros [= <- <-]. exists path, si, sth, pm.
    rewrite Z.gtb_ltb in E. apply Z.ltb_ge in E.
    split; [ reflexivity | ]. split; [ reflexivity | ].
    split; [ exact S2 | ]. split; [ exact E | ].
    split; [ exact T | split; reflexivity ].
  - intros path si sth -> -> -> H.
    destruct (_ >? _) eqn:E; [ | reflexivity ].
    rewrite Z.gtb_ltb in E. apply Z.ltb_lt in E. lia.
  - intros path si sth pm -> -> -> H _ ->.
    destruct (_ >? _) eqn:E; [ | reflexivity ].
    rewrite Z.gtb_ltb in E. apply Z.ltb_lt in E. lia.
Qed.

Lemma pstore_load_stale_miss_witness :
  pstore_load Demo.env Demo.queued_file Demo.w_later
  = Done (false, Demo.queued_file) Demo.w_later
  /\ pstore_load Demo.env Demo.queued_file Demo.w_same_second
     = Done (true, set_thumbnail (Some Demo.thumb_128) Demo.queued_file)
            Demo.w_same_second.
Proof.
  split.
  - destruct (pstore_load_stale_miss Demo.env Demo.queued_file Demo.w_later
                (Some "/home/u/.cache/swayimg/pics/a.png.008000"))
      as (_ & _ & H & _); [ reflexivity | ].
    eapply H; [ reflexivity | reflexivity | reflexivity | simpl; lia ].
  - destruct (pstore_load_stale_miss Demo.env Demo.queued_file
                Demo.w_same_second
                (Some "/home/u/.cache/swayimg/pics/a.png.008000"))
      as (_ & _ & _ & _ & _ & H); [ reflexivity | ].
    eapply H; reflexivity.
Defined.

(** C5, as stated, fails: the source was modified later than the cached
    thumbnail file, within the same second, the cached file exists and is
    well-formed, and the lookup reports a hit. *)
Lemma pstore_load_same_second_hit :
  exists si sth,
    pstore_path Demo.env "/pics/a.png" Demo.w_same_second
    = Done (Some "/home/u/.cache/swayimg/pics/a.png.008000") Demo.w_same_second
    /\ fs_stat (fsroot Demo.w_same_second) "/pics/a.png" = Some si
    /\ fs_stat (fsroot Demo.w_same_second)
               "/home/u/.cache/swayimg/pics/a.png.008000" = Some sth
    /\ newer (st_mtim si) (st_mtim sth) = true
    /\ thumb_read Demo.env "/home/u/.cache/swayimg/pics/a.png.008000"
       = Some Demo.thumb_128
    /\ pstore_load Demo.env Demo.queued_file Demo.w_same_second
       = Done (true, set_thumbnail (Some Demo.thumb_128) Demo.queued_file)
              Demo.w_same_second.
Proof.
  exists (mk_stat S_IFREG 10 (mk_timespec 100 900000000)),
         (mk_stat S_IFREG 99 (mk_timespec 100 500000000)).
  repeat split.
Qed.

(** ** Persistent store: saving from the worker *)

(** A miss of [pstore_load] leaves the entry and the world as they were,
    and the path derivation has not faulted. *)
Lemma pstore_load_miss_inv (X : externals) (it it1 : image) (w w1 : world) :
  pstore_load X it w = Done (false, it1) w1 ->
  it1 = it /\ w1 = w /\ exists p, pstore_path X (source it) w = Done p w.
Proof.
  intros H.
  destruct (pstore_path X (source it) w) as [ p w0 | f ] eqn:P.
  - pose proof (pstore_path_pure _ _ _ _ _ P) as ->.
    rewrite (pstore_load_cases _ _ _ _ P) in H.
    assert (E : (false, it1) = (false, it) /\ w1 = w).
    { destruct p as [ path | ]; [ | now done_inv H ].
      destruct (fs_stat (fsroot w) (source it)); [ | now done_inv H ].
      destruct (fs_stat (fsroot w) path); [ | now done_inv H ].
      destruct (_ >? _); [ now done_inv H | ].
      destruct (thumb_read X path); [ discriminate | now done_inv H ]. }
    destruct E as [ [= ->] -> ]. repeat split. now exists p.
  - unfold pstore_load, bind in H. rewrite P in H. discriminate.
Qed.

(** Every way [pstore_save] ends on an entry that has a thumbnail. *)
Lemma pstore_save_cases (X : externals) (img : image) (w : world)
      (p : option string) (t : pixmap) :
  pstore_path X (source img) w = Done p w ->
  thumbnail img = Some t ->
  pstore_save X img w
  = Done tt match p with
            | Some path =>
                if forallb (mkdir_ok X) (dir_prefixes "" path)
                then set_trace (trace w ++ [Ev_thumb_save path t])%list w
                else w
            | None => w
            end.
Proof.
  intros Hp Ht. unfold pstore_save, image_has_thumb. rewrite Ht. cbn [negb].
  rewrite (bind_eq _ _ _ _ _ Hp). destruct p as [ path | ]; [ | reflexivity ].
  destruct (forallb _ _); [ | reflexivity ].
  unfold image_thumb_save. now rewrite Ht.
Qed.

(** What a loading path leaves of the world: all but the answers of the
    allocator that are still to come. *)
Definition heap_only (w w' : world) : Prop := exists h, w' = set_heap h w.

(** What it leaves of the entry, with decoders that write the frames:
    all but the frames and the size of the data. *)
Definition same_entry (e e' : image) : Prop :=
  addr e' = addr e /\ source e' = source e /\ index e' = index e
  /\ file_time e' = file_time e /\ thumbnail e' = thumbnail e.

Lemma heap_only_refl (w : world) : heap_only w w.
Proof. exists (heap w). now destruct w. Qed.

Lemma heap_only_trans (w1 w2 w3 : world) :
  heap_only w1 w2 -> heap_only w2 w3 -> heap_only w1 w3.
Proof. intros (h1 & ->) (h2 & ->). now exists h2. Qed.

Lemma heap_only_parts (w w' : world) :
  heap_only w w' ->
  il w' = il w /\ gl w' = gl w /\ fsroot w' = fsroot w /\ trace w' = trace w.
Proof. intros (h & ->). now repeat split. Qed.

Lemma malloc_heap_only (w w' : world) (b : bool) :
  Loader.malloc w = Done b w' -> heap_only w w'.
Proof.
  unfold Loader.malloc. destruct (heap w) as [ | [ a | ] rest ];
    intros [= _ <-]; first [ apply heap_only_refl | now exists rest ].
Qed.

Lemma same_entry_refl (e : image) : same_entry e e.
Proof. now repeat split. Qed.

Lemma decode_same_entry (ds : list Loader.frame_decoder) :
  forall (status : image_status) (e : image) (data : list Z) (size : Z),
    same_entry e (snd (Loader.decode (map Loader.decoder_of ds) status e data size)).
Proof.
  induction ds as [ | d rest IH ]; intros status e data size;
    cbn [map Loader.decode]; [ apply same_entry_refl | ].
  destruct status; try apply same_entry_refl.
  unfold Loader.decoder_of at 1. destruct (d data size) as [ s frs ].
  destruct (IH s (set_frames frs e) data size) as (A & B & C & D & E).
  repeat split; assumption.
Qed.

Lemma load_from_memory_frame (ds : list Loader.frame_decoder)
      (img : Loader.loading) (data : list Z) (size : Z) (w w' : world)
      (r : image_status * Loader.loading) :
  Loader.load_from_memory (map Loader.decoder_of ds) img data size w = Done r w' ->
  heap_only w w' /\ same_entry (Loader.entry img) (Loader.entry (snd r)).
Proof.
  unfold Loader.load_from_memory.
  pose proof (decode_same_entry ds imgload_unsupported (Loader.entry img)
                                data size) as Hd.
  destruct (Loader.decode _ _ _ _ _) as [ s e ]. cbn [snd] in Hd.
  intros E. bind_inv E as x w1 E1. destruct x as [ s' raw ]. done_inv E.
  split.
  - destruct s; try (done_inv E1; apply heap_only_refl).
    bind_inv E1 as dest w2 E2. apply malloc_heap_only in E2.
    destruct dest; now done_inv E1.
  - cbn. destruct Hd as (A & B & C & D & E). now repeat split.
Qed.

Lemma stream_loop_frame (ds : list Loader.frame_decoder) (fuel : nat) :
  forall (img : Loader.loading) (input : list Loader.read_event)
         (data : list Z) (size capacity : Z) (w w' : world)
         (r : image_status * Loader.loading),
    Loader.stream_loop (map Loader.decoder_of ds) fuel img input data size
                       capacity w = Done r w' ->
    heap_only w w' /\ same_entry (Loader.entry img) (Loader.entry (snd r)).
Proof.
  induction fuel as [ | fuel IH ]; intros img input data size capacity w w' r E;
    cbn [Loader.stream_loop] in E.
  - done_inv E. split; [ apply heap_only_refl | apply same_entry_refl ].
  - bind_inv E as grown w1 E1.
    assert (H1 : heap_only w w1).
    { destruct (size =? capacity); [ | done_inv E1; apply heap_only_refl ].
      bind_inv E1 as nb w2 E2. apply malloc_heap_only in E2.
      destruct nb; now done_inv E1. }
    destruct grown as [ cap | ];
      [ | done_inv E; split; [ exact H1 | apply same_entry_refl ] ].
    destruct (cap <? size); [ discriminate | ].
    destruct (Loader.read input (cap - size)) as [ [ [ rc again ] bytes ] input' ].
    destruct (rc =? 0).
    { apply load_from_memory_frame in E. destruct E as (H2 & He).
      split; [ exact (heap_only_trans _ _ _ H1 H2) | exact He ]. }
    destruct ((rc =? -1) && negb again);
      [ done_inv E; split; [ exact H1 | apply same_entry_refl ] | ].
    apply IH in E. destruct E as (H2 & He).
    split; [ exact (heap_only_trans _ _ _ H1 H2) | exact He ].
Qed.

(** [image_load] of formats/loader.c changes, of the world, the state of
    the allocator only; of the entry it keeps the address, the source, the
    index and the time, and it leaves no thumbnail. *)
Lemma loader_image_load_frame (ds : list Loader.frame_decoder)
      (input : list Loader.read_event)
      (command : string -> Z * option (list Z))
      (bytes_of : string -> option (list Z))
      (img : Loader.loading) (w w' : world)
      (r : image_status * Loader.loading) :
  Loader.image_load (map Loader.decoder_of ds) input command bytes_of img w
  = Done r w' ->
  heap_only w w'
  /\ addr (Loader.entry (snd r)) = addr (Loader.entry img)
  /\ source (Loader.entry (snd r)) = source (Loader.entry img)
  /\ index (Loader.entry (snd r)) = index (Loader.entry img)
  /\ thumbnail (Loader.entry (snd r)) = None.
Proof.
  unfold Loader.image_load. intros E. bind_inv E as x w1 E1.
  set (img0 := Loader.set_entry
                 (set_thumbnail None (set_frames [] (Loader.entry img))) img)
    in *.
  assert (H1 : heap_only w w1
               /\ same_entry (Loader.entry img0) (Loader.entry (snd x))).
  { cbn [Loader.entry Loader.set_entry source set_thumbnail set_frames] in E1.
    destruct (streq _ _).
    - unfold Loader.load_from_stream in E1. now apply stream_loop_frame in E1.
    - destruct (has_prefix _ _).
      + unfold Loader.load_from_exec in E1.
        destruct (command _) as [ rc out ].
        destruct rc;
          try (done_inv E1; split; [ apply heap_only_refl
                                   | apply same_entry_refl ]).
        destruct out as [ data | ];
          [ now apply load_from_memory_frame in E1
          | done_inv E1; split; [ apply heap_only_refl
                                | apply same_entry_refl ] ].
      + unfold Loader.load_from_file in E1. bind_inv E1 as st w2 E2.
        unfold stat, gets in E2. injection E2 as <- <-.
        destruct (fs_stat _ _) as [ st | ];
          [ | done_inv E1; split; [ apply heap_only_refl
                                  | apply same_entry_refl ] ].
        destruct (negb (S_ISREG st));
          [ done_inv E1; split; [ apply heap_only_refl
                                | apply same_entry_refl ] | ].
        destruct (bytes_of _);
          [ now apply load_from_memory_frame in E1
          | done_inv E1; split; [ apply heap_only_refl
                                | apply same_entry_refl ] ]. }
  destruct H1 as (Hw & Ha & Hs & Hi & _ & Ht).
  destruct x as [ status img1 ]. cbn [snd] in *.
  assert (Hr : w' = w1 /\ Loader.entry (snd r) = Loader.entry img1).
  { destruct status; try (now done_inv E).
    destruct (_ || _); [ now done_inv E | ].
    destruct (Loader.name img1), (Loader.parent_dir img1);
      try (now done_inv E);
      destruct (_ =? _)%nat; try discriminate; now done_inv E. }
  destruct Hr as (-> & ->).
  split; [ exact Hw | ]. now repeat split.
Qed.

(** The same for a queued entry of the worker. *)
Lemma image_load_source (X : externals) (it it2 : image) (s : image_status)
      (w w' : world) :
  image_load X it w = Done (s, it2) w' ->
  heap_only w w'
  /\ addr it2 = addr it /\ source it2 = source it /\ thumbnail it2 = None.
Proof.
  unfold image_load. intros E. bind_inv E as r w1 E1. done_inv E.
  apply loader_image_load_frame in E1.
  destruct E1 as (Hw & Ha & Hs & _ & Ht). now repeat split.
Qed.

Lemma image_thumb_create_ok (X : externals) (it2 it3 : image) (sz : Z)
      (fill : bool) (aa : Z) :
  image_thumb_create X it2 sz fill aa = (true, it3) ->
  source it3 = source it2 /\ frames it3 = frames it2
  /\ exists t, thumbnail it3 = Some t.
Proof.
  unfold image_thumb_create. destruct (frames it2) as [ | f rest ] eqn:F;
    [ discriminate | ].
  destruct (thumb_scale X f sz fill aa) as [ t | ]; [ | discriminate ].
  intros [= <-]. cbn. rewrite F. repeat split. now exists t.
Qed.

Lemma app_one_neq {A} (l : list A) (x : A) : (l ++ [x])%list <> l.
Proof.
  intros H. apply (f_equal (@List.length A)) in H.
  rewrite length_app in H. simpl in H. lia.
Qed.

(** The condition under which the worker hands the thumbnail to
    [pstore_save]. *)
Definition wants_save (g : gallery) (f0 : pixmap) : bool :=
  thumb_pstore g && ((pm_width f0 >? thumb_size g) && (pm_height f0 >? thumb_size g)).

(** The condition under which [pstore_save] reaches the store. *)
Definition can_save (X : externals) (p : option string) : bool :=
  match p with
  | Some path => forallb (mkdir_ok X) (dir_prefixes "" path)
  | None => false
  end.

(** The path of the store is derived from the source and the settings of
    the gallery; the state of the allocator plays no part. *)
Lemma pstore_path_heap (X : externals) (src : string) (w w1 : world)
      (p : option string) :
  heap_only w w1 ->
  pstore_path X src w = Done p w -> pstore_path X src w1 = Done p w1.
Proof.
  intros (h & ->). unfold pstore_path, bind, gets, ret, raise.
  destruct (_ || _); [ now intros [= <-] | ].
  destruct (match fs_envpath X "XDG_CACHE_HOME" "/swayimg" with
            | Some p0 => Some p0
            | None => fs_envpath X "HOME" "/.cache/swayimg"
            end); [ | now intros [= <-] ].
  destruct (fs_append_path X _ _ _); [ | now intros [= <-] ].
  cbn [gl set_heap].
  destruct (_ || _); [ now intros [= <-] | ].
  destruct (16 <=? _); [ discriminate | now intros [= <-] ].
Qed.

(** No path of the store is derived for the standard input, for the
    output of a command, and without a cache home. *)
Lemma pstore_path_none (X : externals) (src : string) (w : world) :
  streq src LDRSRC_STDIN || has_prefix LDRSRC_EXEC src = true
  \/ (fs_envpath X "XDG_CACHE_HOME" "/swayimg" = None
      /\ fs_envpath X "HOME" "/.cache/swayimg" = None) ->
  pstore_path X src w = Done None w.
Proof.
  unfold pstore_path. intros [ H | (H1 & H2) ].
  - now rewrite H.
  - rewrite H1, H2. now destruct (_ || _).
Qed.

(** What the loading step does after a successful decode. *)
Lemma loader_load_saves (X : externals) (it it2 it3 : image)
        (f0 : pixmap) (rest : list pixmap) (w w1 : world) :
  (thumb_pstore (gl w) = false \/ pstore_load X it w = Done (false, it) w) ->
  image_load X it w = Done (imgload_success, it2) w1 ->
  image_thumb_create X it2 (thumb_size (gl w)) (thumb_fill (gl w))
                     (thumb_aa (gl w)) = (true, it3) ->
  frames it2 = f0 :: rest ->
  loader_load X it w
  = ((if wants_save (gl w) f0 then pstore_save X it3 else ret tt) ;;;
     ret (set_frames [] it3)) w1
  /\ exists w' t,
       loader_load X it w = Done (set_frames [] it3) w'
       /\ thumbnail it3 = Some t
       /\ il w' = il w
       /\ (trace w' = trace w
           \/ exists path, pstore_path X (source it) w = Done (Some path) w
                           /\ trace w' = (trace w ++ [Ev_thumb_save path t])%list)
       /\ ((exists path pm, trace w' = (trace w ++ [Ev_thumb_save path pm])%list)
           <-> wants_save (gl w) f0 = true
               /\ exists p, pstore_path X (source it) w = Done p w
                            /\ can_save X p = true).
Proof.
  intros Hmiss Hload Hthumb Hframes.
  destruct (image_load_source _ _ _ _ _ _ Hload) as (Hw & _ & S2 & _).
  destruct (heap_only_parts _ _ Hw) as (Hil & Hgl & _ & Htr).
  destruct (image_thumb_create_ok _ _ _ _ _ _ Hthumb) as (S3 & F3 & t & T3).
  assert (Hrun : loader_load X it w
                 = ((if wants_save (gl w) f0 then pstore_save X it3 else ret tt) ;;;
                    ret (set_frames [] it3)) w1).
  { unfold loader_load, wants_save. unfold bind at 1. unfold gets at 1.
    destruct (thumb_pstore (gl w)) eqn:P.
    - destruct Hmiss as [ Hm | Hm ]; [ discriminate | ].
      unfold bind at 1. rewrite Hm. unfold bind at 1. rewrite Hload, Hthumb.
      rewrite F3, Hframes. cbn [andb]. reflexivity.
    - unfold bind at 1, ret at 1. unfold bind at 1. rewrite Hload, Hthumb.
      reflexivity. }
  split; [ exact Hrun | ]. rewrite Hrun.
  destruct (wants_save (gl w) f0) eqn:Wants.
  - assert (exists p, pstore_path X (source it) w = Done p w) as (p & Hp).
    { unfold wants_save in Wants. apply andb_prop in Wants. destruct Wants as (P & _).
      destruct Hmiss as [ Hm | Hm ]; [ congruence | ].
      now apply pstore_load_miss_inv in Hm. }
    assert (Hp3 : pstore_path X (source it3) w1 = Done p w1).
    { rewrite S3, S2. exact (pstore_path_heap _ _ _ _ _ Hw Hp). }
    unfold bind. rewrite (pstore_save_cases _ _ _ _ _ Hp3 T3).
    eexists. exists t. split; [ reflexivity | ]. split; [ exact T3 | ].
    destruct p as [ path | ]; cbn [can_save].
    + destruct (forallb (mkdir_ok X) (dir_prefixes "" path)) eqn:Mk.
      * split; [ exact Hil | ]. split.
        -- right. exists path. split; [ exact Hp | ].
           cbn [trace set_trace]. now rewrite Htr.
        -- split.
           ++ intros _. split; [ reflexivity | ]. exists (Some path).
              split; [ exact Hp | exact Mk ].
           ++ intros _. exists path, t. cbn [trace set_trace]. now rewrite Htr.
      * split; [ exact Hil | ]. split; [ now left | ]. split.
        -- intros (pa & pm & E). rewrite Htr in E. symmetry in E.
           now apply app_one_neq in E.
        -- intros (_ & q & Hq & Cq). rewrite Hp in Hq. injection Hq as <-.
           cbn in Cq. congruence.
    + split; [ exact Hil | ]. split; [ now left | ]. split.
      * intros (pa & pm & E). rewrite Htr in E. symmetry in E.
        now apply app_one_neq in E.
      * intros (_ & q & Hq & Cq). rewrite Hp in Hq. injection Hq as <-.
        discriminate.
  - exists w1, t. split; [ reflexivity | ]. split; [ exact T3 | ].
    split; [ exact Hil | ]. split; [ now left | ]. split.
    + intros (pa & pm & E). rewrite Htr in E. symmetry in E.
      now apply app_one_neq in E.
    + intros (H & _). discriminate.
Qed.

(** C6, as the code has it.  On a miss of the persistent store after
    which the source was decoded and its thumbnail generated, the worker
    calls [pstore_save] exactly when persistent caching is enabled and the
    width and the height of the first decoded frame both exceed the
    thumbnail size; the thumbnail is written exactly when, in addition, a
    cache path is derived for the source and every directory on it exists
    or can be created.  No path is derived, and so nothing is written, for
    the standard input, for the output of a command, and without a cache
    home.  Nothing else is written, and the image list is not touched. *)
Theorem worker_save_condition (X : externals) (it it2 it3 : image)
        (f0 : pixmap) (rest : list pixmap) (w w1 : world) :
  (thumb_pstore (gl w) = false \/ pstore_load X it w = Done (false, it) w) ->
  image_load X it w = Done (imgload_success, it2) w1 ->
  image_thumb_create X it2 (thumb_size (gl w)) (thumb_fill (gl w))
                     (thumb_aa (gl w)) = (true, it3) ->
  frames it2 = f0 :: rest ->
  loader_load X it w
  = ((if wants_save (gl w) f0 then pstore_save X it3 else ret tt) ;;;
     ret (set_frames [] it3)) w1
  /\ exists w' t,
       loader_load X it w = Done (set_frames [] it3) w'
       /\ thumbnail it3 = Some t
       /\ il w' = il w
       /\ (trace w' = trace w
           \/ exists path, pstore_path X (source it) w = Done (Some path) w
                           /\ trace w' = (trace w ++ [Ev_thumb_save path t])%list)
       /\ ((exists path pm, trace w' = (trace w ++ [Ev_thumb_save path pm])%list)
           <-> wants_save (gl w) f0 = true
               /\ exists p, pstore_path X (source it) w = Done p w
                            /\ can_save X p = true)
       /\ (streq (source it) LDRSRC_STDIN
           || has_prefix LDRSRC_EXEC (source it) = true ->
           trace w' = trace w)
       /\ (fs_envpath X "XDG_CACHE_HOME" "/swayimg" = None ->
           fs_envpath X "HOME" "/.cache/swayimg" = None ->
           trace w' = trace w).
Proof.
  intros Hmiss Hload Hthumb Hframes.
  destruct (loader_load_saves X it it2 it3 f0 rest w w1 Hmiss Hload Hthumb
                              Hframes) as (Hrun & w' & t & E & T & I & D & S).
  split; [ exact Hrun | ]. exists w', t.
  split; [ exact E | ]. split; [ exact T | ]. split; [ exact I | ].
  split; [ exact D | ]. split; [ exact S | ].
  split.
  - intros Hsrc. destruct D as [ D | (path & Hp & _) ]; [ exact D | ].
    rewrite (pstore_path_none X (source it) w) in Hp by now left.
    discriminate.
  - intros H1 H2. destruct D as [ D | (path & Hp & _) ]; [ exact D | ].
    rewrite (pstore_path_none X (source it) w) in Hp by (right; now split).
    discriminate.
Qed.

(** The entry as a load leaves it that read [n] bytes. *)
Definition loaded (n : Z) (e : image) : image :=
  set_file_info n (file_time e) e.

Lemma worker_save_condition_witness :
  exists w',
    loader_load Demo.env Demo.queued_file Demo.w_later
    = Done (set_thumbnail (Some Demo.thumb_128) (loaded 10 Demo.queued_file)) w'
    /\ trace w' = [Ev_thumb_save "/home/u/.cache/swayimg/pics/a.png.008000"
                                 Demo.thumb_128].
Proof.
  destruct (worker_save_condition Demo.env Demo.queued_file
              (set_frames [Demo.frame_800x600] (loaded 10 Demo.queued_file))
              (set_thumbnail (Some Demo.thumb_128)
                 (set_frames [Demo.frame_800x600] (loaded 10 Demo.queued_file)))
              Demo.frame_800x600 [] Demo.w_later
              (set_heap [] Demo.w_later)) as (H & _).
  - right. reflexivity.
  - reflexivity.
  - reflexivity.
  - reflexivity.
  - rewrite H. vm_compute. eexists. split; reflexivity.
Defined.

(** C6, as stated, fails: persistent caching is enabled, the lookup for
    the output of a command misses, the source is decoded to 800x600, the
    thumbnail of size 128 is generated, and nothing is written. *)
Lemma exec_source_never_saved :
  thumb_pstore (gl Demo.w_later) = true
  /\ pstore_load Demo.env Demo.queued_exec Demo.w_later
     = Done (false, Demo.queued_exec) Demo.w_later
  /\ image_load Demo.env Demo.queued_exec Demo.w_later
     = Done (imgload_success,
             set_frames [Demo.frame_800x600] (loaded 4 Demo.queued_exec))
            (set_heap [] Demo.w_later)
  /\ image_thumb_create Demo.env
       (set_frames [Demo.frame_800x600] (loaded 4 Demo.queued_exec)) 128 false 0
     = (true, set_thumbnail (Some Demo.thumb_128)
                (set_frames [Demo.frame_800x600] (loaded 4 Demo.queued_exec)))
  /\ (pm_width Demo.frame_800x600 >? thumb_size (gl Demo.w_later)) = true
  /\ (pm_height Demo.frame_800x600 >? thumb_size (gl Demo.w_later)) = true
  /\ loader_load Demo.env Demo.queued_exec Demo.w_later
     = Done (set_thumbnail (Some Demo.thumb_128) (loaded 4 Demo.queued_exec))
            (set_heap [] Demo.w_later)
  /\ trace (set_heap [] Demo.w_later) = [].
Proof. repeat split. Qed.

(** ** The worker's commit *)

Lemma reindex_from_addr (l : list image) (sz : Z) :
  map addr (snd (reindex_from sz l)) = map addr l.
Proof.
  revert sz. induction l as [ | x t IH ]; intros sz; [ reflexivity | ].
  simpl. specialize (IH (to_size_t (sz + 1))).
  destruct (reindex_from (to_size_t (sz + 1)) t). simpl in *. now rewrite IH.
Qed.

Lemma remove_incl (l : list image) (p : ptr) :
  incl (map addr (IList.remove l p)) (map addr l).
Proof.
  induction l as [ | x t IH ]; simpl; [ apply incl_refl | ].
  destruct (addr x =? p).
  - apply incl_tl, incl_refl.
  - simpl. apply incl_cons; [ now left | apply incl_tl, IH ].
Qed.

Lemma remove_length (l : list image) (p : ptr) :
  In p (map addr l) -> S (length (IList.remove l p)) = length l.
Proof.
  induction l as [ | x t IH ]; simpl; [ tauto | ].
  destruct (addr x =? p) eqn:E; [ reflexivity | ].
  intros [ H | H ]; [ apply Z.eqb_neq in E; contradiction | ].
  simpl. now rewrite IH.
Qed.

Lemma remove_length_le (l : list image) (p : ptr) :
  (length (IList.remove l p) <= length l)%nat.
Proof.
  induction l as [ | x t IH ]; simpl; [ lia | ].
  destruct (addr x =? p); simpl; lia.
Qed.

Lemma remove_not_in (l : list image) (p : ptr) :
  NoDup (map addr l) -> ~ In p (map addr (IList.remove l p)).
Proof.
  induction l as [ | x t IH ]; simpl; intros Hn; [ tauto | ].
  inversion Hn as [ | a m Hnot Hnd ]; subst.
  destruct (addr x =? p) eqn:E.
  - apply Z.eqb_eq in E. now subst p.
  - apply Z.eqb_neq in E. simpl. intros [ H | H ]; [ contradiction | ].
    now apply IH.
Qed.

Lemma update_addr (l : list image) (p : ptr) (f : image -> image) :
  (forall x, addr (f x) = addr x) ->
  map addr (IList.update l p f) = map addr l.
Proof.
  intros Hf. induction l as [ | x t IH ]; simpl; [ reflexivity | ].
  destruct (addr x =? p); simpl; [ now rewrite Hf | now rewrite IH ].
Qed.

Lemma update_node (l : list image) (p : ptr) (f : image -> image) :
  (forall x, addr (f x) = addr x) ->
  In p (map addr l) ->
  exists d, IList.node l p = Some d
            /\ IList.node (IList.update l p f) p = Some (f d).
Proof.
  intros Hf. unfold IList.node.
  induction l as [ | x t IH ]; simpl; [ tauto | ].
  destruct (addr x =? p) eqn:E.
  - intros _. exists x. simpl. now rewrite Hf, E.
  - intros [ H | H ]; [ apply Z.eqb_neq in E; contradiction | ].
    simpl. rewrite E. now apply IH.
Qed.

Lemma image_update_addr (d s : image) : addr (image_update d s) = addr d.
Proof.
  unfold image_update. now destruct (image_has_frames s), (image_has_thumb s).
Qed.

Lemma image_update_thumb (d s : image) :
  image_has_thumb s = true -> thumbnail (image_update d s) = thumbnail s.
Proof. unfold image_update. now intros ->. Qed.

(** The image list after [loader_commit], and what it returns. *)
Lemma loader_commit_run (it : image) (w : world) :
  exists w',
    loader_commit it w = Done (loader_active (gl w)) w'
    /\ gl w' = gl w
    /\ lock (il w') = false
    /\ images (il w')
       = (if loader_active (gl w) then
            match find_source (images (il w)) (source it) with
            | Some o =>
                if image_has_thumb it
                then IList.update (images (il w)) o (fun d => image_update d it)
                else snd (reindex_from 0 (IList.remove (images (il w)) o))
            | None => images (il w)
            end
          else images (il w))
    /\ size (il w')
       = (if loader_active (gl w) then
            match find_source (images (il w)) (source it) with
            | Some o =>
                if image_has_thumb it then size (il w)
                else fst (reindex_from 0 (IList.remove (images (il w)) o))
            | None => size (il w)
            end
          else size (il w)).
Proof.
  destruct w as [ c g f h e t ].
  unfold loader_commit, imglist_lock, imglist_unlock, imglist_find,
    imglist_remove, app_redraw, emit, modify_il, modify, gets, ret, bind.
  cbn [gl il set_il images set_lock size].
  destruct (loader_active g); cbn [negb gl il set_il images set_lock size].
  - destruct (find_source (images c) (source it)) as [ o | ].
    + destruct (image_has_thumb it).
      * eexists. split; [ reflexivity | ]. cbn. repeat split.
      * rewrite reindex_run. eexists. split; [ reflexivity | ].
        cbn. repeat split.
    + eexists. split; [ reflexivity | ]. cbn. repeat split.
  - eexists. split; [ reflexivity | ]. cbn. repeat split.
Qed.

(** C7. The commit step, when the image list holds an entry with the
    source of the queued item.  Unless the worker has been told to stop (in
    which case the round ends the loop and commits nothing): if the item
    carries no thumbnail, that entry is unlinked, the remaining entries
    keep their order and are renumbered; if it carries one, the entry
    stays where it is and receives the thumbnail of the item. *)
Theorem commit_failed_load_removes (it : image) (w : world) (o : ptr) :
  find_source (images (il w)) (source it) = Some o ->
  exists w',
    loader_commit it w = Done (loader_active (gl w)) w'
    /\ (loader_active (gl w) = true -> image_has_thumb it = false ->
        images (il w') = snd (reindex_from 0 (IList.remove (images (il w)) o))
        /\ size (il w') = fst (reindex_from 0 (IList.remove (images (il w)) o))
        /\ map addr (images (il w')) = map addr (IList.remove (images (il w)) o)
        /\ S (length (images (il w'))) = length (images (il w))
        /\ (NoDup (map addr (images (il w))) ->
            ~ In o (map addr (images (il w')))))
    /\ (loader_active (gl w) = true -> image_has_thumb it = true ->
        images (il w')
        = IList.update (images (il w)) o (fun d => image_update d it)
        /\ size (il w') = size (il w)
        /\ map addr (images (il w')) = map addr (images (il w))
        /\ exists d,
             IList.node (images (il w)) o = Some d
             /\ IList.node (images (il w')) o = Some (image_update d it)
             /\ thumbnail (image_update d it) = thumbnail it)
    /\ (loader_active (gl w) = false ->
        images (il w') = images (il w) /\ size (il w') = size (il w)).
Proof.
  intros Hf. destruct (loader_commit_run it w) as (w' & Hr & _ & _ & Hi & Hs).
  rewrite Hf in *. exists w'. split; [ exact Hr | ].
  pose proof (find_source_In _ _ _ Hf) as Hin.
  split; [ | split ]; intros Ha; rewrite Ha in *; [ intros Ht .. | ];
    try rewrite Ht in *.
  - rewrite Hi, Hs. split; [ reflexivity | ]. split; [ reflexivity | ].
    split; [ apply reindex_from_addr | ].
    split; [ rewrite reindex_from_length; now apply remove_length | ].
    intros Hn. rewrite reindex_from_addr. now apply remove_not_in.
  - rewrite Hi, Hs. split; [ reflexivity | ]. split; [ reflexivity | ].
    split; [ apply update_addr; intros x; apply image_update_addr | ].
    destruct (update_node (images (il w)) o (fun d => image_update d it))
      as (d & N1 & N2);
      [ intros x; apply image_update_addr | exact Hin | ].
    exists d. split; [ exact N1 | ]. split; [ exact N2 | ].
    now apply image_update_thumb.
  - split; assumption.
Qed.

Lemma commit_failed_load_removes_witness :
  (exists w',
     loader_commit Demo.queued_file Demo.w_three = Done true w'
     /\ map source (images (il w')) = ["/pics/b.png"; "/pics/d.png"]
     /\ map index (images (il w')) = [1; 2]
     /\ size (il w') = 2)
  /\ (exists w',
        loader_commit (set_thumbnail (Some Demo.thumb_128) Demo.queued_file)
                      Demo.w_three = Done true w'
        /\ map thumbnail (images (il w')) = [Some Demo.thumb_128; None; None]).
Proof.
  split.
  - destruct (commit_failed_load_removes Demo.queued_file Demo.w_three 1)
      as (w' & Hr & Hfail & _); [ reflexivity | ].
    exists w'. split; [ exact Hr | ].
    destruct (Hfail eq_refl eq_refl) as (Hi & Hs & _). rewrite Hi, Hs.
    repeat split.
  - destruct (commit_failed_load_removes
                (set_thumbnail (Some Demo.thumb_128) Demo.queued_file)
                Demo.w_three 1)
      as (w' & Hr & _ & Hok & _); [ reflexivity | ].
    exists w'. split; [ exact Hr | ].
    destruct (Hok eq_refl eq_refl) as (Hi & _). rewrite Hi. reflexivity.
Defined.

(** C8. The commit step always completes, and no entry of the image list
    after it is one that was not there before; when the list holds no entry
    with the source of the queued item, the entries, their order and the
    size counter are what they were. *)
Theorem commit_never_adds (it : image) (w : world) :
  exists b w',
    loader_commit it w = Done b w'
    /\ incl (map addr (images (il w'))) (map addr (images (il w)))
    /\ (length (images (il w')) <= length (images (il w)))%nat
    /\ (find_source (images (il w)) (source it) = None ->
        images (il w') = images (il w) /\ size (il w') = size (il w)).
Proof.
  destruct (loader_commit_run it w) as (w' & Hr & _ & _ & Hi & Hs).
  exists (loader_active (gl w)), w'. split; [ exact Hr | ].
  rewrite Hi, Hs. destruct (loader_active (gl w)).
  - destruct (find_source (images (il w)) (source it)) as [ o | ].
    + destruct (image_has_thumb it).
      * rewrite update_addr by (intros x; apply image_update_addr).
        split; [ apply incl_refl | ]. split; [ | discriminate ].
        apply Nat.eq_le_incl.
        rewrite <- (length_map addr), update_addr, length_map;
          [ reflexivity | intros x; apply image_update_addr ].
      * rewrite reindex_from_addr, reindex_from_length.
        split; [ apply remove_incl | ].
        split; [ apply remove_length_le | discriminate ].
    + split; [ apply incl_refl | ]. split; [ lia | now intros _ ].
  - split; [ apply incl_refl | ]. split; [ lia | now intros _ ].
Qed.

(** An item whose entry was removed while it was in flight. *)
Lemma commit_never_adds_witness :
  exists b w',
    loader_commit (set_thumbnail (Some Demo.thumb_128)
                     (Demo.entry 502 "/pics/gone.png" 0)) Demo.w_three
    = Done b w'
    /\ images (il w') = images (il Demo.w_three)
    /\ size (il w') = 3.
Proof.
  destruct (commit_never_adds (set_thumbnail (Some Demo.thumb_128)
                                 (Demo.entry 502 "/pics/gone.png" 0))
                              Demo.w_three)
    as (b & w' & Hr & _ & _ & H).
  exists b, w'. split; [ exact Hr | ].
  destruct (H eq_refl) as (Hi & Hs). split; [ exact Hi | ].
  rewrite Hs. reflexivity.
Defined.

(** * Part II: traversal, invariants and events

    Properties of the traversal functions, the invariants of the list, and
    what insertion, removal and the event handler do to them. *)

From Stdlib Require Import Permutation.
From Stdlib Require DecimalZ.

(** ** Positions *)

Lemma nth_error_offset (l : list image) (p : ptr) :
  In p (map addr l) -> nth_error (map addr l) (offset l p) = Some p.
Proof.
  induction l as [ | x t IH ]; simpl; [ tauto | ].
  destruct (addr x =? p) eqn:E.
  - intros _. apply Z.eqb_eq in E. now subst.
  - intros [ H | H ]; [ apply Z.eqb_neq in E; contradiction | now apply IH ].
Qed.

Lemma before_firstn (l : list image) (p : ptr) (seen : list image) :
  In p (map addr l) ->
  IList.before l p seen = (rev (firstn (offset l p) l) ++ seen)%list.
Proof.
  revert seen. induction l as [ | x t IH ]; intros seen; simpl; [ tauto | ].
  destruct (addr x =? p) eqn:E; [ reflexivity | ].
  intros [ H | H ]; [ apply Z.eqb_neq in E; contradiction | ].
  rewrite IH by exact H. simpl. now rewrite <- app_assoc.
Qed.

Lemma head_ptr_nth (l : list image) :
  IList.head_ptr l = nth_error (map addr l) 0.
Proof. now destruct l. Qed.

(** The predecessor is the node one position down. *)
Lemma before_head (l : list image) (p : ptr) (seen : list image) :
  In p (map addr l) ->
  IList.head_ptr (IList.before l p seen)
  = match offset l p with
    | O => IList.head_ptr seen
    | S j => nth_error (map addr l) j
    end.
Proof.
  revert seen. induction l as [ | x t IH ]; intros seen; simpl; [ tauto | ].
  destruct (addr x =? p) eqn:E; [ reflexivity | ].
  intros [ H | H ]; [ apply Z.eqb_neq in E; contradiction | ].
  rewrite IH by exact H. now destruct (offset t p).
Qed.

Lemma prev_nth (l : list image) (p : ptr) :
  In p (map addr l) ->
  IList.prev l p = match offset l p with
                   | O => None
                   | S j => nth_error (map addr l) j
                   end.
Proof. intros H. unfold IList.prev. now rewrite before_head. Qed.

Lemma get_last_nth (l : list image) :
  list_get_last l = nth_error (map addr l) (pred (length l)).
Proof.
  unfold list_get_last. rewrite head_ptr_nth, map_rev.
  rewrite nth_error_rev, length_map.
  destruct l as [ | x t ]; [ reflexivity | ].
  cbn [length Nat.ltb Nat.leb pred]. f_equal. lia.
Qed.

(** The position of the node at a position, when no node is linked twice. *)
Lemma offset_at (l : list image) (j : nat) (q : ptr) :
  NoDup (map addr l) -> nth_error (map addr l) j = Some q -> offset l q = j.
Proof. apply offset_nth_error. Qed.

(** ** Next and previous file *)

(** What [imglist_next_file] returns, by positions. *)
Lemma next_file_value (w : world) (img : ptr) :
  In img (map addr (images (il w))) ->
  imglist_next_file img w
  = Done (let l := images (il w) in
          if (S (offset l img) <? length l)%nat
          then nth_error (map addr l) (S (offset l img))
          else if loop (il w) && (2 <=? length l)%nat
               then nth_error (map addr l) 0
               else None) w.
Proof.
  intros H. pose proof (offset_lt _ _ H) as L.
  unfold imglist_next_file, imglist_next, imglist_first, bind, gets, ret.
  rewrite next_nth by exact H. cbv zeta.
  destruct (S (offset (images (il w)) img) <? length (images (il w)))%nat eqn:E.
  - apply Nat.ltb_lt in E.
    destruct (nth_error (map addr (images (il w))) (S (offset (images (il w)) img)))
      eqn:N; [ reflexivity | ].
    apply nth_error_None in N. rewrite length_map in N. lia.
  - apply Nat.ltb_ge in E.
    replace (nth_error (map addr (images (il w))) (S (offset (images (il w)) img)))
      with (@None ptr)
      by (symmetry; apply nth_error_None; rewrite length_map; lia).
    destruct (loop (il w)); [ | reflexivity ]. cbn [andb].
    rewrite head_ptr_nth.
    destruct (nth_error (map addr (images (il w))) 0) as [ f | ] eqn:N0.
    + destruct (f =? img) eqn:F.
      * apply Z.eqb_eq in F. subst f.
        assert (offset (images (il w)) img = 0%nat) as O.
        { destruct (images (il w)) as [ | x t ]; [ discriminate | ].
          simpl in N0. injection N0 as N0. simpl. now rewrite N0, Z.eqb_refl. }
        replace (2 <=? length (images (il w)))%nat with false
          by (symmetry; apply Nat.leb_gt; lia).
        reflexivity.
      * replace (2 <=? length (images (il w)))%nat with true; [ reflexivity | ].
        symmetry. apply Nat.leb_le.
        assert (offset (images (il w)) img <> 0%nat).
        { intros O. rewrite <- O in N0. rewrite nth_error_offset in N0 by exact H.
          injection N0 as <-. now rewrite Z.eqb_refl in F. }
        lia.
    + apply nth_error_None in N0. rewrite length_map in N0. lia.
Qed.

(** What [imglist_prev_file] returns, by positions. *)
Lemma prev_file_value (w : world) (img : ptr) :
  NoDup (map addr (images (il w))) ->
  In img (map addr (images (il w))) ->
  imglist_prev_file img w
  = Done (let l := images (il w) in
          match offset l img with
          | S j => nth_error (map addr l) j
          | O => if loop (il w) && (2 <=? length l)%nat
                 then nth_error (map addr l) (pred (length l))
                 else None
          end) w.
Proof.
  intros Hn H. pose proof (offset_lt _ _ H) as L.
  unfold imglist_prev_file, imglist_prev, imglist_last, bind, gets, ret.
  rewrite prev_nth by exact H. cbv zeta.
  destruct (offset (images (il w)) img) as [ | j ] eqn:O.
  - destruct (loop (il w)); [ | reflexivity ]. cbn [andb].
    rewrite get_last_nth.
    destruct (nth_error (map addr (images (il w))) (pred (length (images (il w)))))
      as [ f | ] eqn:N.
    + destruct (f =? img) eqn:F.
      * apply Z.eqb_eq in F. subst f.
        apply (offset_at _ _ _ Hn) in N.
        replace (2 <=? length (images (il w)))%nat with false
          by (symmetry; apply Nat.leb_gt; lia).
        reflexivity.
      * replace (2 <=? length (images (il w)))%nat with true; [ reflexivity | ].
        symmetry. apply Nat.leb_le.
        assert (pred (length (images (il w))) <> 0%nat); [ | lia ].
        intros P. rewrite P, <- O, nth_error_offset in N by exact H.
        injection N as <-. now rewrite Z.eqb_refl in F.
    + apply nth_error_None in N. rewrite length_map in N. lia.
  - destruct (nth_error (map addr (images (il w))) j) eqn:N; [ reflexivity | ].
    apply nth_error_None in N. rewrite length_map in N. lia.
Qed.

(** X1. From an entry of a list whose nodes are distinct,
    [imglist_next_file] completes without changing the world and never
    returns the entry it was given; it returns [NULL] exactly when the
    entry is the last one and either loop mode is off or the list has that
    one entry only.  Any entry it returns belongs to the list. *)
Theorem next_file_never_self (w : world) (img : ptr) :
  NoDup (map addr (images (il w))) ->
  In img (map addr (images (il w))) ->
  exists r,
    imglist_next_file img w = Done r w
    /\ r <> Some img
    /\ (forall q, r = Some q -> In q (map addr (images (il w))))
    /\ (r = None <->
        S (offset (images (il w)) img) = length (images (il w))
        /\ (loop (il w) = false \/ length (images (il w)) = 1%nat)).
Proof.
  intros Hn H. rewrite (next_file_value _ _ H). cbv zeta.
  pose proof (offset_lt _ _ H) as L.
  set (l := images (il w)) in *. set (i := offset l img) in *.
  eexists. split; [ reflexivity | ].
  destruct (S i <? length l)%nat eqn:E;
    [ apply Nat.ltb_lt in E | apply Nat.ltb_ge in E ].
  - destruct (nth_error (map addr l) (S i)) as [ q | ] eqn:N.
    + split; [ | split ].
      * intros [= ->]. apply (offset_at _ _ _ Hn) in N. fold i in N. lia.
      * intros q' [= <-]. eapply nth_error_In, N.
      * split; [ discriminate | lia ].
    + apply nth_error_None in N. rewrite length_map in N. lia.
  - destruct (loop (il w)); cbn [andb].
    + destruct (2 <=? length l)%nat eqn:T;
        [ apply Nat.leb_le in T | apply Nat.leb_gt in T ].
      * destruct (nth_error (map addr l) 0) as [ q | ] eqn:N.
        -- split; [ | split ].
           ++ intros [= ->]. apply (offset_at _ _ _ Hn) in N. fold i in N. lia.
           ++ intros q' [= <-]. eapply nth_error_In, N.
           ++ split; [ discriminate | ]. intros (_ & [ F | F ]); [ discriminate | lia ].
        -- apply nth_error_None in N. rewrite length_map in N. lia.
      * split; [ discriminate | ]. split; [ discriminate | ].
        split; [ intros _; split; [ lia | right; lia ] | reflexivity ].
    + split; [ discriminate | ]. split; [ discriminate | ].
      split; [ intros _; split; [ lia | now left ] | reflexivity ].
Qed.

Lemma next_file_never_self_witness :
  imglist_next_file 3 Demo.w_three = Done None Demo.w_three
  /\ imglist_next_file 1 Demo.w_three = Done (Some 2) Demo.w_three.
Proof.
  destruct (next_file_never_self Demo.w_three 3) as (r & Hr & _).
  - repeat constructor; simpl; intuition discriminate.
  - simpl. tauto.
  - split; reflexivity.
Defined.

(** X2. On a list whose nodes are distinct, [imglist_prev_file] undoes
    [imglist_next_file] and the other way round, across the wrap-around of
    loop mode as well; and [imglist_prev_file] never returns the entry it
    was given. *)
Theorem prev_file_undoes_next_file (w : world) (img q : ptr) :
  NoDup (map addr (images (il w))) ->
  In img (map addr (images (il w))) ->
  (imglist_next_file img w = Done (Some q) w ->
   imglist_prev_file q w = Done (Some img) w)
  /\ (imglist_prev_file img w = Done (Some q) w ->
      q <> img /\ imglist_next_file q w = Done (Some img) w).
Proof.
  intros Hn H. pose proof (offset_lt _ _ H) as L.
  pose proof (nth_error_offset _ _ H) as Hat.
  split.
  - rewrite (next_file_value _ _ H). cbv zeta. intros E.
    set (l := images (il w)) in *. set (i := offset l img) in *.
    assert (exists j, nth_error (map addr l) j = Some q
                      /\ (j = S i \/ (j = 0%nat /\ S i = length l
                                      /\ loop (il w) = true /\ (2 <= length l)%nat)))
      as (j & Nj & Hj).
    { destruct (S i <? length l)%nat eqn:B.
      - exists (S i). split; [ now injection E | now left ].
      - apply Nat.ltb_ge in B. destruct (loop (il w)); [ | discriminate ].
        cbn [andb] in E. destruct (2 <=? length l)%nat eqn:T; [ | discriminate ].
        apply Nat.leb_le in T. exists 0%nat.
        split; [ now injection E | right; repeat split; lia ]. }
    assert (Iq : In q (map addr l)) by (eapply nth_error_In, Nj).
    rewrite (prev_file_value _ _ Hn Iq). cbv zeta. fold l.
    rewrite (offset_at _ _ _ Hn Nj).
    destruct Hj as [ -> | (-> & Hl & Hlp & T) ].
    + now rewrite Hat.
    + rewrite Hlp. cbn [andb].
      replace (2 <=? length l)%nat with true by (symmetry; apply Nat.leb_le; lia).
      replace (pred (length l)) with i by lia. now rewrite Hat.
  - rewrite (prev_file_value _ _ Hn H). cbv zeta. intros E.
    set (l := images (il w)) in *. set (i := offset l img) in *.
    assert (exists j, nth_error (map addr l) j = Some q
                      /\ (S j = i \/ (i = 0%nat /\ S j = length l
                                      /\ loop (il w) = true /\ (2 <= length l)%nat)))
      as (j & Nj & Hj).
    { destruct i as [ | j ] eqn:I.
      - destruct (loop (il w)); [ | discriminate ]. cbn [andb] in E.
        destruct (2 <=? length l)%nat eqn:T; [ | discriminate ].
        apply Nat.leb_le in T. exists (pred (length l)).
        split; [ now injection E | right; repeat split; lia ].
      - exists j. split; [ now injection E | now left ]. }
    assert (Iq : In q (map addr l)) by (eapply nth_error_In, Nj).
    pose proof (offset_at _ _ _ Hn Nj) as Oq.
    split.
    + intros ->. fold i in Oq. destruct Hj as [ Hj | (Hj & Hl & _ & T) ]; lia.
    + rewrite (next_file_value _ _ Iq). cbv zeta. fold l. rewrite Oq.
      destruct Hj as [ Hj | (Hj & Hl & Hlp & T) ].
      * replace (S j <? length l)%nat with true by (symmetry; apply Nat.ltb_lt; lia).
        rewrite Hj. now rewrite Hat.
      * replace (S j <? length l)%nat with false by (symmetry; apply Nat.ltb_ge; lia).
        rewrite Hlp. cbn [andb].
        replace (2 <=? length l)%nat with true by (symmetry; apply Nat.leb_le; lia).
        rewrite <- Hj. now rewrite Hat.
Qed.

Lemma prev_file_undoes_next_file_witness :
  imglist_prev_file 2 Demo.w_three = Done (Some 1) Demo.w_three.
Proof.
  destruct (prev_file_undoes_next_file Demo.w_three 1 2) as (H & _).
  - repeat constructor; simpl; intuition discriminate.
  - simpl. tauto.
  - apply H. reflexivity.
Defined.

(** ** Jumps *)

Lemma jump_forward_nth (l : list image) (d : Z) :
  0 <= d < SSIZE_HALF ->
  jump_forward l d = nth_error (map addr l) (Z.to_nat d).
Proof.
  revert d. induction l as [ | x t IH ]; intros d Hd; simpl.
  - now destruct (Z.to_nat d).
  - destruct (d =? 0) eqn:E; [ apply Z.eqb_eq in E; now subst | ].
    apply Z.eqb_neq in E.
    rewrite to_ssize_t_small by (unfold SSIZE_HALF in *; lia).
    rewrite IH by lia.
    replace (Z.to_nat d) with (S (Z.to_nat (d - 1))) by lia. reflexivity.
Qed.

Lemma jump_backward_nth (l : list image) (d : Z) :
  - SSIZE_HALF <= d <= 0 ->
  jump_backward l d = nth_error (map addr l) (Z.to_nat (- d)).
Proof.
  revert d. induction l as [ | x t IH ]; intros d Hd; simpl.
  - now destruct (Z.to_nat (- d)).
  - destruct (d =? 0) eqn:E; [ apply Z.eqb_eq in E; now subst | ].
    apply Z.eqb_neq in E.
    rewrite to_ssize_t_small by (unfold SSIZE_HALF in *; lia).
    rewrite IH by lia.
    replace (Z.to_nat (- d)) with (S (Z.to_nat (- (d + 1)))) by lia. reflexivity.
Qed.

Lemma from_firstn (l : list image) (p : ptr) :
  In p (map addr l) ->
  exists x rest,
    IList.from l p = x :: rest
    /\ firstn (S (offset l p)) l = (firstn (offset l p) l ++ [x])%list.
Proof.
  induction l as [ | x0 t IH ]; simpl; [ tauto | ].
  destruct (addr x0 =? p) eqn:E.
  - intros _. exists x0, t. split; [ reflexivity | ]. now destruct t.
  - intros [ H | H ]; [ apply Z.eqb_neq in E; contradiction | ].
    destruct (IH H) as (x & rest & F & Fn). exists x, rest.
    split; [ exact F | ]. cbn [firstn] in Fn. simpl. now rewrite Fn.
Qed.

(** The nodes a backward traversal visits are the first ones of the list,
    last first. *)
Lemma back_from_rev (l : list image) (p : ptr) :
  In p (map addr l) ->
  IList.back_from l p = rev (firstn (S (offset l p)) l).
Proof.
  intros H. unfold IList.back_from.
  destruct (from_firstn _ _ H) as (x & rest & F & Fn).
  rewrite F, Fn, rev_unit, before_firstn by exact H.
  now rewrite app_nil_r.
Qed.

(** What [imglist_jump] returns, by positions. *)
Lemma jump_value (w : world) (img : ptr) (d : Z) :
  In img (map addr (images (il w))) ->
  - SSIZE_HALF <= d < SSIZE_HALF ->
  imglist_jump img d w
  = Done (let i := Z.of_nat (offset (images (il w)) img) in
          if i + d <? 0 then None
          else nth_error (map addr (images (il w))) (Z.to_nat (i + d))) w.
Proof.
  intros H Hd. pose proof (offset_lt _ _ H) as L.
  unfold imglist_jump, bind, gets, ret. cbv zeta.
  set (l := images (il w)) in *. set (i := offset l img) in *.
  destruct (d >? 0) eqn:P.
  - rewrite Z.gtb_ltb in P. apply Z.ltb_lt in P.
    replace (Z.of_nat i + d <? 0) with false by (symmetry; apply Z.ltb_ge; lia).
    rewrite jump_forward_nth by lia. rewrite from_skipn by exact H. fold i.
    rewrite <- skipn_map, nth_error_skipn. do 2 f_equal. lia.
  - rewrite Z.gtb_ltb in P. apply Z.ltb_ge in P.
    destruct (d <? 0) eqn:N.
    + apply Z.ltb_lt in N. rewrite jump_backward_nth by lia.
      rewrite back_from_rev by exact H. fold i.
      rewrite map_rev, nth_error_rev, length_map, length_firstn.
      rewrite Nat.min_l by lia.
      destruct (Z.of_nat i + d <? 0) eqn:B.
      * apply Z.ltb_lt in B.
        replace (Z.to_nat (- d) <? S i)%nat with false
          by (symmetry; apply Nat.ltb_ge; lia).
        reflexivity.
      * apply Z.ltb_ge in B.
        replace (Z.to_nat (- d) <? S i)%nat with true
          by (symmetry; apply Nat.ltb_lt; lia).
        rewrite <- firstn_map, nth_error_firstn.
        replace (S i - S (Z.to_nat (- d)) <? S i)%nat with true
          by (symmetry; apply Nat.ltb_lt; lia).
        do 2 f_equal. lia.
    + apply Z.ltb_ge in N. assert (d = 0) as -> by lia.
      rewrite Z.add_0_r.
      replace (Z.of_nat i <? 0) with false by (symmetry; apply Z.ltb_ge; lia).
      rewrite Nat2Z.id. subst i. now rewrite nth_error_offset.
Qed.

(** X3. [imglist_jump] from the entry at position i by a distance d
    returns the entry at position i + d and leaves the world as it is; the
    result is [NULL] exactly when i + d falls outside the list, so a step
    back from the first entry gives [NULL]; a distance of 0 returns the
    entry itself. *)
Theorem jump_lands_at_distance (w : world) (img : ptr) (d : Z) :
  In img (map addr (images (il w))) ->
  - SSIZE_HALF <= d < SSIZE_HALF ->
  exists r,
    imglist_jump img d w = Done r w
    /\ (r = None <->
        Z.of_nat (offset (images (il w)) img) + d < 0
        \/ Z.of_nat (length (images (il w)))
           <= Z.of_nat (offset (images (il w)) img) + d)
    /\ (forall q, r = Some q ->
          nth_error (map addr (images (il w)))
                    (Z.to_nat (Z.of_nat (offset (images (il w)) img) + d))
          = Some q)
    /\ (d = 0 -> r = Some img).
Proof.
  intros H Hd. rewrite (jump_value _ _ _ H Hd). cbv zeta.
  set (l := images (il w)) in *. set (i := Z.of_nat (offset l img)) in *.
  eexists. split; [ reflexivity | ].
  destruct (i + d <? 0) eqn:B; [ apply Z.ltb_lt in B | apply Z.ltb_ge in B ].
  - split; [ split; [ intros _; now left | reflexivity ] | ].
    split; [ discriminate | ].
    intros ->. subst i. lia.
  - split; [ | split ].
    + split.
      * intros N. apply nth_error_None in N. rewrite length_map in N. right. lia.
      * intros [ F | F ]; [ lia | ].
        apply nth_error_None. rewrite length_map. lia.
    + intros q E. exact E.
    + intros ->. rewrite Z.add_0_r. subst i. rewrite Nat2Z.id.
      now apply nth_error_offset.
Qed.

Lemma jump_lands_at_distance_witness :
  imglist_jump 1 (-1) Demo.w_three = Done None Demo.w_three
  /\ imglist_jump 1 2 Demo.w_three = Done (Some 3) Demo.w_three.
Proof.
  destruct (jump_lands_at_distance Demo.w_three 1 (-1)) as (r & Hr & _).
  - simpl. tauto.
  - unfold SSIZE_HALF. lia.
  - split; reflexivity.
Defined.

(** X4. On a list with dense indices, jumping from an entry by its
    distance to another entry arrives at that entry: [imglist_jump] and
    [imglist_distance] are inverse to each other. *)
Theorem jump_by_distance_arrives (w : world) (a b : ptr) :
  dense (il w) ->
  Z.of_nat (length (images (il w))) <= SSIZE_HALF ->
  In a (map addr (images (il w))) ->
  In b (map addr (images (il w))) ->
  exists d,
    imglist_distance a b w = Done d w
    /\ imglist_jump a d w = Done (Some b) w
    /\ imglist_jump b (- d) w = Done (Some a) w.
Proof.
  intros Hd Hl Ha Hb.
  pose proof (offset_lt _ _ Ha) as La. pose proof (offset_lt _ _ Hb) as Lb.
  eexists. split; [ now apply distance_value | ].
  split.
  - rewrite jump_value by (unfold SSIZE_HALF in *; try assumption; lia).
    cbv zeta.
    replace (_ + _) with (Z.of_nat (offset (images (il w)) b)) by lia.
    replace (_ <? 0) with false by (symmetry; apply Z.ltb_ge; lia).
    rewrite Nat2Z.id. now rewrite nth_error_offset.
  - rewrite jump_value by (unfold SSIZE_HALF in *; try assumption; lia).
    cbv zeta.
    replace (_ + _) with (Z.of_nat (offset (images (il w)) a)) by lia.
    replace (_ <? 0) with false by (symmetry; apply Z.ltb_ge; lia).
    rewrite Nat2Z.id. now rewrite nth_error_offset.
Qed.

Lemma jump_by_distance_arrives_witness :
  exists d, imglist_distance 3 1 Demo.w_three = Done d Demo.w_three
            /\ imglist_jump 3 d Demo.w_three = Done (Some 1) Demo.w_three.
Proof.
  destruct (jump_by_distance_arrives Demo.w_three 3 1) as (d & H1 & H2 & _).
  - split; reflexivity.
  - vm_compute. discriminate.
  - simpl. tauto.
  - simpl. tauto.
  - exists d. split; assumption.
Defined.

(** ** Invariants of the list *)

(** The addresses the coming allocations return. *)
Fixpoint pending (h : list (option ptr)) : list ptr :=
  match h with
  | [] => []
  | Some a :: rest => a :: pending rest
  | None :: rest => pending rest
  end.

(** No source is held by two entries, no node is linked twice, and the
    allocator hands out no address that is in use. *)
Definition registry_wf (w : world) : Prop :=
  NoDup (map source (images (il w)))
  /\ NoDup (map addr (images (il w)) ++ pending (heap w)).

(** A computation that keeps a property of the world. *)
Definition preserves (I : world -> Prop) {A} (m : M A) : Prop :=
  forall w a w', I w -> m w = Done a w' -> I w'.

Lemma preserves_ret (I : world -> Prop) {A} (a : A) : preserves I (ret a).
Proof. intros w b w' H E. now done_inv E. Qed.

Lemma preserves_gets (I : world -> Prop) {A} (f : world -> A) :
  preserves I (gets f).
Proof. intros w b w' H E. now done_inv E. Qed.

Lemma preserves_raise (I : world -> Prop) {A} (f : fault) :
  preserves I (@raise A f).
Proof. intros w b w' H E. discriminate. Qed.

Lemma preserves_bind (I : world -> Prop) {A B} (m : M A) (k : A -> M B) :
  preserves I m -> (forall a, preserves I (k a)) -> preserves I (bind m k).
Proof.
  intros Hm Hk w b w' H E. bind_inv E as a w1 E1.
  eapply Hk; [ | exact E ]. eapply Hm; eassumption.
Qed.

Lemma insert_perm {B} (f : image -> B) (l : list image) (p : ptr) (e : image) :
  Permutation (map f (IList.insert l p e)) (f e :: map f l).
Proof.
  induction l as [ | x t IH ]; simpl; [ apply Permutation_refl | ].
  destruct (addr x =? p); simpl; [ apply Permutation_refl | ].
  eapply Permutation_trans; [ apply perm_skip, IH | apply perm_swap ].
Qed.

Lemma append_perm {B} (f : image -> B) (l : list image) (e : image) :
  Permutation (map f (IList.append l e)) (f e :: map f l).
Proof.
  unfold IList.append. rewrite map_app. simpl.
  apply Permutation_sym, Permutation_cons_append.
Qed.

Lemma find_source_none_notin (l : list image) (src : string) :
  find_source l src = None -> ~ In src (map source l).
Proof.
  induction l as [ | x t IH ]; simpl; [ tauto | ].
  destruct (streq src (source x)) eqn:E; [ discriminate | ].
  intros H [ F | F ]; [ | now apply IH ].
  subst src. now rewrite streq_refl in E.
Qed.

Lemma pending_sub (h : list (option ptr)) (l : list ptr) (o : option ptr) :
  NoDup (l ++ pending (o :: h)) -> NoDup (l ++ pending h).
Proof.
  destruct o as [ a | ]; simpl; [ | tauto ]. apply NoDup_remove_1.
Qed.

Lemma remove_sub {B} (f : image -> B) (l : list image) (p : ptr) :
  NoDup (map f l) -> NoDup (map f (IList.remove l p)).
Proof.
  induction l as [ | x t IH ]; simpl; [ tauto | ]. intros H.
  inversion H as [ | a m Hn Hd ]; subst.
  destruct (addr x =? p); [ exact Hd | ]. simpl. constructor; [ | now apply IH ].
  intros F. apply Hn. clear - F.
  induction t as [ | y t IH ]; simpl in *; [ tauto | ].
  destruct (addr y =? p); [ now right | ].
  destruct F as [ F | F ]; [ now left | right; now apply IH ].
Qed.

Lemma NoDup_app_parts {B} (l1 l2 : list B) :
  NoDup (l1 ++ l2) ->
  NoDup l1 /\ NoDup l2 /\ (forall a, In a l1 -> ~ In a l2).
Proof.
  induction l1 as [ | x t IH ]; simpl; intros H.
  - repeat split; [ constructor | exact H | tauto ].
  - inversion H as [ | a m Hn Hd ]; subst.
    destruct (IH Hd) as (H1 & H2 & H3).
    split; [ | split; [ exact H2 | ] ].
    + constructor; [ | exact H1 ]. intros F. apply Hn, in_or_app. now left.
    + intros a [ <- | F ]; [ | now apply H3 ].
      intros F2. apply Hn, in_or_app. now right.
Qed.

Lemma remove_addr_incl (l : list image) (p : ptr) (q : ptr) :
  In q (map addr (IList.remove l p)) -> In q (map addr l).
Proof. apply remove_incl. Qed.

Lemma reindex_from_source (l : list image) (sz : Z) :
  map source (snd (reindex_from sz l)) = map source l.
Proof.
  revert sz. induction l as [ | x t IH ]; intros sz; [ reflexivity | ].
  simpl. specialize (IH (to_size_t (sz + 1))).
  destruct (reindex_from (to_size_t (sz + 1)) t). simpl in *. now rewrite IH.
Qed.

(** [add_entry] keeps the invariant. *)
Lemma wf_add_entry (X : externals) (src : string) (st : option stat_t) :
  preserves registry_wf (add_entry X src st).
Proof.
  intros w r w' (Hs & Ha) E.
  destruct (find_source (images (il w)) src) as [ e0 | ] eqn:F.
  - rewrite (add_entry_present X src st w e0 F) in E. done_inv E. now split.
  - destruct r as [ e | ].
    + destruct (add_entry_new _ _ _ _ _ _ F E)
        as (entry & rest & Hh & Hh' & Hae & Hse & _ & _ & Hi).
      rewrite Hh in Ha. cbn [pending] in Ha.
      assert (Hp : forall B (f : image -> B),
                 Permutation (map f (images (il w'))) (f entry :: map f (images (il w)))).
      { intros B f. destruct Hi as [ (p & _ & Hi) | Hi ]; rewrite Hi.
        - apply insert_perm.
        - apply append_perm. }
      split.
      * eapply Permutation_NoDup; [ apply Permutation_sym, Hp | ].
        rewrite Hse. constructor; [ now apply find_source_none_notin | exact Hs ].
      * rewrite Hh'.
        eapply Permutation_NoDup;
          [ apply Permutation_app_tail, Permutation_sym, Hp | ].
        rewrite Hae. cbn [app].
        eapply Permutation_NoDup; [ | exact Ha ].
        apply Permutation_sym, Permutation_middle.
    + (* the allocation failed *)
      unfold add_entry, bind, imglist_find, gets in E. rewrite F in E.
      unfold image_create in E.
      destruct (heap w) as [ | [ a | ] rest ] eqn:Hh.
      * done_inv E. split; [ exact Hs | ]. rewrite Hh. exact Ha.
      * cbv beta iota in E. unfold modify_il, modify, gets, bind in E.
        destruct (ordered_position X _ _) as [ [ p | ] w1 | f ];
          cbv beta iota in E; unfold ret in E; discriminate.
      * done_inv E. split; [ exact Hs | ]. cbn [il set_heap heap].
        exact Ha.
Qed.

Lemma wf_reindex : preserves registry_wf reindex.
Proof.
  intros w r w' (Hs & Ha) E. rewrite reindex_run in E. done_inv E.
  split; cbn [il set_il images set_images set_size heap].
  - now rewrite reindex_from_source.
  - now rewrite reindex_from_addr.
Qed.

Lemma wf_modify_same (f : image_list -> image_list) :
  (forall c, images (f c) = images c) ->
  preserves registry_wf (modify_il f).
Proof.
  intros Hf w r w' (Hs & Ha) E. done_inv E.
  split; cbn [il set_il heap]; now rewrite Hf.
Qed.

Lemma wf_emit (e : event) : preserves registry_wf (emit e).
Proof. intros w r w' H E. done_inv E. exact H. Qed.

Lemma wf_imglist_remove (p : ptr) : preserves registry_wf (imglist_remove p).
Proof.
  unfold imglist_remove. apply preserves_bind; [ | intros _; apply wf_reindex ].
  intros w r w' (Hs & Ha) E. done_inv E.
  split; cbn [il set_il images set_images heap].
  - now apply remove_sub.
  - apply NoDup_app_parts in Ha. destruct Ha as (H1 & H2 & H3).
    apply NoDup_app; [ now apply remove_sub | exact H2 | ].
    intros a Hin. apply H3. now apply remove_addr_incl in Hin.
Qed.

Create HintDb wf.
#[local] Hint Resolve preserves_ret preserves_gets preserves_raise wf_emit
  wf_reindex wf_add_entry wf_imglist_remove : wf.

Ltac wf_steps :=
  repeat first
    [ solve [ auto with wf ]
    | apply preserves_bind; [ | intros ? ]
    | apply wf_modify_same; intros ?; reflexivity
    | match goal with
      | |- preserves _ (match ?x with _ => _ end) => destruct x
      end ].

Lemma wf_add_dir_mut (X : externals) :
  (forall n dir, preserves registry_wf (add_dir_node X dir n))
  /\ (forall d dir img, preserves registry_wf (add_dir_loop X dir d img)).
Proof.
  apply fs_mutind.
  - intros sz t dir. apply preserves_ret.
  - intros t dir. apply preserves_ret.
  - intros dir. apply preserves_ret.
  - intros r t ents IH dir. cbn [add_dir_node]. unfold fs_monitor_add.
    destruct r; [ | apply preserves_ret ].
    apply preserves_bind; [ apply IH | intros ? ]. wf_steps.
  - intros dir img. apply preserves_ret.
  - intros name n IHn rest IHrest dir img. cbn [add_dir_loop].
    apply preserves_bind; [ | intros ?; apply IHrest ].
    destruct (_ || _); [ wf_steps | ].
    destruct (fs_append_path X _ _ _); [ | wf_steps ].
    destruct (node_stat n) as [ st | ]; [ | wf_steps ].
    destruct (S_ISDIR st).
    + apply preserves_bind; [ wf_steps | intros rec ].
      destruct rec; [ apply IHn | wf_steps ].
    + wf_steps.
Qed.

Lemma wf_add_dir (X : externals) (dir : string) :
  preserves registry_wf (add_dir X dir).
Proof.
  unfold add_dir. apply preserves_bind; [ wf_steps | intros n ].
  destruct n; [ apply wf_add_dir_mut | wf_steps ].
Qed.
#[local] Hint Resolve wf_add_dir : wf.

Lemma wf_on_fsevent (X : externals) (ty : fsevent) (path : string) :
  preserves registry_wf (on_fsevent X ty path).
Proof.
  unfold on_fsevent. cbn [fsevent_statements sequence].
  destruct (last_char path) as [ c | ]; [ | wf_steps ].
  unfold imglist_lock, imglist_unlock, fsevent_body, stat, imglist_find,
    notify, app_on_imglist.
  destruct ty, (Ascii.eqb c "/"); wf_steps.
Qed.

(** An insertion that returns [NULL] has failed to allocate: the list is
    untouched. *)
Lemma add_entry_failed (X : externals) (src : string) (st : option stat_t)
      (w w' : world) :
  add_entry X src st w = Done None w' -> il w' = il w.
Proof.
  intros E. unfold add_entry, bind, imglist_find, gets in E.
  destruct (find_source (images (il w)) src); [ discriminate | ].
  unfold image_create in E.
  destruct (heap w) as [ | [ a | ] rest ].
  - now done_inv E.
  - cbv beta iota in E. unfold modify_il, modify, gets, bind in E.
    destruct (ordered_position X _ _) as [ [ p | ] w1 | f ];
      cbv beta iota in E; unfold ret in E; discriminate.
  - now done_inv E.
Qed.

(** X5. [add_entry] keeps the list well-formed: the sources stay pairwise
    distinct, no node is linked twice, and a size counter that was the
    number of entries still is (short of the wrap-around of the counter).
    The entry it returns is linked in the list; when it returns [NULL],
    the allocation has failed and the list is what it was. *)
Theorem add_entry_keeps_registry (X : externals) (src : string)
        (st : option stat_t) (w w' : world) (r : option ptr) :
  registry_wf w ->
  add_entry X src st w = Done r w' ->
  registry_wf w'
  /\ (size (il w) = Z.of_nat (length (images (il w))) ->
      Z.of_nat (length (images (il w))) + 1 < SIZE_MOD ->
      size (il w') = Z.of_nat (length (images (il w'))))
  /\ (forall e, r = Some e ->
        In e (map addr (images (il w')))
        /\ find_source (images (il w')) src = Some e)
  /\ (r = None -> il w' = il w).
Proof.
  intros Hwf E. split; [ eapply wf_add_entry; eassumption | ].
  split; [ | split ].
  - intros Hs Hb. destruct r as [ e | ].
    + destruct (find_source (images (il w)) src) as [ e0 | ] eqn:F.
      * rewrite (add_entry_present X src st w e0 F) in E. now done_inv E.
      * destruct (add_entry_new _ _ _ _ _ _ F E)
          as (entry & rest & _ & _ & _ & _ & _ & Hsz & Hi).
        rewrite Hsz, Hs. unfold to_size_t. rewrite Z.mod_small by lia.
        assert (length (images (il w')) = S (length (images (il w)))) as ->; [ | lia ].
        rewrite <- (length_map addr (images (il w'))).
        destruct Hi as [ (p & _ & Hi) | Hi ]; rewrite Hi.
        -- rewrite (Permutation_length (insert_perm addr _ _ _)). simpl.
           now rewrite length_map.
        -- rewrite (Permutation_length (append_perm addr _ _)). simpl.
           now rewrite length_map.
    + apply add_entry_failed in E. now rewrite E.
  - intros e ->. pose proof (add_entry_found _ _ _ _ _ _ E) as F.
    split; [ eapply find_source_In, F | exact F ].
  - intros ->. eapply add_entry_failed, E.
Qed.

(** A well-formed world: the three entries of [Demo.w_three], with four
    fresh addresses to come. *)
Lemma w_three_wf : registry_wf Demo.w_three.
Proof.
  split; repeat constructor; simpl; intuition discriminate.
Qed.

Lemma add_entry_keeps_registry_witness :
  exists w',
    add_entry Demo.env "/pics/c.png" None Demo.w_three = Done (Some 1000) w'
    /\ registry_wf w' /\ size (il w') = 4.
Proof.
  eexists. split; [ vm_compute; reflexivity | ].
  match goal with
  | |- registry_wf ?v /\ _ =>
      destruct (add_entry_keeps_registry Demo.env "/pics/c.png" None
                  Demo.w_three v (Some 1000) w_three_wf) as (H1 & _)
  end.
  - vm_compute. reflexivity.
  - split; [ exact H1 | reflexivity ].
Defined.

(** X6. The file-system event handler keeps the list well-formed: whatever
    the event, the path and the file tree, when it completes the sources
    are still pairwise distinct and no node is linked twice. *)
Theorem on_fsevent_keeps_registry (X : externals) (ty : fsevent)
        (path : string) (w w' : world) :
  registry_wf w ->
  on_fsevent X ty path w = Done tt w' ->
  registry_wf w'.
Proof. intros H E. eapply wf_on_fsevent; eassumption. Qed.

Lemma w_alpha_wf : registry_wf Demo.w_alpha.
Proof.
  split; repeat constructor; simpl; intuition discriminate.
Qed.

Lemma on_fsevent_keeps_registry_witness :
  exists w',
    on_fsevent Demo.env fsevent_create "/pics/sub/" Demo.w_alpha = Done tt w'
    /\ NoDup (map source (images (il w'))).
Proof.
  eexists. split; [ vm_compute; reflexivity | ].
  match goal with
  | |- NoDup (map source (images (il ?v))) =>
      apply (on_fsevent_keeps_registry Demo.env fsevent_create "/pics/sub/"
               Demo.w_alpha v w_alpha_wf)
  end.
  vm_compute. reflexivity.
Defined.

(** ** Order by time and by size *)

(** Where a new entry goes under a policy that compares: in front of the
    position the scan returns, or at the end. *)
Definition place (X : externals) (o : list_order) (rev : bool)
           (entry : image) (l : list image) : list image :=
  match scan_position X o rev entry l with
  | Some p => IList.insert l p entry
  | None => IList.append l entry
  end.

Lemma place_cons (X : externals) (o : list_order) (rev : bool)
      (entry x : image) (t : list image) :
  NoDup (map addr (x :: t)) ->
  place X o rev entry (x :: t)
  = if (rev && (entry_cmp X o entry x >? 0))
       || (negb rev && (entry_cmp X o entry x <? 0))
    then entry :: x :: t
    else x :: place X o rev entry t.
Proof.
  intros Hn. unfold place. cbn [scan_position].
  destruct (_ || _).
  - cbn [IList.insert]. now rewrite Z.eqb_refl.
  - destruct (scan_position X o rev entry t) as [ p | ] eqn:S; [ | reflexivity ].
    cbn [IList.insert]. apply scan_position_In in S.
    inversion Hn as [ | a m Hnot Hnd ]; subst.
    destruct (addr x =? p) eqn:E; [ | reflexivity ].
    apply Z.eqb_eq in E. subst p. contradiction.
Qed.

Lemma place_perm {B} (X : externals) (o : list_order) (rev : bool)
      (f : image -> B) (entry : image) (l : list image) :
  Permutation (map f (place X o rev entry l)) (f entry :: map f l).
Proof.
  unfold place. destruct (scan_position X o rev entry l).
  - apply insert_perm.
  - apply append_perm.
Qed.

(** An insertion that creates the entry, under a policy that compares. *)
Lemma add_entry_placed (X : externals) (src : string) (s : stat_t)
      (w w' : world) (e : ptr) :
  find_source (images (il w)) src = None ->
  order (il w) = order_mtime \/ order (il w) = order_size ->
  add_entry X src (Some s) w = Done (Some e) w' ->
  exists entry,
    addr entry = e /\ source entry = src
    /\ file_size entry = to_size_t (st_size s)
    /\ file_time entry = st_mtime s
    /\ images (il w')
       = place X (order (il w)) (reverse (il w)) entry (images (il w)).
Proof.
  intros F Ho H. unfold add_entry in H. bind_inv H as found w0 Hf.
  unfold imglist_find, gets in Hf. done_inv Hf. rewrite F in H.
  bind_inv H as created w1 Hc. unfold image_create in Hc.
  destruct (heap w0) as [ | [ ad | ] rest ] eqn:Hh; done_inv Hc;
    try (unfold ret in H; discriminate).
  bind_inv H as u w2 Hs. unfold modify_il, modify in Hs. done_inv Hs.
  bind_inv H as sz w3 Hg. unfold gets in Hg. done_inv Hg.
  bind_inv H as pos w4 Hp.
  bind_inv H as u' w5 Hi. unfold ret in H. done_inv H.
  set (entry := set_index _ _) in *.
  exists entry. repeat (split; [ reflexivity | ]).
  unfold ordered_position, bind, gets in Hp.
  cbn [il set_il set_heap order set_size images reverse] in Hp.
  unfold place.
  destruct Ho as [ Ho | Ho ]; rewrite Ho in *; unfold ret in Hp; done_inv Hp;
    destruct (scan_position X _ (reverse (il w0)) entry (images (il w0)));
    unfold modify_il, modify in Hi; done_inv Hi; reflexivity.
Qed.

(** The value a policy compares. *)
Definition sort_key (o : list_order) (e : image) : Z :=
  match o with
  | order_mtime => file_time e
  | _ => file_size e
  end.

(** Every value is followed by values that are not greater, or with the
    order reversed not smaller. *)
Fixpoint ranked (rev : bool) (ks : list Z) : Prop :=
  match ks with
  | [] => True
  | k :: t =>
      (forall k', In k' t -> if rev then k <= k' else k' <= k) /\ ranked rev t
  end.

Lemma place_ranked (X : externals) (o : list_order) (rev : bool)
      (entry : image) (l : list image) :
  o = order_mtime \/ o = order_size ->
  NoDup (map addr l) ->
  (forall k, In k (sort_key o entry :: map (sort_key o) l) ->
             - 2 ^ 62 <= k < 2 ^ 62) ->
  ranked rev (map (sort_key o) l) ->
  ranked rev (map (sort_key o) (place X o rev entry l)).
Proof.
  intros Ho. induction l as [ | x t IH ]; intros Hn Hk Hr.
  - unfold place. simpl. split; [ intros k' [] | exact I ].
  - rewrite place_cons by exact Hn.
    assert (Hcmp : entry_cmp X o entry x = sort_key o x - sort_key o entry).
    { assert (- 2 ^ 62 <= sort_key o x < 2 ^ 62) by (apply Hk; simpl; tauto).
      assert (- 2 ^ 62 <= sort_key o entry < 2 ^ 62) by (apply Hk; simpl; tauto).
      destruct Ho as [ -> | -> ]; cbn [entry_cmp sort_key] in *;
        apply to_ssize_t_small; unfold SSIZE_HALF; lia. }
    rewrite Hcmp. cbn [map ranked] in Hr. destruct Hr as (Hx & Ht).
    inversion Hn as [ | a m Hnot Hnd ]; subst.
    assert (IHt : ranked rev (map (sort_key o) (place X o rev entry t))).
    { apply IH; [ exact Hnd | | exact Ht ].
      intros k Hin. apply Hk. simpl in *. tauto. }
    destruct rev; cbn [andb negb orb].
    + rewrite orb_false_r.
      destruct (sort_key o x - sort_key o entry >? 0) eqn:C.
      * rewrite Z.gtb_ltb in C. apply Z.ltb_lt in C. cbn [map ranked].
        split; [ | split; assumption ].
        intros k' [ <- | Hin ]; [ lia | ]. specialize (Hx k' Hin). lia.
      * rewrite Z.gtb_ltb in C. apply Z.ltb_ge in C. cbn [map ranked].
        split; [ | exact IHt ].
        intros k' Hin.
        apply (Permutation_in _ (place_perm X o true (sort_key o) entry t)) in Hin.
        destruct Hin as [ <- | Hin ]; [ lia | now apply Hx ].
    + destruct (sort_key o x - sort_key o entry <? 0) eqn:C.
      * apply Z.ltb_lt in C. cbn [map ranked].
        split; [ | split; assumption ].
        intros k' [ <- | Hin ]; [ lia | ]. specialize (Hx k' Hin). lia.
      * apply Z.ltb_ge in C. cbn [map ranked].
        split; [ | exact IHt ].
        intros k' Hin.
        apply (Permutation_in _ (place_perm X o false (sort_key o) entry t)) in Hin.
        destruct Hin as [ <- | Hin ]; [ lia | now apply Hx ].
Qed.

(** X7. Under the modification-time and the file-size policies, as long
    as the values compared stay within 62 bits, [add_entry] keeps the list
    sorted: if the entries were in non-increasing order of their time (or
    size), in non-decreasing order with the reverse flag, they still are
    once the new file has been inserted. *)
Theorem add_entry_keeps_sorted (X : externals) (src : string) (s : stat_t)
        (w w' : world) (e : ptr) :
  order (il w) = order_mtime \/ order (il w) = order_size ->
  NoDup (map addr (images (il w))) ->
  (forall k,
      In k (st_mtime s :: to_size_t (st_size s)
              :: map (sort_key (order (il w))) (images (il w))) ->
      - 2 ^ 62 <= k < 2 ^ 62) ->
  ranked (reverse (il w)) (map (sort_key (order (il w))) (images (il w))) ->
  add_entry X src (Some s) w = Done (Some e) w' ->
  ranked (reverse (il w)) (map (sort_key (order (il w))) (images (il w'))).
Proof.
  intros Ho Hn Hk Hr E.
  destruct (find_source (images (il w)) src) as [ e0 | ] eqn:F.
  - rewrite (add_entry_present X src (Some s) w e0 F) in E. now done_inv E.
  - destruct (add_entry_placed _ _ _ _ _ _ F Ho E)
      as (entry & _ & _ & Hsz & Htm & Hi).
    rewrite Hi. apply place_ranked; try assumption.
    intros k [ <- | Hin ].
    + destruct Ho as [ Ho | Ho ]; rewrite Ho; cbn [sort_key];
        [ rewrite Htm | rewrite Hsz ]; apply Hk; simpl; tauto.
    + apply Hk. simpl. tauto.
Qed.

(** Two files in the order of [order_mtime], the newer one first. *)
Definition w_by_time : world :=
  mk_world (mk_image_list [mk_image 1 "/pics/new.png" 1 10 300 [] None;
                           mk_image 2 "/pics/old.png" 2 10 100 [] None]
                          2 false order_mtime false false false false false)
           Demo.gal Demo.tree [Some 1000] [] [].

Lemma add_entry_keeps_sorted_witness :
  exists w',
    add_entry Demo.env "/pics/mid.png"
              (Some (mk_stat S_IFREG 10 (mk_timespec 200 0))) w_by_time
    = Done (Some 1000) w'
    /\ map file_time (images (il w')) = [300; 200; 100]
    /\ ranked false (map file_time (images (il w'))).
Proof.
  eexists. split; [ vm_compute; reflexivity | ]. split; [ reflexivity | ].
  match goal with
  | |- ranked false (map file_time (images (il ?v))) =>
      apply (add_entry_keeps_sorted Demo.env "/pics/mid.png"
               (mk_stat S_IFREG 10 (mk_timespec 200 0)) w_by_time v 1000)
  end.
  - now left.
  - repeat constructor; simpl; intuition discriminate.
  - intros k H. cbv in H.
    repeat (destruct H as [ <- | H ]; [ lia | ]). destruct H.
  - simpl. repeat split; intros k' H; simpl in H;
      repeat (destruct H as [ <- | H ]; [ lia | ]); destruct H.
  - vm_compute. reflexivity.
Defined.

(** ** Removal *)

Lemma remove_insert (l : list image) (p : ptr) (entry : image) :
  ~ In (addr entry) (map addr l) ->
  IList.remove (IList.insert l p entry) (addr entry) = l.
Proof.
  induction l as [ | x t IH ]; simpl; intros H.
  - now rewrite Z.eqb_refl.
  - destruct (addr x =? p); simpl.
    + now rewrite Z.eqb_refl.
    + destruct (addr x =? addr entry) eqn:E.
      * apply Z.eqb_eq in E. tauto.
      * f_equal. apply IH. tauto.
Qed.

Lemma remove_append (l : list image) (entry : image) :
  ~ In (addr entry) (map addr l) ->
  IList.remove (IList.append l entry) (addr entry) = l.
Proof.
  unfold IList.append. induction l as [ | x t IH ]; simpl; intros H.
  - now rewrite Z.eqb_refl.
  - destruct (addr x =? addr entry) eqn:E.
    + apply Z.eqb_eq in E. tauto.
    + f_equal. apply IH. tauto.
Qed.

(** Renumbering a list whose indices are already in sequence changes
    nothing. *)
Lemma reindex_from_dense (l : list image) (n : nat) :
  Z.of_nat n + Z.of_nat (length l) < SIZE_MOD ->
  map index l = map Z.of_nat (seq (S n) (length l)) ->
  reindex_from (Z.of_nat n) l = (Z.of_nat (n + length l), l).
Proof.
  revert n. induction l as [ | x t IH ]; intros n Hb Hd.
  - simpl. do 2 f_equal. lia.
  - cbn [reindex_from length map seq] in *. injection Hd as Hx Ht.
    assert (E : to_size_t (Z.of_nat n + 1) = Z.of_nat (S n)).
    { unfold to_size_t. rewrite Z.mod_small; lia. }
    rewrite E, (IH (S n)) by (try assumption; lia).
    f_equal; [ f_equal; lia | ]. f_equal.
    destruct x. unfold set_index. simpl in *. now rewrite Hx.
Qed.

(** [add_entry] touches the entries and the size counter only. *)
Lemma add_entry_frame (X : externals) (src : string) (st : option stat_t)
      (w w' : world) (r : option ptr) :
  add_entry X src st w = Done r w' ->
  il w' = set_images (images (il w')) (set_size (size (il w')) (il w)).
Proof.
  intros H. unfold add_entry in H. bind_inv H as found w0 Hf.
  unfold imglist_find, gets in Hf. done_inv Hf.
  destruct (find_source (images (il w0)) src).
  - unfold ret in H. done_inv H. now destruct (il w').
  - bind_inv H as created w1 Hc. unfold image_create in Hc.
    assert (Hil : il w1 = il w0)
      by (destruct (heap w0) as [ | [ ad | ] rest ]; now done_inv Hc).
    destruct created as [ e0 | ]; [ | unfold ret in H; done_inv H;
                                      rewrite Hil; now destruct (il w0) ].
    bind_inv H as u w2 Hs. unfold modify_il, modify in Hs. done_inv Hs.
    bind_inv H as sz w3 Hg. unfold gets in Hg. done_inv Hg.
    bind_inv H as pos w4 Hp. apply ordered_position_il in Hp.
    destruct Hp as (E & _).
    bind_inv H as u' w5 Hi. unfold ret in H. done_inv H.
    destruct pos; unfold modify_il, modify in Hi; done_inv Hi;
      cbn [il set_il]; rewrite E; cbn [il set_il]; rewrite Hil;
      now destruct (il w0).
Qed.

(** X8. On a well-formed list with dense indices, removing the entry that
    [add_entry] has just created restores the image list exactly: the
    entries, their order, their indices and the size counter are what they
    were before the insertion, under every ordering policy. *)
Theorem remove_undoes_add_entry (X : externals) (src : string)
        (st : option stat_t) (w w1 : world) (e : ptr) :
  registry_wf w ->
  dense (il w) ->
  Z.of_nat (length (images (il w))) < SIZE_MOD ->
  find_source (images (il w)) src = None ->
  add_entry X src st w = Done (Some e) w1 ->
  exists w2, imglist_remove e w1 = Done tt w2 /\ il w2 = il w.
Proof.
  intros (_ & Ha) (Hs & Hd) Hb F E.
  pose proof (add_entry_frame _ _ _ _ _ _ E) as Fr.
  destruct (add_entry_new _ _ _ _ _ _ F E)
    as (entry & rest & Hh & _ & Hae & _ & _ & _ & Hi).
  assert (Hfresh : ~ In (addr entry) (map addr (images (il w)))).
  { rewrite Hh in Ha. cbn [pending] in Ha. apply NoDup_remove_2 in Ha.
    rewrite Hae. intros Hin. apply Ha, in_or_app. now left. }
  assert (Hrem : IList.remove (images (il w1)) e = images (il w)).
  { rewrite <- Hae. destruct Hi as [ (p & _ & Hi) | Hi ]; rewrite Hi.
    - now apply remove_insert.
    - now apply remove_append. }
  unfold imglist_remove, bind, modify_il, modify. rewrite reindex_run.
  eexists. split; [ reflexivity | ].
  cbn [il set_il images set_images]. rewrite Hrem.
  change 0 with (Z.of_nat 0). rewrite reindex_from_dense by (simpl; assumption).
  cbn [fst snd]. rewrite Fr. cbn [Nat.add]. rewrite <- Hs.
  now destruct (il w).
Qed.

Lemma w_three_dense : dense (il Demo.w_three).
Proof. split; reflexivity. Qed.

(** [Demo.w_three] after the insertion of one more file. *)
Definition w_four : world :=
  match add_entry Demo.env "/pics/c.png" None Demo.w_three with
  | Done _ v => v
  | Fault _ => Demo.w_three
  end.

Lemma remove_undoes_add_entry_witness :
  add_entry Demo.env "/pics/c.png" None Demo.w_three = Done (Some 1000) w_four
  /\ exists w2, imglist_remove 1000 w_four = Done tt w2
                /\ il w2 = il Demo.w_three.
Proof.
  assert (E : add_entry Demo.env "/pics/c.png" None Demo.w_three
              = Done (Some 1000) w_four) by (vm_compute; reflexivity).
  split; [ exact E | ].
  apply (remove_undoes_add_entry Demo.env "/pics/c.png" None Demo.w_three
           w_four 1000 w_three_wf w_three_dense);
    [ vm_compute; reflexivity | reflexivity | exact E ].
Defined.

Lemma find_source_reindex (l : list image) (sz : Z) (s : string) :
  find_source (snd (reindex_from sz l)) s = find_source l s.
Proof.
  revert sz. induction l as [ | x t IH ]; intros sz; [ reflexivity | ].
  simpl. specialize (IH (to_size_t (sz + 1))).
  destruct (reindex_from (to_size_t (sz + 1)) t). simpl in *.
  now rewrite IH.
Qed.

Lemma streq_eq (a b : string) : streq a b = true -> a = b.
Proof. unfold streq. apply String.eqb_eq. Qed.

(** Looking up after unlinking the node a lookup has found. *)
Lemma find_source_remove (l : list image) (src : string) (p : ptr) :
  NoDup (map source l) ->
  NoDup (map addr l) ->
  find_source l src = Some p ->
  find_source (IList.remove l p) src = None
  /\ (forall s, s <> src ->
        find_source (IList.remove l p) s = find_source l s).
Proof.
  induction l as [ | x t IH ]; simpl; [ discriminate | ].
  intros Hs Ha. inversion Hs as [ | a m Hsn Hsd ]; subst.
  inversion Ha as [ | a m Han Had ]; subst.
  destruct (streq src (source x)) eqn:E.
  - intros [= <-]. rewrite Z.eqb_refl. apply streq_eq in E. subst src. split.
    + destruct (find_source t (source x)) as [ q | ] eqn:F; [ | reflexivity ].
      exfalso. apply Hsn. clear - F.
      induction t as [ | y t IH ]; simpl in *; [ discriminate | ].
      destruct (streq (source x) (source y)) eqn:E;
        [ left; symmetry; now apply streq_eq | right; now apply IH ].
    + intros s Hne. destruct (streq s (source x)) eqn:E2; [ | reflexivity ].
      apply streq_eq in E2. contradiction.
  - intros F. pose proof (find_source_In _ _ _ F) as Hin.
    destruct (addr x =? p) eqn:Ep; [ apply Z.eqb_eq in Ep; subst p; contradiction | ].
    destruct (IH Hsd Had F) as (I1 & I2). simpl. rewrite E. split; [ exact I1 | ].
    intros s Hne. destruct (streq s (source x)); [ reflexivity | now apply I2 ].
Qed.

(** X9. On a well-formed list, after [imglist_remove] of the entry that
    [imglist_find] returns for a source, that source is no longer found,
    every other source is found at the entry it was found at before, and
    the indices are dense again. *)
Theorem remove_then_find (w : world) (src : string) (p : ptr) :
  registry_wf w ->
  Z.of_nat (length (images (il w))) < SIZE_MOD ->
  imglist_find src w = Done (Some p) w ->
  exists w',
    imglist_remove p w = Done tt w'
    /\ imglist_find src w' = Done None w'
    /\ (forall s, s <> src -> exists r,
          imglist_find s w = Done r w /\ imglist_find s w' = Done r w')
    /\ dense (il w')
    /\ S (length (images (il w'))) = length (images (il w)).
Proof.
  intros (Hs & Ha) Hb E. unfold imglist_find, gets in E.
  injection E as F. apply NoDup_app_remove_r in Ha.
  destruct (find_source_remove _ _ _ Hs Ha F) as (R1 & R2).
  pose proof (remove_length _ _ (find_source_In _ _ _ F)) as Hlen.
  unfold imglist_remove, bind, modify_il, modify. rewrite reindex_run.
  eexists. split; [ reflexivity | ].
  unfold imglist_find, gets. cbn [il set_il images set_images set_size].
  split; [ now rewrite find_source_reindex, R1 | ].
  split; [ | split ].
  - intros s Hne. eexists. split; [ reflexivity | ].
    now rewrite find_source_reindex, R2.
  - destruct (reindex_from_spec (IList.remove (images (il w)) p) 0)
      as (I1 & I2 & _); [ simpl; lia | ].
    change (Z.of_nat 0) with 0 in *.
    unfold dense, set_size, set_images. cbn [size images].
    rewrite reindex_from_length. split; assumption.
  - unfold set_size, set_images. cbn [images].
    now rewrite reindex_from_length.
Qed.

Lemma remove_then_find_witness :
  exists w',
    imglist_remove 2 Demo.w_three = Done tt w'
    /\ imglist_find "/pics/b.png" w' = Done None w'
    /\ imglist_find "/pics/d.png" w' = Done (Some 3) w'.
Proof.
  destruct (remove_then_find Demo.w_three "/pics/b.png" 2 w_three_wf)
    as (w' & H1 & H2 & H3 & _); [ vm_compute; reflexivity | reflexivity | ].
  exists w'. split; [ exact H1 | ]. split; [ exact H2 | ].
  destruct (H3 "/pics/d.png") as (r & Hr & Hr'); [ discriminate | ].
  vm_compute in Hr. injection Hr as <-. exact Hr'.
Defined.

(** ** Events *)

(** [on_fsevent] around a [switch] that completes. *)
Lemma on_fsevent_run (X : externals) (ty : fsevent) (path : string)
      (c : ascii) (w w1 : world) :
  last_char path = Some c ->
  fsevent_body X ty path (Ascii.eqb c "/")
               (set_il (set_lock true (il w)) w) = Done tt w1 ->
  on_fsevent X ty path w
  = Done tt (set_il (set_lock false
                       (set_size (fst (reindex_from 0 (images (il w1))))
                          (set_images (snd (reindex_from 0 (images (il w1))))
                                      (il w1))))
                    w1).
Proof.
  intros L B. unfold on_fsevent. cbn [fsevent_statements sequence]. rewrite L.
  unfold bind at 1. unfold imglist_lock, modify_il, modify.
  unfold bind at 1. rewrite B. unfold bind. rewrite reindex_run.
  reflexivity.
Qed.

(** X10. A "remove" event for a file that the list holds: the handler
    notifies the observers of the entry, unlinks it, and leaves a list in
    which the path is no longer found, the other entries keep their order,
    the indices are dense and the lock is free.  Nothing else is notified. *)
Theorem fsevent_remove_tracked (X : externals) (path : string) (c : ascii)
        (w : world) (p : ptr) :
  registry_wf w ->
  Z.of_nat (length (images (il w))) < SIZE_MOD ->
  last_char path = Some c -> c <> "/"%char ->
  find_source (images (il w)) path = Some p ->
  exists w',
    on_fsevent X fsevent_remove path w = Done tt w'
    /\ trace w' = (trace w ++ [Ev_imglist p fsevent_remove])%list
    /\ find_source (images (il w')) path = None
    /\ map addr (images (il w')) = map addr (IList.remove (images (il w)) p)
    /\ dense (il w')
    /\ lock (il w') = false.
Proof.
  intros (Hs & Ha) Hb L Hc F. apply NoDup_app_remove_r in Ha.
  assert (Ec : Ascii.eqb c "/" = false) by now apply Ascii.eqb_neq.
  destruct (find_source_remove _ _ _ Hs Ha F) as (R1 & _).
  pose proof (remove_length _ _ (find_source_In _ _ _ F)) as Hlen.
  erewrite on_fsevent_run; [ | exact L | ].
  2:{ rewrite Ec. unfold fsevent_body, imglist_find, app_on_imglist,
        imglist_remove, emit, modify_il, modify, bind, gets.
      cbn [il set_il images set_lock]. rewrite F. rewrite reindex_run.
      reflexivity. }
  eexists. split; [ reflexivity | ].
  cbn [il set_il images set_images set_size set_lock trace set_trace lock size].
  split; [ reflexivity | ].
  split; [ now rewrite !find_source_reindex | ].
  split; [ now rewrite !reindex_from_addr | ].
  split; [ | reflexivity ].
  set (l1 := snd (reindex_from 0 (IList.remove (images (il w)) p))).
  assert (L1 : length l1 = length (IList.remove (images (il w)) p))
    by apply reindex_from_length.
  destruct (reindex_from_spec l1 0) as (I1 & I2 & _); [ simpl; lia | ].
  change (Z.of_nat 0) with 0 in *.
  unfold dense. cbn [size images set_lock set_size set_images].
  rewrite reindex_from_length. split; assumption.
Qed.

Lemma fsevent_remove_tracked_witness :
  exists w',
    on_fsevent Demo.env fsevent_remove "/pics/b.png" Demo.w_three = Done tt w'
    /\ trace w' = [Ev_imglist 2 fsevent_remove]
    /\ map source (images (il w')) = ["/pics/a.png"; "/pics/d.png"].
Proof.
  destruct (fsevent_remove_tracked Demo.env "/pics/b.png" "g" Demo.w_three 2
              w_three_wf) as (w' & H1 & H2 & _);
    [ vm_compute; reflexivity | reflexivity | discriminate | reflexivity | ].
  exists w'. split; [ exact H1 | ]. split; [ exact H2 | ].
  vm_compute in H1. injection H1 as <-. reflexivity.
Defined.

(** The events the handler has nothing to do for. *)
Definition passes_by (ty : fsevent) (path : string) (c : ascii) (w : world)
  : Prop :=
  match ty with
  | fsevent_modify => True
  | fsevent_remove =>
      c = "/"%char \/ find_source (images (il w)) path = None
  | fsevent_create =>
      (c = "/"%char /\ recursive (il w) = false)
      \/ (c <> "/"%char
          /\ forall s, fs_stat (fsroot w) path = Some s -> S_ISREG s = false)
  end.

(** X11. Events the handler ignores.  A "modify" event, a "remove" event
    for a directory or for a path the list does not hold, a "create" event
    for a directory when directories are not read recursively, and a
    "create" event for a path that is no regular file leave every entry in
    place: the list is only renumbered, nothing is allocated, and the only
    notification is the one of a "modify" event for a file the list holds. *)
Theorem fsevent_passes_by (X : externals) (ty : fsevent) (path : string)
        (c : ascii) (w : world) :
  last_char path = Some c ->
  passes_by ty path c w ->
  exists w',
    on_fsevent X ty path w = Done tt w'
    /\ images (il w') = snd (reindex_from 0 (images (il w)))
    /\ heap w' = heap w
    /\ lock (il w') = false
    /\ trace w'
       = (trace w
          ++ match ty, Ascii.eqb c "/", find_source (images (il w)) path with
             | fsevent_modify, false, Some p => [Ev_imglist p fsevent_modify]
             | _, _, _ => []
             end)%list.
Proof.
  intros L P.
  assert (exists t,
             fsevent_body X ty path (Ascii.eqb c "/")
                          (set_il (set_lock true (il w)) w)
             = Done tt (set_trace (trace w ++ t)%list
                                  (set_il (set_lock true (il w)) w))
             /\ t = match ty, Ascii.eqb c "/", find_source (images (il w)) path with
                    | fsevent_modify, false, Some p => [Ev_imglist p fsevent_modify]
                    | _, _, _ => []
                    end) as (t & B & Ht).
  { assert (Hnop : forall v : world, Done tt v = Done tt (set_trace (trace v ++ []) v))
      by (intros [ ? ? ? ? ? ? ]; unfold set_trace; cbn; now rewrite app_nil_r).
    unfold fsevent_body, imglist_find, notify, app_on_imglist, emit, modify,
      stat, bind, gets, ret.
    destruct ty; cbn [passes_by] in P;
      cbn [il set_il images set_lock recursive fsroot].
    - destruct P as [ (-> & R) | (Hc & Hst) ].
      + rewrite Ascii.eqb_refl. cbn [il set_il images set_lock recursive fsroot].
        rewrite R.
        exists []; split; [ exact (Hnop _) | reflexivity ].
      + apply Ascii.eqb_neq in Hc. rewrite Hc.
        cbn [il set_il images set_lock recursive fsroot].
        destruct (fs_stat (fsroot w) path) as [ s | ] eqn:St.
        * rewrite (Hst s eq_refl). exists []; split; [ exact (Hnop _) | reflexivity ].
        * exists []; split; [ exact (Hnop _) | reflexivity ].
    - destruct (Ascii.eqb c "/"); [ exists []; split; [ exact (Hnop _) | reflexivity ] | ].
      cbn [il set_il images set_lock recursive fsroot].
      destruct (find_source (images (il w)) path) as [ q | ].
      * exists [Ev_imglist q fsevent_modify]. split; reflexivity.
      * exists []; split; [ exact (Hnop _) | reflexivity ].
    - destruct (Ascii.eqb c "/") eqn:Ec;
        [ exists []; split; [ exact (Hnop _) | reflexivity ] | ].
      destruct P as [ -> | F ]; [ now rewrite Ascii.eqb_refl in Ec | ].
      cbn [il set_il images set_lock recursive fsroot]. rewrite F. exists []; split; [ exact (Hnop _) | reflexivity ]. }
  erewrite on_fsevent_run; [ | exact L | exact B ].
  eexists. split; [ reflexivity | ].
  cbn [il set_il images set_images set_size set_lock trace set_trace lock heap].
  rewrite Ht. repeat split.
Qed.

Lemma fsevent_passes_by_witness :
  exists w',
    on_fsevent Demo.env fsevent_modify "/pics/b.png" Demo.w_three = Done tt w'
    /\ images (il w') = images (il Demo.w_three)
    /\ trace w' = [Ev_imglist 2 fsevent_modify].
Proof.
  destruct (fsevent_passes_by Demo.env fsevent_modify "/pics/b.png" "g"
              Demo.w_three) as (w' & H1 & H2 & _ & _ & H3);
    [ reflexivity | exact I | ].
  exists w'. split; [ exact H1 | ]. split; [ rewrite H2; reflexivity | exact H3 ].
Defined.

(** ** The worker as a whole (gallery.c) *)

(** What identifies an entry, whatever the worker does to it. *)
Definition tag (e : image) : ptr * string := (addr e, source e).

(** [subseq l k]: [l] is [k] with some elements left out. *)
Inductive subseq {B : Type} : list B -> list B -> Prop :=
| subseq_nil : subseq [] []
| subseq_skip (x : B) (l k : list B) : subseq l k -> subseq l (x :: k)
| subseq_keep (x : B) (l k : list B) : subseq l k -> subseq (x :: l) (x :: k).

Lemma subseq_refl {B} (l : list B) : subseq l l.
Proof. induction l; [ apply subseq_nil | now apply subseq_keep ]. Qed.

Lemma subseq_trans {B} (a b c : list B) :
  subseq a b -> subseq b c -> subseq a c.
Proof.
  intros Hab Hbc. revert a Hab.
  induction Hbc as [ | x l k H IH | x l k H IH ]; intros a Hab.
  - exact Hab.
  - apply subseq_skip. now apply IH.
  - inversion Hab; subst.
    + apply subseq_skip. now apply IH.
    + apply subseq_keep. now apply IH.
Qed.

Lemma subseq_incl {B} (l k : list B) : subseq l k -> incl l k.
Proof.
  induction 1 as [ | x l k H IH | x l k H IH ]; intros y Hy.
  - exact Hy.
  - right. now apply IH.
  - destruct Hy as [ -> | Hy ]; [ now left | right; now apply IH ].
Qed.

Lemma subseq_length {B} (l k : list B) :
  subseq l k -> (length l <= length k)%nat.
Proof. induction 1; simpl; lia. Qed.

Lemma subseq_NoDup {B} (l k : list B) : subseq l k -> NoDup k -> NoDup l.
Proof.
  induction 1 as [ | x l k H IH | x l k H IH ]; intros Hk.
  - exact Hk.
  - inversion Hk; subst. now apply IH.
  - inversion Hk; subst. apply NoDup_cons; [ | now apply IH ].
    intros Hx. now apply (subseq_incl _ _ H) in Hx.
Qed.

Lemma subseq_remove (l : list image) (p : ptr) :
  subseq (map tag (IList.remove l p)) (map tag l).
Proof.
  induction l as [ | x t IH ]; simpl; [ constructor | ].
  destruct (addr x =? p); simpl.
  - apply subseq_skip. apply subseq_refl.
  - now apply subseq_keep.
Qed.

Lemma reindex_from_tag (l : list image) (sz : Z) :
  map tag (snd (reindex_from sz l)) = map tag l.
Proof.
  revert sz. induction l as [ | x t IH ]; intros sz; simpl; [ reflexivity | ].
  specialize (IH (to_size_t (sz + 1))).
  destruct (reindex_from (to_size_t (sz + 1)) t) as [ n t' ]. simpl in *.
  now rewrite IH.
Qed.

Lemma update_tag (l : list image) (p : ptr) (f : image -> image) :
  (forall e, tag (f e) = tag e) ->
  map tag (IList.update l p f) = map tag l.
Proof.
  intros Hf. induction l as [ | x t IH ]; simpl; [ reflexivity | ].
  destruct (addr x =? p); simpl; [ now rewrite Hf | now rewrite IH ].
Qed.

Lemma update_node_tag (l : list image) (o : ptr) (e e' : image) :
  IList.node l o = Some e -> tag e' = tag e ->
  map tag (IList.update l o (fun _ => e')) = map tag l.
Proof.
  unfold IList.node. intros Hn He.
  induction l as [ | x t IH ]; simpl in *; [ reflexivity | ].
  destruct (addr x =? o); simpl.
  - injection Hn as ->. now rewrite He.
  - now rewrite IH.
Qed.

Lemma image_update_tag (d s : image) : tag (image_update d s) = tag d.
Proof.
  unfold image_update, tag.
  now destruct (image_has_frames s), (image_has_thumb s).
Qed.

Lemma find_source_node (l : list image) (src : string) (o : ptr) :
  find_source l src = Some o ->
  exists e, IList.node l o = Some e /\ addr e = o.
Proof.
  unfold IList.node.
  induction l as [ | x t IH ]; simpl; [ discriminate | ].
  destruct (addr x =? o) eqn:Ea.
  - intros _. exists x. now apply Z.eqb_eq in Ea.
  - destruct (streq src (source x)).
    + intros [= <-]. now rewrite Z.eqb_refl in Ea.
    + exact IH.
Qed.

Definition within (K : list (ptr * string)) (w : world) : Prop :=
  subseq (map tag (images (il w))) K.

Lemma image_thumb_create_tag (X : externals) (e e' : image) (sz : Z)
      (fill : bool) (aa : Z) (b : bool) :
  image_thumb_create X e sz fill aa = (b, e') -> tag e' = tag e.
Proof.
  unfold image_thumb_create.
  destruct (frames e) as [ | f fs ]; [ now intros [= _ <-] | ].
  destruct (thumb_scale X f sz fill aa); now intros [= _ <-].
Qed.


(** The first critical section: it completes, releases the lock, and at
    most gives the live entry a thumbnail. *)
Lemma loader_check_run (X : externals) (it : image) (w : world) :
  exists f w',
    loader_check X it w = Done f w'
    /\ gl w' = gl w /\ fsroot w' = fsroot w /\ heap w' = heap w
    /\ lock (il w') = false
    /\ size (il w') = size (il w)
    /\ map tag (images (il w')) = map tag (images (il w))
    /\ (loader_active (gl w) = false -> f = Stop)
    /\ (f = Proceed -> images (il w') = images (il w) /\ trace w' = trace w).
Proof.
  destruct w as [ c g fs h en t ].
  unfold loader_check, imglist_lock, imglist_unlock, imglist_find, deref,
    app_redraw, emit, modify_il, modify, gets, ret, bind.
  cbn [gl il set_il images set_lock size].
  destruct (loader_active g); cbn [negb gl il set_il images set_lock size].
  2:{ eexists _, _. split; [ reflexivity | ]. cbn. now repeat split. }
  destruct (find_source (images c) (source it)) as [ o | ] eqn:Ef.
  2:{ eexists _, _. split; [ reflexivity | ]. cbn.
      repeat split; discriminate. }
  destruct (find_source_node _ _ _ Ef) as (e & Hn & Ha).
  cbn [gl il set_il images set_lock size]. rewrite Hn.
  destruct (image_has_thumb e).
  { eexists _, _. split; [ reflexivity | ]. cbn. repeat split; discriminate. }
  destruct (image_thumb_create X e (thumb_size g) (thumb_fill g) (thumb_aa g))
    as [ created e' ] eqn:Ec.
  destruct created.
  - eexists _, _. split; [ reflexivity | ]. cbn.
    repeat split; try discriminate.
    apply (update_node_tag _ _ e); [ exact Hn | ].
    now apply image_thumb_create_tag in Ec.
  - eexists _, _. split; [ reflexivity | ]. cbn. repeat split; discriminate.
Qed.

Lemma pstore_load_pure (X : externals) (img : image) (w w' : world)
      (r : bool * image) :
  pstore_load X img w = Done r w' ->
  w' = w /\ tag (snd r) = tag img.
Proof.
  unfold pstore_load. intros H. bind_inv H as p w1 Hp.
  apply pstore_path_pure in Hp. subst w1.
  destruct p as [ path | ]; [ | now done_inv H ].
  unfold stat, gets, bind, ret, image_thumb_load in H.
  destruct (fs_stat (fsroot w) (source img)); [ | now done_inv H ].
  destruct (fs_stat (fsroot w) path); [ | now done_inv H ].
  destruct (_ >? _); [ now done_inv H | ].
  destruct (thumb_read X path); now done_inv H.
Qed.

Lemma pstore_save_frame (X : externals) (img : image) (w w' : world) :
  pstore_save X img w = Done tt w' ->
  il w' = il w /\ gl w' = gl w /\ fsroot w' = fsroot w /\ heap w' = heap w.
Proof.
  unfold pstore_save. destruct (negb _); [ intros H; now done_inv H | ].
  intros H. bind_inv H as p w1 Hp. apply pstore_path_pure in Hp. subst w1.
  destruct p as [ path | ]; [ | now done_inv H ].
  destruct (forallb _ _); [ | now done_inv H ].
  unfold image_thumb_save, emit, modify in H.
  destruct (thumbnail img); now done_inv H.
Qed.

(** The loading step leaves the list alone, and the entry it works on
    keeps its source. *)
Lemma loader_load_frame (X : externals) (it it' : image) (w w' : world) :
  loader_load X it w = Done it' w' ->
  il w' = il w /\ gl w' = gl w /\ fsroot w' = fsroot w
  /\ source it' = source it.
Proof.
  unfold loader_load. intros H. bind_inv H as g w0 Hg. done_inv Hg.
  bind_inv H as hit w1 Hh.
  assert (w1 = w0 /\ tag (snd hit) = tag it) as (-> & Ht).
  { destruct (thumb_pstore (gl w0)).
    - now apply pstore_load_pure in Hh.
    - now done_inv Hh. }
  destruct hit as [ hit it1 ]. cbn [snd] in Ht.
  assert (Hs1 : source it1 = source it) by now injection Ht.
  destruct hit; [ now done_inv H | ].
  bind_inv H as r w1 El. destruct r as [ status it2 ].
  destruct (image_load_source _ _ _ _ _ _ El) as (Hw & _ & Hs2 & _).
  destruct (heap_only_parts _ _ Hw) as (Hil & Hgl & Hfs & _).
  destruct status; try (done_inv H; repeat split; congruence).
  destruct (image_thumb_create X it2 _ _ _) as [ created it3 ] eqn:Ec.
  assert (Hs3 : source it3 = source it2).
  { apply image_thumb_create_tag in Ec. now injection Ec. }
  bind_inv H as u w2 Hsv. done_inv H. cbn [source set_frames].
  assert (il w' = il w1 /\ gl w' = gl w1 /\ fsroot w' = fsroot w1)
    as (? & ? & ?).
  { destruct (created && thumb_pstore (gl w0)); [ | now done_inv Hsv ].
    destruct (frames it3) as [ | f0 fr ]; [ discriminate | ].
    destruct (_ && _); [ | now done_inv Hsv ].
    destruct u. apply pstore_save_frame in Hsv. tauto. }
  repeat split; congruence.
Qed.

Lemma within_tag (K : list (ptr * string)) (w w' : world) :
  map tag (images (il w')) = map tag (images (il w)) ->
  within K w -> within K w'.
Proof. unfold within. now intros ->. Qed.

Lemma within_commit (K : list (ptr * string)) (it : image) (w w' : world)
      (b : bool) :
  within K w -> loader_commit it w = Done b w' -> within K w'.
Proof.
  intros HK E. destruct (loader_commit_run it w) as (v & E' & _ & _ & Hi & _).
  rewrite E' in E. done_inv E. unfold within. rewrite Hi.
  destruct (loader_active (gl w)); [ | exact HK ].
  destruct (find_source _ _) as [ o | ]; [ | exact HK ].
  destruct (image_has_thumb it).
  - rewrite update_tag; [ exact HK | ]. intros e. apply image_update_tag.
  - rewrite reindex_from_tag.
    eapply subseq_trans; [ apply subseq_remove | exact HK ].
Qed.

Lemma within_item (X : externals) (others : M unit) (K : list (ptr * string))
      (it : image) (w w' : world) (b : bool) :
  (forall v v', within K v -> others v = Done tt v' -> within K v') ->
  within K w -> loader_item X others it w = Done b w' -> within K w'.
Proof.
  intros Ho HK E. unfold loader_item in E. bind_inv E as f w1 Ec.
  destruct (loader_check_run X it w) as (f' & v & Ec' & _ & _ & _ & _ & _ & Ht & _).
  rewrite Ec' in Ec. done_inv Ec.
  assert (H1 : within K w1) by now apply (within_tag K w).
  destruct f; try (now done_inv E).
  bind_inv E as u1 w2 E1. destruct u1. apply (Ho _ _ H1) in E1.
  bind_inv E as it' w3 E2. apply loader_load_frame in E2.
  destruct E2 as (Hil & _).
  assert (H3 : within K w3) by (apply (within_tag K w2); congruence).
  bind_inv E as u2 w4 E3. destruct u2. apply (Ho _ _ H3) in E3.
  now apply (within_commit K it' w4 w' b).
Qed.

(** X12. The worker only takes entries out.  Whatever the other thread
    does while the worker does not hold the lock, as long as it does not
    itself put entries into the list or move them, the entries left when
    the loop is over are entries that were there, with the address and the
    source they had, in the order they had: the loop inserts nothing,
    moves nothing, and never changes the source of an entry. *)
Theorem worker_only_removes (X : externals) (others : M unit)
        (K : list (ptr * string)) (queue : list image) (w w' : world) :
  (forall v v', subseq (map tag (images (il v))) K ->
                others v = Done tt v' ->
                subseq (map tag (images (il v'))) K) ->
  subseq (map tag (images (il w))) K ->
  loader_loop X others queue w = Done tt w' ->
  subseq (map tag (images (il w'))) K.
Proof.
  intros Ho. revert w. induction queue as [ | it rest IH ]; intros w HK E.
  - now done_inv E.
  - cbn [loader_loop] in E. bind_inv E as go w1 E1.
    apply (within_item X others K it w w1 go Ho HK) in E1.
    destruct go; [ now apply (IH w1) | now done_inv E ].
Qed.

Lemma within_remove (K : list (ptr * string)) (p : ptr) (v v' : world) :
  subseq (map tag (images (il v))) K ->
  imglist_remove p v = Done tt v' ->
  subseq (map tag (images (il v'))) K.
Proof.
  intros HK E. unfold imglist_remove, modify_il, modify, bind in E.
  rewrite reindex_run in E. done_inv E. cbn [il set_il images set_images set_size].
  rewrite reindex_from_tag.
  eapply subseq_trans; [ apply subseq_remove | exact HK ].
Qed.

(** On a list of three entries the other thread removes the second one
    while the worker is busy with the first. *)
Lemma worker_only_removes_witness :
  exists w',
    loader_loop Demo.env (imglist_remove 2)
                [Demo.queued_file; Demo.entry 502 "/pics/b.png" 0]
                Demo.w_three = Done tt w'
    /\ subseq (map tag (images (il w')))
              (map tag (images (il Demo.w_three))).
Proof.
  eexists. split; [ vm_compute; reflexivity | ].
  match goal with
  | |- subseq (map tag (images (il ?v))) _ =>
      apply (worker_only_removes Demo.env (imglist_remove 2)
               (map tag (images (il Demo.w_three)))
               [Demo.queued_file; Demo.entry 502 "/pics/b.png" 0]
               Demo.w_three v)
  end.
  - intros v v'. apply within_remove.
  - apply subseq_refl.
  - vm_compute. reflexivity.
Defined.

(** ** The path of a stored thumbnail (gallery.c) *)

Lemma string_length_app (a b : string) :
  String.length (a ++ b) = (String.length a + String.length b)%nat.
Proof. induction a as [ | c a IH ]; simpl; [ reflexivity | now rewrite IH ]. Qed.

Lemma dec_digit (z : Z) : 0 <= z < 10 -> String.length (dec z) = 1%nat.
Proof.
  intros H.
  assert (z = 0 \/ z = 1 \/ z = 2 \/ z = 3 \/ z = 4 \/ z = 5 \/ z = 6
          \/ z = 7 \/ z = 8 \/ z = 9) as Hz by lia.
  repeat (destruct Hz as [ -> | Hz ]; [ reflexivity | ]). now subst.
Qed.

(** With an anti-aliasing mode of one digit the postfix has seven
    characters: a dot, four hexadecimal digits, the fill flag, the mode. *)
Lemma thumb_postfix_length (g : gallery) :
  0 <= thumb_aa g < 10 -> strlen (thumb_postfix g) = 7.
Proof.
  intros H. unfold strlen, thumb_postfix, hex4.
  cbn [append String.length]. rewrite string_length_app, (dec_digit _ H).
  now destruct (thumb_fill g).
Qed.

Ltac none_case :=
  exists None;
  split; [ reflexivity
         | split; [ first [ discriminate | intros; reflexivity ]
                  | discriminate ] ].

Definition aa_one_digit (w : world) : Prop := 0 <= thumb_aa (gl w) < 10.

Lemma pstore_path_run (X : externals) (src : string) (w : world) :
  aa_one_digit w ->
  exists r,
    pstore_path X src w = Done r w
    /\ (streq src LDRSRC_STDIN || has_prefix LDRSRC_EXEC src = true -> r = None)
    /\ (forall p, r = Some p ->
          strlen p + 1 < PATH_MAX
          /\ exists dir base,
               (fs_envpath X "XDG_CACHE_HOME" "/swayimg" = Some dir
                \/ fs_envpath X "XDG_CACHE_HOME" "/swayimg" = None
                   /\ fs_envpath X "HOME" "/.cache/swayimg" = Some dir)
               /\ fs_append_path X (Some src) dir PATH_MAX = Some base
               /\ p = (base ++ thumb_postfix (gl w))%string).
Proof.
  intros Haa. unfold pstore_path, bind, gets, ret, raise.
  destruct (_ || _) eqn:Es.
  { none_case. }
  destruct (fs_envpath X "XDG_CACHE_HOME" "/swayimg") as [ d1 | ] eqn:E1.
  - destruct (fs_append_path X (Some src) d1 PATH_MAX) as [ base | ] eqn:Eb.
    2:{ none_case. }
    rewrite (thumb_postfix_length _ Haa).
    destruct ((7 <=? 0) || (PATH_MAX <=? strlen base + 7 + 1)) eqn:Ec.
    { none_case. }
    cbn [Z.leb Z.compare]. cbv iota.
    eexists. split; [ reflexivity | ]. split; [ discriminate | ].
    intros p [= <-]. split.
    + unfold strlen in *. rewrite string_length_app.
      pose proof (thumb_postfix_length _ Haa) as Hl. unfold strlen in Hl.
      apply orb_false_iff in Ec. destruct Ec as (_ & Ec).
      apply Z.leb_gt in Ec. lia.
    + exists d1, base. repeat split; auto.
  - destruct (fs_envpath X "HOME" "/.cache/swayimg") as [ d2 | ] eqn:E2.
    2:{ none_case. }
    destruct (fs_append_path X (Some src) d2 PATH_MAX) as [ base | ] eqn:Eb.
    2:{ none_case. }
    rewrite (thumb_postfix_length _ Haa).
    destruct ((7 <=? 0) || (PATH_MAX <=? strlen base + 7 + 1)) eqn:Ec.
    { none_case. }
    cbn [Z.leb Z.compare]. cbv iota.
    eexists. split; [ reflexivity | ]. split; [ discriminate | ].
    intros p [= <-]. split.
    + unfold strlen in *. rewrite string_length_app.
      pose proof (thumb_postfix_length _ Haa) as Hl. unfold strlen in Hl.
      apply orb_false_iff in Ec. destruct Ec as (_ & Ec).
      apply Z.leb_gt in Ec. lia.
    + exists d2, base. repeat split; auto.
Qed.

(** X13. The path of a stored thumbnail fits its buffer.  With an
    anti-aliasing mode of one digit, [pstore_path] completes without
    touching the world; it gives no path for the standard input and for
    the output of a command; and a path it gives is the cache directory of
    the environment, extended by the source and the seven characters of the
    postfix, and with its final null byte it leaves room in the [PATH_MAX]
    bytes of the buffer. *)
Theorem pstore_path_fits (X : externals) (src : string) (w : world) :
  0 <= thumb_aa (gl w) < 10 ->
  exists r,
    pstore_path X src w = Done r w
    /\ (streq src LDRSRC_STDIN || has_prefix LDRSRC_EXEC src = true -> r = None)
    /\ (forall p, r = Some p ->
          strlen p + 1 < PATH_MAX
          /\ strlen (thumb_postfix (gl w)) = 7
          /\ exists dir base,
               (fs_envpath X "XDG_CACHE_HOME" "/swayimg" = Some dir
                \/ fs_envpath X "XDG_CACHE_HOME" "/swayimg" = None
                   /\ fs_envpath X "HOME" "/.cache/swayimg" = Some dir)
               /\ fs_append_path X (Some src) dir PATH_MAX = Some base
               /\ p = (base ++ thumb_postfix (gl w))%string).
Proof.
  intros Haa. destruct (pstore_path_run X src w Haa) as (r & E & Hs & Hp).
  exists r. split; [ exact E | ]. split; [ exact Hs | ].
  intros p Hr. destruct (Hp p Hr) as (Hl & Hd).
  split; [ exact Hl | ]. split; [ now apply thumb_postfix_length | exact Hd ].
Qed.

Lemma pstore_path_fits_witness :
  0 <= thumb_aa (gl Demo.w_three) < 10
  /\ exists r,
       pstore_path Demo.env "/pics/a.png" Demo.w_three = Done r Demo.w_three
       /\ (streq "/pics/a.png" LDRSRC_STDIN
           || has_prefix LDRSRC_EXEC "/pics/a.png" = true -> r = None)
       /\ (forall p, r = Some p ->
             strlen p + 1 < PATH_MAX
             /\ strlen (thumb_postfix (gl Demo.w_three)) = 7
             /\ exists dir base,
                  (fs_envpath Demo.env "XDG_CACHE_HOME" "/swayimg" = Some dir
                   \/ fs_envpath Demo.env "XDG_CACHE_HOME" "/swayimg" = None
                      /\ fs_envpath Demo.env "HOME" "/.cache/swayimg" = Some dir)
                  /\ fs_append_path Demo.env (Some "/pics/a.png") dir PATH_MAX
                     = Some base
                  /\ p = (base ++ thumb_postfix (gl Demo.w_three))%string).
Proof.
  assert (H : 0 <= thumb_aa (gl Demo.w_three) < 10) by (cbn; lia).
  split; [ exact H | ].
  exact (pstore_path_fits Demo.env "/pics/a.png" Demo.w_three H).
Defined.

(** ** The key of a stored thumbnail (gallery.c) *)

Definition hex_val (c : ascii) : Z :=
  match c with
  | "0" => 0 | "1" => 1 | "2" => 2 | "3" => 3 | "4" => 4 | "5" => 5
  | "6" => 6 | "7" => 7 | "8" => 8 | "9" => 9 | "a" => 10 | "b" => 11
  | "c" => 12 | "d" => 13 | "e" => 14 | "f" => 15 | _ => 0
  end%char.

Lemma hex_val_digit (n : Z) : 0 <= n < 16 -> hex_val (hex_digit n) = n.
Proof.
  intros H. rewrite <- (Z2Nat.id n) at 2 by lia. unfold hex_digit.
  assert (Hk : (Z.to_nat n < 16)%nat) by lia.
  destruct (Z.to_nat n) as [ | k ]; [ reflexivity | ].
  do 15 (destruct k as [ | k ]; [ reflexivity | ]). lia.
Qed.

Lemma hex4_inj (u v : Z) : hex4 u = hex4 v -> u mod 65536 = v mod 65536.
Proof.
  unfold hex4. intros [= H3 H2 H1 H0].
  apply (f_equal hex_val) in H3, H2, H1, H0.
  pose proof (Z.mod_pos_bound u 65536 eq_refl) as Hu.
  pose proof (Z.mod_pos_bound v 65536 eq_refl) as Hv.
  set (a := u mod 65536) in *. set (b := v mod 65536) in *.
  rewrite !hex_val_digit in H3, H2, H1, H0
    by (Z.to_euclidean_division_equations; lia).
  Z.to_euclidean_division_equations. lia.
Qed.

Lemma to_int_not_nil (z : Z) :
  Z.to_int z <> Decimal.Pos Decimal.Nil /\ Z.to_int z <> Decimal.Neg Decimal.Nil.
Proof.
  split; intros H; pose proof (f_equal Z.of_int H) as H';
    rewrite DecimalZ.of_to in H'; subst z; cbv in H; discriminate H.
Qed.

Lemma dec_inj (a b : Z) : dec a = dec b -> a = b.
Proof.
  unfold dec. intros H.
  apply (f_equal DecimalString.NilZero.int_of_string) in H.
  rewrite !DecimalString.NilZero.isi in H by apply to_int_not_nil.
  injection H as H. apply (f_equal Z.of_int) in H.
  now rewrite !DecimalZ.of_to in H.
Qed.

(** X15. The key of a stored thumbnail.  Two configurations of the gallery
    give the same postfix, and with it the same file for a source, exactly
    when they have the same scaling mode, the same anti-aliasing mode, and
    thumbnail sizes with the same low 16 bits: sizes that differ by a
    multiple of 65536 share their stored thumbnails. *)
Theorem thumb_postfix_key (g1 g2 : gallery) :
  thumb_postfix g1 = thumb_postfix g2
  <-> thumb_size g1 mod 65536 = thumb_size g2 mod 65536
      /\ thumb_fill g1 = thumb_fill g2
      /\ thumb_aa g1 = thumb_aa g2.
Proof.
  unfold thumb_postfix. split.
  - intros H.
    assert (Hh : hex4 (thumb_size g1) = hex4 (thumb_size g2)
                 /\ (dec (if thumb_fill g1 then 1 else 0)
                       ++ dec (thumb_aa g1))%string
                    = (dec (if thumb_fill g2 then 1 else 0)
                         ++ dec (thumb_aa g2))%string).
    { unfold hex4 in *. cbn [append] in H. injection H as H3 H2 H1 H0 Hr.
      split; [ congruence | exact Hr ]. }
    destruct Hh as (Hh & Hr). split; [ now apply hex4_inj | ].
    destruct (thumb_fill g1), (thumb_fill g2); cbn in Hr;
      try discriminate; injection Hr as Hr; apply dec_inj in Hr; now split.
  - intros (Hs & Hf & Ha). rewrite Hf, Ha. unfold hex4. now rewrite Hs.
Qed.

(** ** Navigation between directories (imglist.c) *)

(** The text before the last separator of a source: its directory. *)
Definition dirpart (s : string) : string := substring 0 (delim_len s) s.

Definition other_dir (cur : string) (c : image) : bool :=
  negb (String.eqb (dirpart cur) (dirpart (source c))).

(** The first of the candidates that lies in another directory. *)
Definition first_other (cur : string) (cands : list image) : option ptr :=
  option_map addr (find (other_dir cur) cands).

Lemma strrchr_lt (s : string) (c : ascii) (n : nat) :
  strrchr s c = Some n -> (n < String.length s)%nat.
Proof.
  revert n. induction s as [ | x rest IH ]; intros n; simpl; [ discriminate | ].
  destruct (strrchr rest c) as [ m | ].
  - intros [= <-]. specialize (IH m eq_refl). lia.
  - destruct (Ascii.eqb x c); [ | discriminate ]. intros [= <-]. lia.
Qed.

Lemma delim_len_le (s : string) : (delim_len s <= String.length s)%nat.
Proof.
  unfold delim_len. destruct (strrchr s "/") as [ n | ] eqn:E; [ | lia ].
  apply strrchr_lt in E. lia.
Qed.

Lemma substring_length (s : string) (n : nat) :
  (n <= String.length s)%nat -> String.length (substring 0 n s) = n.
Proof.
  revert n. induction s as [ | x rest IH ]; intros [ | n ]; simpl;
    try reflexivity; try lia.
  intros H. rewrite IH; lia.
Qed.

(** The test of the loop compares the directories. *)
Lemma parent_test (cur it : string) :
  negb (Nat.eqb (delim_len cur) (delim_len it))
  || negb (strncmp_eq cur it (delim_len cur))
  = negb (String.eqb (dirpart cur) (dirpart it)).
Proof.
  unfold strncmp_eq, dirpart.
  destruct (Nat.eqb (delim_len cur) (delim_len it)) eqn:E; cbn [negb orb].
  - apply Nat.eqb_eq in E. now rewrite <- E.
  - symmetry. apply negb_true_iff. apply String.eqb_neq. intros H.
    apply (f_equal String.length) in H.
    rewrite !substring_length in H by apply delim_len_le.
    apply Nat.eqb_neq in E. contradiction.
Qed.

(** [chain l loop fwd img it cands]: the rounds that start at [it] visit
    the entries [cands], one after the other, and then come to the end of
    the list or back to [img]. *)
Fixpoint chain (l : list image) (loop fwd : bool) (img it : ptr)
         (cands : list image) : Prop :=
  match cands with
  | [] => parent_step l loop fwd it = None
          \/ parent_step l loop fwd it = Some img
  | c :: cs =>
      parent_step l loop fwd it = Some (addr c)
      /\ addr c <> img
      /\ IList.node l (addr c) = Some c
      /\ chain l loop fwd img (addr c) cs
  end.

Lemma loop_chain (cur : string) (loop fwd : bool) (img : ptr) (w : world)
      (cands : list image) :
  forall (fuel : nat) (it : ptr),
    chain (images (il w)) loop fwd img it cands ->
    (length cands < fuel)%nat ->
    next_parent_loop fuel img cur (delim_len cur) loop fwd it w
    = Done (first_other cur cands) w.
Proof.
  induction cands as [ | c cs IH ]; intros [ | fuel ] it Hc Hf;
    try (simpl in Hf; lia); cbn [next_parent_loop];
    unfold bind at 1; unfold gets at 1.
  - destruct Hc as [ -> | -> ]; [ reflexivity | ].
    now rewrite Z.eqb_refl.
  - destruct Hc as (-> & Hne & Hn & Hc).
    apply Z.eqb_neq in Hne. rewrite Hne.
    unfold bind, deref. rewrite Hn. rewrite parent_test.
    unfold first_other. cbn [find]. fold (other_dir cur c).
    destruct (other_dir cur c); [ reflexivity | ].
    apply IH; [ exact Hc | simpl in Hf; lia ].
Qed.

(** *** A list cut at one of its nodes *)

Lemma from_split (P R : list image) (x : image) :
  ~ In (addr x) (map addr P) -> IList.from (P ++ x :: R) (addr x) = x :: R.
Proof.
  induction P as [ | p P IH ]; simpl; intros H.
  - now rewrite Z.eqb_refl.
  - destruct (addr p =? addr x) eqn:E.
    + apply Z.eqb_eq in E. tauto.
    + apply IH. tauto.
Qed.

Lemma before_split (P R seen : list image) (x : image) :
  ~ In (addr x) (map addr P) ->
  IList.before (P ++ x :: R) (addr x) seen = (rev P ++ seen)%list.
Proof.
  revert seen. induction P as [ | p P IH ]; simpl; intros seen H.
  - now rewrite Z.eqb_refl.
  - destruct (addr p =? addr x) eqn:E.
    + apply Z.eqb_eq in E. tauto.
    + rewrite IH by tauto. now rewrite <- app_assoc.
Qed.

Lemma NoDup_split (P R : list image) (x : image) :
  NoDup (map addr (P ++ x :: R)) ->
  ~ In (addr x) (map addr P) /\ ~ In (addr x) (map addr R).
Proof.
  rewrite map_app. cbn [map]. intros H. apply NoDup_remove_2 in H.
  rewrite in_app_iff in H. tauto.
Qed.

Lemma next_split (P R : list image) (x : image) :
  NoDup (map addr (P ++ x :: R)) ->
  IList.next (P ++ x :: R) (addr x) = IList.head_ptr R.
Proof.
  intros H. unfold IList.next. rewrite from_split; [ reflexivity | ].
  now apply NoDup_split in H.
Qed.

Lemma prev_split (P R : list image) (x : image) :
  NoDup (map addr (P ++ x :: R)) ->
  IList.prev (P ++ x :: R) (addr x) = IList.head_ptr (rev P).
Proof.
  intros H. unfold IList.prev. rewrite before_split, app_nil_r; [ reflexivity | ].
  now apply NoDup_split in H.
Qed.

Lemma node_split (P R : list image) (x : image) :
  NoDup (map addr (P ++ x :: R)) ->
  IList.node (P ++ x :: R) (addr x) = Some x.
Proof.
  intros H. unfold IList.node. rewrite from_split; [ reflexivity | ].
  now apply NoDup_split in H.
Qed.

Lemma addr_split (l : list image) (p : ptr) :
  In p (map addr l) -> exists P x R, l = (P ++ x :: R)%list /\ addr x = p.
Proof.
  intros H. apply in_map_iff in H. destruct H as (x & Hx & Hin).
  apply in_split in Hin. destruct Hin as (P & R & ->). now exists P, x, R.
Qed.

Lemma node_In (l : list image) (p : ptr) (x : image) :
  IList.node l p = Some x -> In p (map addr l).
Proof.
  unfold IList.node. induction l as [ | y t IH ]; simpl; [ discriminate | ].
  destruct (addr y =? p) eqn:E.
  - apply Z.eqb_eq in E. now left.
  - intros H. right. now apply IH.
Qed.

Lemma last_cons (C : list image) (c x : image) : last (c :: C) x = last C c.
Proof.
  revert c x. induction C as [ | d C IH ]; intros c x; [ reflexivity | ].
  change (last (c :: d :: C) x) with (last (d :: C) x).
  now rewrite !IH.
Qed.

(** *** The walk forward *)

(** Through a run [C] of entries that follow [x]. *)
Lemma chain_path (loop : bool) (img : ptr) (cont : list image)
      (C : list image) :
  forall (l P R : list image) (x : image),
    l = (P ++ x :: C ++ R)%list ->
    NoDup (map addr l) ->
    (forall c, In c C -> addr c <> img) ->
    chain l loop true img (addr (last C x)) cont ->
    chain l loop true img (addr x) (C ++ cont).
Proof.
  induction C as [ | c C IH ]; intros l P R x Hl Hnd Hne Hc.
  - exact Hc.
  - cbn [app chain]. subst l.
    assert (Hl : (P ++ x :: (c :: C) ++ R = (P ++ [x]) ++ c :: C ++ R)%list)
      by now rewrite <- app_assoc.
    split; [ | split; [ | split ] ].
    + unfold parent_step. now rewrite (next_split P _ x Hnd).
    + apply Hne. now left.
    + rewrite Hl in *. now apply node_split.
    + apply (IH _ (P ++ [x])%list R c Hl Hnd).
      * intros d Hd. apply Hne. now right.
      * now rewrite <- last_cons with (x := x).
Qed.

Lemma last_app_cons (A B : list image) (e d : image) :
  last (A ++ e :: B) d = last B e.
Proof.
  revert d. induction A as [ | a A IH ]; intros d.
  - apply last_cons.
  - cbn [app]. rewrite last_cons. apply IH.
Qed.

Lemma next_of_last (l : list image) (d : image) :
  l <> [] -> NoDup (map addr l) -> IList.next l (addr (last l d)) = None.
Proof.
  intros Hne Hnd. rewrite (app_removelast_last d Hne) in Hnd |- * at 1.
  now rewrite (next_split _ [] _ Hnd).
Qed.

Lemma chain_forward (loop : bool) (A B : list image) (e : image) :
  NoDup (map addr (A ++ e :: B)) ->
  chain (A ++ e :: B) loop true (addr e) (addr e)
        (B ++ (if loop then A else [])).
Proof.
  intros Hnd. set (l := (A ++ e :: B)%list) in *.
  assert (Hne : forall c, In c (A ++ B) -> addr c <> addr e).
  { intros c Hc Heq. destruct (NoDup_split A B e Hnd) as (HA & HB).
    rewrite <- Heq in HA, HB. apply in_app_iff in Hc.
    destruct Hc as [ Hc | Hc ]; [ apply HA | apply HB ]; now apply in_map. }
  assert (Hlast : IList.next l (addr (last B e)) = None).
  { rewrite <- (last_app_cons A B e e). apply next_of_last; [ | exact Hnd ].
    subst l. now destruct A. }
  apply (chain_path loop (addr e) _ B l A [] e);
    [ subst l; now rewrite app_nil_r | exact Hnd
    | intros c Hc; apply Hne, in_app_iff; now right | ].
  destruct loop.
  - destruct A as [ | a A' ]; cbn [chain]; unfold parent_step; rewrite Hlast.
    + right. reflexivity.
    + split; [ reflexivity | ]. split; [ apply Hne; now left | ].
      split; [ exact (node_split [] _ a Hnd) | ].
      rewrite <- (app_nil_r A').
      apply (chain_path true (addr e) [] A' l [] (e :: B) a);
        [ reflexivity | exact Hnd
        | intros c Hc; apply Hne, in_app_iff; left; now right | ].
      cbn [chain]. right. unfold parent_step.
      assert (Hl : l = (removelast (a :: A') ++ last A' a :: e :: B)%list).
      { subst l. rewrite <- (last_cons A' a e).
        change (a :: A' ++ e :: B)%list with ((a :: A') ++ e :: B)%list.
        rewrite (app_removelast_last e (l := a :: A')) at 1 by discriminate.
        now rewrite <- app_assoc. }
      revert Hnd. rewrite Hl. intros Hnd. now rewrite (next_split _ _ _ Hnd).
  - cbn [chain]. left. unfold parent_step. now rewrite Hlast.
Qed.

(** *** The walk backward is the walk forward on the reversed list *)

Lemma rev_split (P R : list image) (x : image) :
  rev (P ++ x :: R) = (rev R ++ x :: rev P)%list.
Proof. rewrite rev_app_distr. cbn [rev]. now rewrite <- app_assoc. Qed.

Lemma NoDup_addr_rev (l : list image) :
  NoDup (map addr l) -> NoDup (map addr (rev l)).
Proof. intros H. rewrite map_rev. now apply NoDup_rev. Qed.

Lemma step_rev (l : list image) (loop : bool) (p : ptr) :
  NoDup (map addr l) -> In p (map addr l) ->
  parent_step l loop false p = parent_step (rev l) loop true p
  /\ IList.node l p = IList.node (rev l) p.
Proof.
  intros Hnd Hin. destruct (addr_split l p Hin) as (P & x & R & -> & <-).
  pose proof (NoDup_addr_rev _ Hnd) as Hr. rewrite rev_split in Hr.
  unfold parent_step, list_get_last.
  rewrite (prev_split P R x Hnd), (node_split P R x Hnd), rev_split.
  now rewrite (next_split _ _ x Hr), (node_split _ _ x Hr).
Qed.

Lemma chain_rev (l : list image) (loop : bool) (img : ptr) :
  NoDup (map addr l) ->
  forall (cands : list image) (it : ptr),
    In it (map addr l) ->
    chain (rev l) loop true img it cands ->
    chain l loop false img it cands.
Proof.
  intros Hnd. induction cands as [ | c cs IH ]; intros it Hin; cbn [chain];
    destruct (step_rev l loop it Hnd Hin) as (-> & _); [ tauto | ].
  intros (Hs & Hne & Hn & Hc).
  assert (Hc_in : In (addr c) (map addr l)).
  { apply node_In in Hn. rewrite map_rev in Hn. now apply in_rev in Hn. }
  destruct (step_rev l loop (addr c) Hnd Hc_in) as (_ & ->).
  repeat split; auto.
Qed.

Lemma chain_backward (loop : bool) (A B : list image) (e : image) :
  NoDup (map addr (A ++ e :: B)) ->
  chain (A ++ e :: B) loop false (addr e) (addr e)
        (rev A ++ (if loop then rev B else [])).
Proof.
  intros Hnd. apply chain_rev; [ exact Hnd | | ].
  - rewrite map_app. apply in_app_iff. right. now left.
  - rewrite rev_split.
    replace (if loop then rev B else []) with (if loop then rev B else @nil image)
      by reflexivity.
    apply (chain_forward loop (rev B) (rev A) e).
    rewrite <- rev_split. now apply NoDup_addr_rev.
Qed.

(** What [get_next_parent] returns. *)
Lemma get_next_parent_value (w : world) (A B : list image) (e : image)
      (loop fwd : bool) :
  images (il w) = (A ++ e :: B)%list ->
  NoDup (map addr (images (il w))) ->
  get_next_parent (addr e) loop fwd w
  = Done (first_other (source e)
            (if fwd then B ++ (if loop then A else [])
             else rev A ++ (if loop then rev B else []))%list) w.
Proof.
  intros Hl Hnd. unfold get_next_parent, bind, deref, gets.
  rewrite Hl in *. rewrite (node_split A B e Hnd).
  apply loop_chain.
  - rewrite Hl. destruct fwd; [ now apply chain_forward | now apply chain_backward ].
  - rewrite Hl.
    destruct fwd, loop;
      rewrite ?List.length_app, ?List.length_rev, ?List.length_app;
      cbn [List.length]; lia.
Qed.

(** X16. What [imglist_next_dir] and [imglist_prev_dir] return.  On a list
    whose nodes are distinct, cut at the entry [e] into the entries [A]
    before it and the entries [B] after it, [imglist_next_dir] completes,
    changes nothing, and returns the first entry of another directory
    among [B], followed in loop mode by [A]; [imglist_prev_dir] returns the
    first one among [A] read backward, followed in loop mode by [B] read
    backward; both return [NULL] when there is none.  The directory of a
    source is its text before the last separator. *)
Theorem next_dir_first_other (w : world) (A B : list image) (e : image) :
  images (il w) = (A ++ e :: B)%list ->
  NoDup (map addr (images (il w))) ->
  imglist_next_dir (addr e) w
  = Done (first_other (source e)
            (B ++ (if loop (il w) then A else []))%list) w
  /\ imglist_prev_dir (addr e) w
     = Done (first_other (source e)
               (rev A ++ (if loop (il w) then rev B else []))%list) w.
Proof.
  intros Hl Hnd. unfold imglist_next_dir, imglist_prev_dir, bind, gets.
  split.
  - apply (get_next_parent_value w A B e (loop (il w)) true Hl Hnd).
  - apply (get_next_parent_value w A B e (loop (il w)) false Hl Hnd).
Qed.

(** Entries of the directories [/a], [/b] and again [/a], in loop mode. *)
Definition w_dirs : world :=
  Demo.world_of
    (mk_image_list [Demo.entry 1 "/a/1.png" 1; Demo.entry 2 "/b/2.png" 2;
                    Demo.entry 3 "/a/3.png" 3]
                   3 false order_none false true false false false).

Lemma next_dir_first_other_witness :
  imglist_next_dir 3 w_dirs = Done (Some 2) w_dirs
  /\ imglist_prev_dir 3 w_dirs = Done (Some 2) w_dirs.
Proof.
  assert (Hnd : NoDup (map addr (images (il w_dirs)))).
  { cbn. repeat constructor; cbn; intuition congruence. }
  exact (next_dir_first_other w_dirs
           [Demo.entry 1 "/a/1.png" 1; Demo.entry 2 "/b/2.png" 2] []
           (Demo.entry 3 "/a/3.png" 3) eq_refl Hnd).
Defined.

Lemma node_decomp (l : list image) (p : ptr) (e : image) :
  IList.node l p = Some e ->
  exists A B, l = (A ++ e :: B)%list /\ addr e = p.
Proof.
  unfold IList.node. induction l as [ | x t IH ]; simpl; [ discriminate | ].
  destruct (addr x =? p) eqn:E.
  - intros [= <-]. apply Z.eqb_eq in E. now exists [], t.
  - intros H. destruct (IH H) as (A & B & -> & Ha). now exists (x :: A), B.
Qed.

Lemma other_dir_neq (cur : string) (c : image) :
  other_dir cur c = true <-> dirpart (source c) <> dirpart cur.
Proof.
  unfold other_dir. rewrite negb_true_iff, String.eqb_neq.
  split; intros H E; apply H; now symmetry.
Qed.

(** The candidates of a walk, in either direction. *)
Lemma next_dir_value (w : world) (A B : list image) (e : image)
      (forward : bool) :
  images (il w) = (A ++ e :: B)%list ->
  NoDup (map addr (images (il w))) ->
  exists cands,
    (if forward then imglist_next_dir (addr e) else imglist_prev_dir (addr e)) w
    = Done (first_other (source e) cands) w
    /\ (forall c, In c cands -> In c (A ++ B))
    /\ (loop (il w) = true -> forall c, In c (A ++ B) -> In c cands).
Proof.
  intros Hl Hnd. unfold imglist_next_dir, imglist_prev_dir, bind, gets.
  destruct forward; eexists;
    (split; [ apply (get_next_parent_value w A B e _ _ Hl Hnd) | ]);
    cbv iota.
  - split.
    + intros c Hc. apply in_app_iff in Hc. apply in_app_iff.
      destruct Hc as [ Hc | Hc ]; [ now right | ].
      destruct (loop (il w)); [ now left | contradiction ].
    + intros -> c Hc. apply in_app_iff in Hc. apply in_app_iff. tauto.
  - split.
    + intros c Hc. apply in_app_iff in Hc. apply in_app_iff.
      destruct Hc as [ Hc | Hc ]; [ left; now apply in_rev | ].
      destruct (loop (il w)); [ right; now apply in_rev | contradiction ].
    + intros -> c Hc. apply in_app_iff in Hc. apply in_app_iff.
      destruct Hc as [ Hc | Hc ]; [ left | right ]; now apply in_rev in Hc.
Qed.

(** X17. The entry [imglist_next_dir] or [imglist_prev_dir] returns lies in
    another directory than the entry given, and is another entry; in loop
    mode they return [NULL] only when all entries of the list lie in one
    directory. *)
Theorem next_dir_other_directory (w : world) (img : ptr) (e : image)
        (forward : bool) :
  NoDup (map addr (images (il w))) ->
  IList.node (images (il w)) img = Some e ->
  exists r,
    (if forward then imglist_next_dir img else imglist_prev_dir img) w
    = Done r w
    /\ (forall q, r = Some q ->
          q <> img
          /\ exists c, In c (images (il w)) /\ addr c = q
                       /\ dirpart (source c) <> dirpart (source e))
    /\ (r = None -> loop (il w) = true ->
        forall c, In c (images (il w)) ->
                  dirpart (source c) = dirpart (source e)).
Proof.
  intros Hnd Hn. destruct (node_decomp _ _ _ Hn) as (A & B & Hl & <-).
  destruct (next_dir_value w A B e forward Hl Hnd) as (cands & E & Hin & Hall).
  exists (first_other (source e) cands). split; [ exact E | ].
  unfold first_other. split.
  - intros q Hq. destruct (find _ cands) as [ c | ] eqn:Ef; [ | discriminate ].
    injection Hq as <-. apply find_some in Ef. destruct Ef as (Hc & Ho).
    apply Hin in Hc. split.
    + rewrite Hl in Hnd. destruct (NoDup_split A B e Hnd) as (HA & HB).
      intros Heq. rewrite <- Heq in HA, HB. apply in_app_iff in Hc.
      destruct Hc as [ Hc | Hc ]; [ apply HA | apply HB ]; now apply in_map.
    + exists c. split; [ | split; [ reflexivity | now apply other_dir_neq ] ].
      rewrite Hl. apply in_app_iff in Hc. apply in_app_iff.
      destruct Hc as [ Hc | Hc ]; [ now left | right; now right ].
  - intros Hr Hloop c Hc. destruct (find _ cands) as [ x | ] eqn:Ef;
      [ discriminate | ].
    rewrite Hl in Hc. apply in_app_iff in Hc.
    assert (Hcase : c = e \/ In c (A ++ B)).
    { destruct Hc as [ Hc | [ Hc | Hc ] ];
        [ right; apply in_app_iff; now left | now left
        | right; apply in_app_iff; now right ]. }
    destruct Hcase as [ -> | Hc' ]; [ reflexivity | ].
    apply (Hall Hloop) in Hc'. apply (find_none _ _ Ef) in Hc'.
    destruct (String.eqb_spec (dirpart (source e)) (dirpart (source c))) as [ Heq | Hneq ];
      [ now symmetry | ].
    unfold other_dir in Hc'. apply negb_false_iff in Hc'.
    apply String.eqb_eq in Hc'. now symmetry.
Qed.

Lemma next_dir_other_directory_witness :
  exists r,
    imglist_prev_dir 1 w_dirs = Done r w_dirs
    /\ (forall q, r = Some q ->
          q <> 1
          /\ exists c, In c (images (il w_dirs)) /\ addr c = q
                       /\ dirpart (source c) <> dirpart "/a/1.png")
    /\ (r = None -> loop (il w_dirs) = true ->
        forall c, In c (images (il w_dirs)) ->
                  dirpart (source c) = dirpart "/a/1.png").
Proof.
  assert (Hnd : NoDup (map addr (images (il w_dirs)))).
  { cbn. repeat constructor; cbn; intuition congruence. }
  exact (next_dir_other_directory w_dirs 1 (Demo.entry 1 "/a/1.png" 1) false
           Hnd eq_refl).
Defined.

(** ** The initial load (imglist.c) *)

Definition addrs (w : world) : list ptr := map addr (images (il w)).

(** A computation that unlinks nothing, and returns a node of the list
    when it returns an entry. *)
Definition lands (m : M (option ptr)) : Prop :=
  forall w r w',
    m w = Done r w' ->
    incl (addrs w) (addrs w') /\ forall p, r = Some p -> In p (addrs w').

Definition grows {A} (m : M A) : Prop :=
  forall w a w', m w = Done a w' -> incl (addrs w) (addrs w').

Lemma lands_add_entry (X : externals) (src : string) (st : option stat_t) :
  lands (add_entry X src st).
Proof.
  intros w r w' E. unfold addrs.
  destruct (find_source (images (il w)) src) as [ e | ] eqn:Ef.
  - rewrite (add_entry_present X src st w e Ef) in E. done_inv E.
    split; [ apply incl_refl | ]. intros p [= <-].
    now apply find_source_In in Ef.
  - destruct r as [ e | ].
    + destruct (add_entry_new X src st w w' e Ef E)
        as (entry & rest & _ & _ & Ha & _ & _ & _ & Hi).
      assert (Hp : Permutation (map addr (images (il w')))
                               (e :: map addr (images (il w)))).
      { rewrite <- Ha.
        destruct Hi as [ (p & _ & ->) | -> ];
          [ apply insert_perm | apply append_perm ]. }
      split.
      * intros q Hq. apply (Permutation_in _ (Permutation_sym Hp)). now right.
      * intros p [= <-]. apply (Permutation_in _ (Permutation_sym Hp)). now left.
    + apply add_entry_failed in E. rewrite E.
      split; [ apply incl_refl | discriminate ].
Qed.

Lemma before_incl (l : list image) (p : ptr) (seen : list image) :
  incl (IList.before l p seen) (l ++ seen).
Proof.
  revert seen. induction l as [ | x t IH ]; intros seen; simpl.
  - intros y [].
  - destruct (addr x =? p).
    + intros y Hy. right. apply in_app_iff. now right.
    + intros y Hy. apply IH in Hy. apply in_app_iff in Hy.
      destruct Hy as [ Hy | [ <- | Hy ] ];
        [ right; apply in_app_iff; now left | now left
        | right; apply in_app_iff; now right ].
Qed.

Lemma from_incl (l : list image) (p : ptr) : incl (IList.from l p) l.
Proof.
  induction l as [ | x t IH ]; simpl; [ apply incl_refl | ].
  destruct (addr x =? p); [ apply incl_refl | ].
  intros y Hy. right. now apply IH.
Qed.

Lemma back_from_incl (l : list image) (p : ptr) : incl (IList.back_from l p) l.
Proof.
  unfold IList.back_from. destruct (IList.from l p) as [ | x t ] eqn:E.
  - intros y [].
  - intros y [ <- | Hy ].
    + apply (from_incl l p). rewrite E. now left.
    + apply before_incl in Hy. now rewrite app_nil_r in Hy.
Qed.

Lemma prev_In (l : list image) (p q : ptr) :
  IList.prev l p = Some q -> In q (map addr l).
Proof.
  unfold IList.prev. destruct (IList.before l p []) as [ | x t ] eqn:E;
    [ discriminate | ].
  intros [= <-]. apply in_map. pose proof (before_incl l p []) as H.
  rewrite E, app_nil_r in H. apply H. now left.
Qed.

Lemma first_in_dir_In (dir : string) (back : list image) (img : ptr) :
  first_in_dir dir back img = img
  \/ In (first_in_dir dir back img) (map addr back).
Proof.
  revert img. induction back as [ | it t IH ]; intros img; simpl; [ now left | ].
  destruct (has_prefix dir (source it)); [ | now left ].
  destruct (IH (addr it)) as [ -> | H ]; right; [ now left | now right ].
Qed.

Lemma lands_add_dir_mut (X : externals) :
  (forall n dir, lands (add_dir_node X dir n))
  /\ (forall d dir img w r w',
         (forall p, img = Some p -> In p (addrs w)) ->
         add_dir_loop X dir d img w = Done r w' ->
         incl (addrs w) (addrs w')
         /\ forall p, r = Some p -> In p (addrs w')).
Proof.
  apply fs_mutind.
  - intros sz t dir w r w' E. done_inv E. split; [ apply incl_refl | discriminate ].
  - intros t dir w r w' E. done_inv E. split; [ apply incl_refl | discriminate ].
  - intros dir w r w' E. done_inv E. split; [ apply incl_refl | discriminate ].
  - intros rd t ents IH dir w r w' E. cbn [add_dir_node] in E.
    destruct rd; [ | done_inv E; split; [ apply incl_refl | discriminate ] ].
    bind_inv E as img w1 E1.
    apply IH in E1; [ | discriminate ]. destruct E1 as (Hin & Hm).
    bind_inv E as head w2 E2. unfold fs_monitor_add, emit, modify in E.
    done_inv E. change (addrs (set_trace _ w2)) with (addrs w2).
    assert (w2 = w1 /\ forall p, r = Some p -> In p (addrs w1)) as (-> & Hf).
    { destruct img as [ p | ].
      2:{ unfold ret in E2. injection E2 as <- <-.
          split; [ reflexivity | discriminate ]. }
      unfold bind, gets, ret in E2.
      destruct (IList.prev (images (il w1)) p) as [ q | ] eqn:Ep;
        injection E2 as <- <-; (split; [ reflexivity | ]); intros p' [= <-];
        [ | now apply Hm ].
      destruct (first_in_dir_In dir (IList.back_from (images (il w1)) q) p)
        as [ -> | H ]; [ now apply Hm | ].
      unfold addrs. apply in_map_iff in H. destruct H as (x & <- & Hx).
      apply in_map. now apply back_from_incl in Hx. }
    split; assumption.
  - intros dir img w r w' Hi E. done_inv E. split; [ apply incl_refl | exact Hi ].
  - intros name n IHn rest IHrest dir img w r w' Hi E. cbn [add_dir_loop] in E.
    bind_inv E as img' w1 E1.
    assert (incl (addrs w) (addrs w1)
            /\ forall p, img' = Some p -> In p (addrs w1)) as (Hin & Hm).
    { assert (Hsame : forall (v : world), Done img w = Done img' v ->
                incl (addrs w) (addrs v)
                /\ forall p, img' = Some p -> In p (addrs v)).
      { intros v Ev. done_inv Ev. split; [ apply incl_refl | exact Hi ]. }
      destruct (_ || _); [ now apply Hsame | ].
      destruct (fs_append_path X _ _ _); [ | now apply Hsame ].
      destruct (node_stat n) as [ st | ]; [ | now apply Hsame ].
      destruct (S_ISDIR st).
      - bind_inv E1 as rec w0 E0. unfold gets in E0. injection E0 as <- <-.
        destruct (recursive (il w)); [ now apply IHn in E1 | now apply Hsame ].
      - destruct (S_ISREG st); [ | now apply Hsame ].
        now apply lands_add_entry in E1. }
    apply IHrest in E; [ | exact Hm ]. destruct E as (Hin2 & Hm2).
    split; [ | exact Hm2 ]. eapply incl_tran; eassumption.
Qed.

Lemma lands_add_dir (X : externals) (dir : string) : lands (add_dir X dir).
Proof.
  intros w r w' E. unfold add_dir in E. bind_inv E as n w1 E1. done_inv E1.
  destruct (resolve (fsroot w1) dir) as [ d | ].
  - now apply (proj1 (lands_add_dir_mut X)) in E.
  - done_inv E. split; [ apply incl_refl | discriminate ].
Qed.

Lemma node_of_In (l : list image) (p : ptr) :
  In p (map addr l) -> exists e, IList.node l p = Some e.
Proof.
  unfold IList.node. induction l as [ | x t IH ]; simpl; [ tauto | ].
  destruct (addr x =? p) eqn:E; [ now exists x | ].
  intros [ H | H ]; [ apply Z.eqb_neq in E; contradiction | now apply IH ].
Qed.

Lemma deref_run (p : ptr) (w : world) :
  In p (addrs w) -> exists e, deref p w = Done e w /\ addr e = p.
Proof.
  intros H. destruct (node_of_In _ _ H) as (e & He).
  exists e. unfold deref. rewrite He. split; [ reflexivity | ].
  now destruct (node_decomp _ _ _ He) as (_ & _ & _ & Ha).
Qed.

Lemma deref_pure (p : ptr) (w w' : world) (e : image) :
  deref p w = Done e w' -> w' = w.
Proof.
  unfold deref. destruct (IList.node _ _); [ | discriminate ].
  now intros [= _ ->].
Qed.

Lemma wf_deref (p : ptr) : preserves registry_wf (deref p).
Proof. intros w a w' H E. apply deref_pure in E. now subst. Qed.
#[local] Hint Resolve wf_deref : wf.

Section LoadProperties.

Variable X : externals.
Variable fs_abspath : string -> option string.
Variable list_file : string -> option (list string).

(** *** The list stays well-formed *)

Lemma wf_add_source (src : string) :
  preserves registry_wf (add_source X fs_abspath src).
Proof. unfold add_source, stat, fs_monitor_add. wf_steps. Qed.
#[local] Hint Resolve wf_add_source : wf.

Lemma wf_load_each (sources : list string) :
  forall img, preserves registry_wf (load_each X fs_abspath sources img).
Proof.
  induction sources as [ | s rest IH ]; intros img; cbn [load_each]; wf_steps.
Qed.
#[local] Hint Resolve wf_load_each : wf.

Lemma wf_load_sources (sources : list string) :
  preserves registry_wf (load_sources X fs_abspath sources).
Proof.
  unfold load_sources, stat.
  destruct sources as [ | s0 [ | s1 rest ] ]; wf_steps.
Qed.

Lemma wf_load_lines (lines : list string) :
  preserves registry_wf (load_lines X fs_abspath lines).
Proof.
  induction lines as [ | line rest IH ]; cbn [load_lines]; wf_steps.
Qed.
#[local] Hint Resolve wf_load_lines : wf.

Lemma wf_load_files (files : list string) :
  preserves registry_wf (load_files X fs_abspath list_file files).
Proof.
  induction files as [ | f rest IH ]; cbn [load_files]; wf_steps.
Qed.
#[local] Hint Resolve wf_load_files : wf.

Lemma wf_load_fromfile (files : list string) :
  preserves registry_wf (load_fromfile X fs_abspath list_file files).
Proof. unfold load_fromfile, imglist_first. wf_steps. Qed.
#[local] Hint Resolve wf_load_sources wf_load_fromfile : wf.

Lemma wf_imglist_load (sources : list string) :
  preserves registry_wf (imglist_load X fs_abspath list_file sources).
Proof.
  unfold imglist_load. wf_steps.
Qed.

(** *** Nothing is unlinked, and what is returned is in the list *)

Lemma lands_ret_none : lands (ret None).
Proof. intros w r w' E. done_inv E. split; [ apply incl_refl | discriminate ]. Qed.

Lemma lands_add_source (src : string) : lands (add_source X fs_abspath src).
Proof.
  unfold add_source. destruct (_ || _); [ apply lands_add_entry | ].
  intros w r w' E. bind_inv E as st w1 E1. done_inv E1.
  destruct (fs_stat (fsroot w1) src) as [ s | ]; [ | now apply lands_ret_none in E ].
  destruct (fs_abspath src) as [ fspath | ]; [ | now apply lands_ret_none in E ].
  destruct (S_ISDIR s); [ now apply lands_add_dir in E | ].
  destruct (S_ISREG s); [ | now apply lands_ret_none in E ].
  bind_inv E as img w2 E2. apply lands_add_entry in E2.
  destruct img as [ p | ]; [ | now done_inv E ].
  bind_inv E as af w3 E3. unfold gets in E3. injection E3 as <- <-.
  bind_inv E as u w4 E4. done_inv E.
  assert (Ha : addrs w' = addrs w2).
  { destruct (negb (all_files (il w2))); [ | now done_inv E4 ].
    bind_inv E4 as e w5 E5. apply deref_pure in E5. subst w5.
    unfold fs_monitor_add, emit, modify in E4. now done_inv E4. }
  now rewrite Ha.
Qed.

Lemma lands_load_each (sources : list string) :
  forall img w r w',
    (forall p, img = Some p -> In p (addrs w)) ->
    load_each X fs_abspath sources img w = Done r w' ->
    incl (addrs w) (addrs w') /\ forall p, r = Some p -> In p (addrs w').
Proof.
  induction sources as [ | s rest IH ]; intros img w r w' Hi E;
    cbn [load_each] in E.
  - done_inv E. split; [ apply incl_refl | exact Hi ].
  - bind_inv E as added w1 E1. apply lands_add_source in E1.
    destruct E1 as (Hin & Hm). apply IH in E.
    + destruct E as (Hin2 & Hm2). split; [ | exact Hm2 ].
      eapply incl_tran; eassumption.
    + destruct img as [ q | ]; [ | exact Hm ].
      intros p Hp. apply Hin. now apply Hi.
Qed.

Lemma addrs_set_all_files (b : bool) (w : world) :
  addrs (set_il (set_all_files b (il w)) w) = addrs w.
Proof. reflexivity. Qed.

Lemma lands_load_sources (sources : list string) :
  lands (load_sources X fs_abspath sources).
Proof.
  unfold load_sources. destruct sources as [ | s0 [ | s1 rest ] ].
  - intros w r w' E. bind_inv E as img w1 E1. apply lands_add_source in E1.
    unfold modify_il, modify, bind, ret in E. injection E as <- <-.
    now rewrite addrs_set_all_files.
  - destruct (streq s0 "-"); [ apply lands_add_source | ].
    intros w r w' E. bind_inv E as af w1 E1. unfold gets in E1.
    injection E1 as <- <-. bind_inv E as u w2 E2.
    assert (Ha : addrs w2 = addrs w).
    { destruct (all_files (il w)); [ | now done_inv E2 ].
      bind_inv E2 as st w3 E3. done_inv E3.
      destruct (fs_stat (fsroot w3) s0) as [ s | ]; [ | now done_inv E2 ].
      destruct (S_ISDIR s); now done_inv E2. }
    bind_inv E as img w3 E3. apply lands_add_source in E3.
    rewrite Ha in E3. destruct E3 as (Hin & Hm).
    bind_inv E as af' w4 E4. unfold gets in E4. injection E4 as <- <-.
    assert (Hsame : forall v, Done img w3 = Done r v ->
              incl (addrs w) (addrs v) /\ forall p, r = Some p -> In p (addrs v)).
    { intros v Ev. injection Ev as <- <-. now split. }
    destruct img as [ p | ]; [ | now apply Hsame ].
    destruct (all_files (il w3)); [ | now apply Hsame ].
    bind_inv E as e w5 E5. apply deref_pure in E5. subst w5.
    destruct (strrchr (source e) "/") as [ d | ]; [ | now apply Hsame ].
    destruct (_ <? _); [ | now apply Hsame ].
    bind_inv E as q w6 E6. apply lands_add_dir in E6. destruct E6 as (Hin6 & _).
    done_inv E. split.
    + eapply incl_tran; eassumption.
    + intros p' Hp. apply Hin6. now apply Hm.
  - intros w r w' E. bind_inv E as u w1 E1. unfold modify_il, modify in E1.
    injection E1 as <- <-. apply lands_load_each in E; [ | discriminate ].
    now rewrite addrs_set_all_files in E.
Qed.

Lemma grows_load_lines (lines : list string) :
  grows (load_lines X fs_abspath lines).
Proof.
  induction lines as [ | line rest IH ]; intros w a w' E; cbn [load_lines] in E.
  - done_inv E. apply incl_refl.
  - destruct (_ =? _)%nat; [ done_inv E; apply incl_refl | ].
    bind_inv E as u w1 E1. apply IH in E.
    eapply incl_tran; [ | exact E ].
    destruct (streq _ _); [ done_inv E1; apply incl_refl | ].
    bind_inv E1 as r w2 E2. apply lands_add_source in E2. now done_inv E1.
Qed.

Lemma grows_load_files (files : list string) :
  grows (load_files X fs_abspath list_file files).
Proof.
  induction files as [ | f rest IH ]; intros w a w' E; cbn [load_files] in E.
  - done_inv E. apply incl_refl.
  - bind_inv E as u w1 E1. apply IH in E.
    eapply incl_tran; [ | exact E ].
    destruct (list_file f); [ now apply grows_load_lines in E1 | ].
    done_inv E1. apply incl_refl.
Qed.

Lemma head_ptr_In (l : list image) (p : ptr) :
  IList.head_ptr l = Some p -> In p (map addr l).
Proof. destruct l; [ discriminate | ]. intros [= <-]. now left. Qed.

Lemma lands_load_fromfile (files : list string) :
  lands (load_fromfile X fs_abspath list_file files).
Proof.
  intros w r w' E. unfold load_fromfile in E.
  bind_inv E as u w1 E1. unfold modify_il, modify in E1. injection E1 as <- <-.
  bind_inv E as u2 w2 E2. apply grows_load_files in E2.
  rewrite addrs_set_all_files in E2. done_inv E.
  split; [ exact E2 | ]. intros p. apply head_ptr_In.
Qed.

(** What [imglist_load] leaves. *)
Lemma imglist_load_frame (sources : list string) (w w' : world)
      (r : option ptr) :
  imglist_load X fs_abspath list_file sources w = Done r w' ->
  Z.of_nat (length (images (il w'))) < SIZE_MOD ->
  dense (il w')
  /\ incl (addrs w) (addrs w')
  /\ forall p, r = Some p -> In p (addrs w').
Proof.
  intros E Hb. unfold imglist_load in E.
  bind_inv E as sz w0 E0. unfold gets in E0. injection E0 as <- <-.
  destruct (negb (size (il w) =? 0)); [ discriminate | ].
  bind_inv E as ff w1 E1. unfold gets in E1. injection E1 as <- <-.
  bind_inv E as img w2 E2. bind_inv E as u w3 E3. done_inv E.
  assert (Hl : lands (if from_file (il w)
                      then load_fromfile X fs_abspath list_file sources
                      else load_sources X fs_abspath sources)).
  { destruct (from_file (il w));
      [ apply lands_load_fromfile | apply lands_load_sources ]. }
  apply Hl in E2. destruct E2 as (Hin & Hm).
  assert (Hlen : length (images (il w')) = length (images (il w2))).
  { rewrite reindex_run in E3. done_inv E3.
    cbn [il set_il images set_images set_size]. apply reindex_from_length. }
  rewrite Hlen in Hb. destruct u.
  destruct (reindex_dense w2 w' Hb E3) as (Hd & Ha & _).
  unfold addrs in *. rewrite Ha. split; [ exact Hd | split; assumption ].
Qed.

(** *** The load runs to its end *)

Lemma completes_add_source (src : string) :
  completes (add_source X fs_abspath src).
Proof.
  unfold add_source. destruct (_ || _); [ apply completes_add_entry | ].
  apply completes_bind; [ unfold stat; apply completes_gets | intros st ].
  destruct st as [ s | ]; [ | apply completes_ret ].
  destruct (fs_abspath src) as [ fspath | ]; [ | apply completes_ret ].
  destruct (S_ISDIR s); [ apply completes_add_dir | ].
  destruct (S_ISREG s); [ | apply completes_ret ].
  intros w Ho.
  destruct (completes_add_entry X fspath (Some s) w Ho) as (img & w1 & E & Ho1).
  rewrite (bind_eq _ _ _ _ _ E). destruct img as [ p | ]; [ | now exists None, w1 ].
  unfold bind at 1. unfold gets at 1.
  destruct (negb (all_files (il w1))).
  - destruct (deref_run p w1) as (e & Ed & _).
    { apply lands_add_entry in E. now apply E. }
    unfold bind. rewrite Ed. unfold fs_monitor_add, emit, modify, ret.
    eexists _, _. split; [ reflexivity | exact Ho1 ].
  - now exists (Some p), w1.
Qed.
#[local] Hint Resolve completes_add_source : completes.

Lemma completes_load_each (sources : list string) :
  forall img, completes (load_each X fs_abspath sources img).
Proof.
  induction sources as [ | s rest IH ]; intros img; cbn [load_each]; completes.
Qed.
#[local] Hint Resolve completes_load_each : completes.

Lemma completes_set_all_files (b : bool) :
  completes (modify_il (set_all_files b)).
Proof. apply completes_modify_il. intros c. reflexivity. Qed.
#[local] Hint Resolve completes_set_all_files : completes.

Lemma completes_load_sources (sources : list string) :
  completes (load_sources X fs_abspath sources).
Proof.
  unfold load_sources. destruct sources as [ | s0 [ | s1 rest ] ];
    [ completes | | completes ].
  destruct (streq s0 "-"); [ completes | ].
  apply completes_bind; [ completes | intros af ].
  apply completes_bind; [ unfold stat; completes | intros u ].
  intros w Ho.
  destruct (completes_add_source s0 w Ho) as (img & w1 & E & Ho1).
  rewrite (bind_eq _ _ _ _ _ E). unfold bind at 1. unfold gets at 1.
  destruct img as [ p | ]; [ | now exists None, w1 ].
  destruct (all_files (il w1)); [ | now exists (Some p), w1 ].
  destruct (deref_run p w1) as (e & Ed & _).
  { apply lands_add_source in E. now apply E. }
  rewrite (bind_eq _ _ _ _ _ Ed).
  destruct (strrchr (source e) "/") as [ d | ]; [ | now exists (Some p), w1 ].
  destruct (_ <? _); [ | now exists (Some p), w1 ].
  destruct (completes_add_dir X (substring 0 (S d) (source e)) w1 Ho1)
    as (q & w2 & E2 & Ho2).
  rewrite (bind_eq _ _ _ _ _ E2). now exists (Some p), w2.
Qed.

Lemma completes_load_lines (lines : list string) :
  completes (load_lines X fs_abspath lines).
Proof.
  induction lines as [ | line rest IH ]; cbn [load_lines]; completes.
Qed.
#[local] Hint Resolve completes_load_lines : completes.

Lemma completes_load_files (files : list string) :
  completes (load_files X fs_abspath list_file files).
Proof.
  induction files as [ | f rest IH ]; cbn [load_files]; completes.
Qed.
#[local] Hint Resolve completes_load_files : completes.

Lemma completes_load_fromfile (files : list string) :
  completes (load_fromfile X fs_abspath list_file files).
Proof. unfold load_fromfile, imglist_first. completes. Qed.
#[local] Hint Resolve completes_load_sources completes_load_fromfile : completes.

(** A list that is not loaded yet passes the assertion; one that is
    loaded stops there. *)
Lemma completes_imglist_load (sources : list string) (w : world) :
  size (il w) = 0 -> ordered w ->
  exists r w', imglist_load X fs_abspath list_file sources w = Done r w'.
Proof.
  intros Hs Ho. unfold imglist_load. unfold bind at 1. unfold gets at 1.
  rewrite Hs. cbn [Z.eqb negb].
  assert (C : completes
                (ff <- gets (fun v => from_file (il v)) ;;
                 img <- (if ff
                         then load_fromfile X fs_abspath list_file sources
                         else load_sources X fs_abspath sources) ;;
                 reindex ;;; ret img)) by completes.
  destruct (C w Ho) as (r & w' & E & _). now exists r, w'.
Qed.

Lemma imglist_load_asserts (sources : list string) (w : world) :
  size (il w) <> 0 ->
  imglist_load X fs_abspath list_file sources w = Fault AssertionFailed.
Proof.
  intros Hs. unfold imglist_load. unfold bind at 1. unfold gets at 1.
  apply Z.eqb_neq in Hs. now rewrite Hs.
Qed.

End LoadProperties.

(** X18. What [imglist_load] leaves.  Started on a list that is well-formed
    and has the size 0 its assertion asks for, a load that completes leaves
    a well-formed list: no source is held by two entries, whatever the
    arguments repeat, and no node is linked twice.  Its indices are dense
    and the size counter is the number of entries (for a list of less than
    2^64 entries).  Nothing that was in the list is unlinked, and the entry
    returned, if any, is an entry of the list. *)
Theorem imglist_load_sound (X : externals)
        (fs_abspath : string -> option string)
        (list_file : string -> option (list string))
        (sources : list string) (w w' : world) (r : option ptr) :
  size (il w) = 0 ->
  registry_wf w ->
  imglist_load X fs_abspath list_file sources w = Done r w' ->
  Z.of_nat (length (images (il w'))) < SIZE_MOD ->
  registry_wf w'
  /\ dense (il w')
  /\ incl (map addr (images (il w))) (map addr (images (il w')))
  /\ forall p, r = Some p -> In p (map addr (images (il w'))).
Proof.
  intros _ Hwf E Hb. split.
  - exact (wf_imglist_load X fs_abspath list_file sources w r w' Hwf E).
  - exact (imglist_load_frame X fs_abspath list_file sources w w' r E Hb).
Qed.

(** Paths that are absolute already; no list files. *)
Definition abs_id (s : string) : option string := Some s.
Definition no_lists (f : string) : option (list string) := None.

Lemma w_numeric_wf : registry_wf Demo.w_numeric.
Proof.
  split; cbn; [ constructor | ].
  repeat constructor; cbn; intuition congruence.
Qed.

(** A directory, the output of a command, and a file of the directory
    once more. *)
Lemma imglist_load_sound_witness :
  exists r w',
    imglist_load Demo.env abs_id no_lists
                 ["/pics"; "exec://convert a.svg png:-"; "/pics/a.png"]
                 Demo.w_numeric = Done r w'
    /\ registry_wf w'
    /\ dense (il w')
    /\ incl (map addr (images (il Demo.w_numeric))) (map addr (images (il w')))
    /\ forall p, r = Some p -> In p (map addr (images (il w'))).
Proof.
  eexists _, _. split; [ vm_compute; reflexivity | ].
  match goal with
  | |- registry_wf ?v /\ _ =>
      apply (imglist_load_sound Demo.env abs_id no_lists
               ["/pics"; "exec://convert a.svg png:-"; "/pics/a.png"]
               Demo.w_numeric v (Some 1000))
  end.
  - reflexivity.
  - exact w_numeric_wf.
  - vm_compute. reflexivity.
  - vm_compute. reflexivity.
Defined.

(** X19. The load runs to its end, once.  Started on a list of size 0,
    under every ordering policy but the random one, [imglist_load] runs to
    its end whatever the sources are: a source whose [stat] fails, that
    has no absolute path or is a special file, a directory that cannot be
    opened and a list file that cannot be opened are passed over, and
    every entry that is read through a pointer is an entry of the list.
    Started on a list whose size is not 0, it is stopped by its assertion
    before anything is read or changed, under every policy. *)
Theorem imglist_load_completes (X : externals)
        (fs_abspath : string -> option string)
        (list_file : string -> option (list string))
        (sources : list string) (w : world) :
  (size (il w) = 0 -> order (il w) <> order_random ->
   exists r w', imglist_load X fs_abspath list_file sources w = Done r w')
  /\ (size (il w) <> 0 ->
      imglist_load X fs_abspath list_file sources w = Fault AssertionFailed).
Proof.
  split.
  - intros Hs Ho.
    exact (completes_imglist_load X fs_abspath list_file sources w Hs Ho).
  - intros Hs.
    exact (imglist_load_asserts X fs_abspath list_file sources w Hs).
Qed.

Definition LF : string := String "010"%char "".
Definition CRLF : string := String "013"%char LF.

(** A list file with line ends of both kinds, an empty line, a path that
    does not exist and a path named twice. *)
Definition pics_list (f : string) : option (list string) :=
  if streq f "/lists/pics.txt"
  then Some ["/pics/b.png" ++ CRLF; LF; "/pics/a.png" ++ LF;
             "/nowhere.png" ++ LF; "/pics/a.png"]%string
  else None.

Definition w_fromfile : world :=
  Demo.world_of (mk_image_list [] 0 false order_alpha false false false
                               true true).

Lemma imglist_load_completes_witness :
  (exists r w',
     imglist_load Demo.env abs_id pics_list
                  ["/lists/none.txt"; "/lists/pics.txt"] w_fromfile
     = Done r w')
  /\ imglist_load Demo.env abs_id pics_list
                  ["/lists/none.txt"; "/lists/pics.txt"] Demo.w_three
     = Fault AssertionFailed.
Proof.
  split.
  - apply (imglist_load_completes Demo.env abs_id pics_list
             ["/lists/none.txt"; "/lists/pics.txt"] w_fromfile);
      [ reflexivity | discriminate ].
  - apply (imglist_load_completes Demo.env abs_id pics_list
             ["/lists/none.txt"; "/lists/pics.txt"] Demo.w_three).
    discriminate.
Defined.

(** ** Lines of a list file (imglist.c) *)

Definition is_eol (c : ascii) : bool :=
  Ascii.eqb c "013"%char || Ascii.eqb c "010"%char.

(** The text of [s] consists of line-end characters only. *)
Fixpoint all_eol (s : string) : bool :=
  match s with
  | EmptyString => true
  | String c rest => is_eol c && all_eol rest
  end.

Lemma strip_eol_all (s : string) : all_eol s = true -> strip_eol s = "".
Proof.
  induction s as [ | c rest IH ]; cbn [all_eol strip_eol]; [ reflexivity | ].
  intros H. apply andb_true_iff in H. destruct H as (Hc & Hr).
  rewrite (IH Hr). unfold is_eol in Hc. now rewrite Hc.
Qed.

Lemma strip_eol_app (s t : string) :
  all_eol t = true -> strip_eol (s ++ t) = strip_eol s.
Proof.
  intros Ht. induction s as [ | c rest IH ]; cbn [append strip_eol].
  - now apply strip_eol_all.
  - now rewrite IH.
Qed.

Lemma strip_eol_stable (s : string) : strip_eol (strip_eol s) = strip_eol s.
Proof.
  induction s as [ | c rest IH ]; cbn [strip_eol]; [ reflexivity | ].
  destruct (strip_eol rest) as [ | d r ] eqn:E.
  - destruct (_ || _) eqn:Ec; [ reflexivity | ].
    cbn [strip_eol]. now rewrite Ec.
  - cbn [strip_eol]. cbn [strip_eol] in IH. now rewrite IH.
Qed.

Lemma strip_eol_split (s : string) :
  exists t, s = (strip_eol s ++ t)%string /\ all_eol t = true.
Proof.
  induction s as [ | c rest (t & Ht & Ha) ]; cbn [strip_eol].
  - now exists "".
  - destruct (strip_eol rest) as [ | d r ] eqn:E.
    + destruct (_ || _) eqn:Ec.
      * exists (String c rest). split; [ reflexivity | ].
        cbn [all_eol]. unfold is_eol. rewrite Ec. cbn [andb].
        cbn [append] in Ht. now rewrite Ht.
      * exists t. cbn [append] in *. split; [ now rewrite <- Ht | exact Ha ].
    + exists t. cbn [append] in *. split; [ now rewrite <- Ht | exact Ha ].
Qed.

Lemma length_app_eol (l eol : string) :
  eol <> "" -> (String.length (l ++ eol) =? 0)%nat = false.
Proof.
  intros H. apply Nat.eqb_neq. rewrite string_length_app.
  destruct eol; [ contradiction | simpl; lia ].
Qed.

Lemma load_lines_cons (X : externals) (fs_abspath : string -> option string)
      (l eol : string) (rest : list string) (w : world) :
  eol <> "" -> all_eol eol = true ->
  load_lines X fs_abspath ((l ++ eol)%string :: rest) w
  = ((if streq (c_str (strip_eol l)) "" then ret tt
      else add_source X fs_abspath (c_str (strip_eol l)) ;;; ret tt) ;;;
     load_lines X fs_abspath rest) w.
Proof.
  intros Hne Ha. cbn [load_lines].
  now rewrite (length_app_eol l eol Hne), (strip_eol_app l eol Ha).
Qed.

(** X20. Line ends of a list file.  A list file whose lines end with
    carriage return and line feed is read like the file whose lines end
    with a line feed, and like one with any other run of such characters
    at the end of its lines; a line that consists of such characters only
    adds nothing. *)
Theorem list_file_line_ends (X : externals)
        (fs_abspath : string -> option string) (lines : list string)
        (eol1 eol2 : string) (w : world) :
  eol1 <> "" -> all_eol eol1 = true ->
  eol2 <> "" -> all_eol eol2 = true ->
  load_lines X fs_abspath (map (fun l => (l ++ eol1)%string) lines) w
  = load_lines X fs_abspath (map (fun l => (l ++ eol2)%string) lines) w
  /\ load_lines X fs_abspath (eol1 :: lines) w
     = load_lines X fs_abspath lines w.
Proof.
  intros Hn1 Ha1 Hn2 Ha2. split.
  - revert w. induction lines as [ | l rest IH ]; intros w; [ reflexivity | ].
    cbn [map]. rewrite !load_lines_cons by assumption.
    unfold bind at 1 3.
    destruct ((if streq (c_str (strip_eol l)) "" then ret tt
               else add_source X fs_abspath (c_str (strip_eol l)) ;;; ret tt) w)
      as [ u w1 | f ]; [ apply IH | reflexivity ].
  - change eol1 with ("" ++ eol1)%string.
    rewrite load_lines_cons by assumption. reflexivity.
Qed.

Lemma list_file_line_ends_witness :
  load_lines Demo.env abs_id
             (map (fun l => (l ++ CRLF)%string) ["/pics/b.png"; "/pics/a.png"])
             Demo.w_numeric
  = load_lines Demo.env abs_id
               (map (fun l => (l ++ LF)%string) ["/pics/b.png"; "/pics/a.png"])
               Demo.w_numeric
  /\ load_lines Demo.env abs_id (CRLF :: ["/pics/b.png"; "/pics/a.png"])
                Demo.w_numeric
     = load_lines Demo.env abs_id ["/pics/b.png"; "/pics/a.png"]
                  Demo.w_numeric.
Proof.
  apply (list_file_line_ends Demo.env abs_id ["/pics/b.png"; "/pics/a.png"]
           CRLF LF Demo.w_numeric);
    first [ discriminate | reflexivity ].
Defined.

(** ** The table of decoders (formats/loader.c) *)

(** The entry as the decoders [ds] leave it when none of them knows the
    format; [None] when one of them answers. *)
Fixpoint passed (ds : list Loader.image_decoder) (e : image) (data : list Z)
         (size : Z) : option image :=
  match ds with
  | [] => Some e
  | d :: rest =>
      match d e data size with
      | (imgload_unsupported, e') => passed rest e' data size
      | _ => None
      end
  end.

Lemma decode_answered (ds : list Loader.image_decoder) (s : image_status)
      (e : image) (data : list Z) (size : Z) :
  s <> imgload_unsupported -> Loader.decode ds s e data size = (s, e).
Proof. intros H. destruct ds; [ reflexivity | ]. now destruct s. Qed.

Lemma decode_passed (ds1 ds2 : list Loader.image_decoder) (e e1 : image)
      (data : list Z) (size : Z) :
  passed ds1 e data size = Some e1 ->
  Loader.decode (ds1 ++ ds2) imgload_unsupported e data size
  = Loader.decode ds2 imgload_unsupported e1 data size.
Proof.
  revert e. induction ds1 as [ | d rest IH ]; intros e; cbn [passed app].
  - now intros [= ->].
  - cbn [Loader.decode]. destruct (d e data size) as [ s e' ].
    destruct s; try discriminate. apply IH.
Qed.

Lemma decode_none (ds : list Loader.image_decoder) (e e' : image)
      (data : list Z) (size : Z) :
  Loader.decode ds imgload_unsupported e data size = (imgload_unsupported, e')
  <-> passed ds e data size = Some e'.
Proof.
  revert e. induction ds as [ | d rest IH ]; intros e;
    cbn [passed Loader.decode].
  - split; intros [= ->]; reflexivity.
  - destruct (d e data size) as [ s e1 ]. destruct s; [ | apply IH | ].
    + rewrite decode_answered by discriminate. split; discriminate.
    + rewrite decode_answered by discriminate. split; discriminate.
Qed.

(** X21. The first decoder that knows the format decides.  When the
    decoders [ds1] at the head of the table answer "unsupported" one after
    the other, and the next decoder [d] answers something else,
    [load_from_memory] does what it does with [d] alone on the entry as
    [ds1] have left it: the decoders after [d] are not asked.  Its status
    is the answer of [d], except that a success becomes an I/O error when
    the copy of the raw bytes cannot be allocated; with a success the entry
    holds the copy of the first [size] bytes; and in every case the file
    size of the entry is [size]. *)
Theorem first_decoder_decides (ds1 ds2 : list Loader.image_decoder)
        (d : Loader.image_decoder) (img : Loader.loading) (data : list Z)
        (size : Z) (e1 e2 : image) (s : image_status) (w : world) :
  passed ds1 (Loader.entry img) data size = Some e1 ->
  d e1 data size = (s, e2) ->
  s <> imgload_unsupported ->
  Loader.load_from_memory (ds1 ++ d :: ds2) img data size w
  = Loader.load_from_memory [d] (Loader.set_entry e1 img) data size w
  /\ exists st img' w',
       Loader.load_from_memory (ds1 ++ d :: ds2) img data size w
       = Done (st, img') w'
       /\ (st = s \/ s = imgload_success /\ st = imgload_ioerror
                     /\ Loader.file_raw img' = None)
       /\ (st = imgload_success ->
           Loader.file_raw img' = Some (firstn (Z.to_nat size) data))
       /\ file_size (Loader.entry img') = size
       /\ frames (Loader.entry img') = frames e2.
Proof.
  intros Hp Hd Hs.
  assert (E : Loader.decode (ds1 ++ d :: ds2) imgload_unsupported
                            (Loader.entry img) data size = (s, e2)).
  { rewrite (decode_passed ds1 (d :: ds2) _ e1 data size Hp).
    cbn [Loader.decode]. rewrite Hd. now apply decode_answered. }
  unfold Loader.load_from_memory. rewrite E.
  cbn [Loader.decode Loader.entry Loader.set_entry]. rewrite Hd.
  split; [ reflexivity | ].
  destruct s; [ | contradiction | ].
  - unfold bind, Loader.malloc, ret.
    destruct (heap w) as [ | [ a | ] rest ]; eexists _, _, _;
      (split; [ reflexivity | ]); cbn; repeat split;
      try (now left); try discriminate;
      right; now repeat split.
  - eexists _, _, _. split; [ reflexivity | ]. cbn.
    repeat split; try (now left); discriminate.
Qed.

(** Decoders for the witnesses: one that knows no format, one that knows
    the data by their first byte, one that fails on them. *)
Definition decode_never : Loader.image_decoder :=
  fun e _ _ => (imgload_unsupported, e).

Definition decode_magic (magic : Z) (frame : pixmap) : Loader.image_decoder :=
  fun e data _ =>
    match data with
    | b :: _ => if b =? magic then (imgload_success, set_frames [frame] e)
                else (imgload_unsupported, e)
    | [] => (imgload_unsupported, e)
    end.

Definition decode_broken : Loader.image_decoder :=
  fun e _ _ => (imgload_ioerror, e).

Definition fresh (src : string) : Loader.loading :=
  Loader.mk_loading (Demo.entry 500 src 0) None None None.

Lemma first_decoder_decides_witness :
  Loader.load_from_memory
    ([decode_never] ++ decode_magic 137 Demo.frame_800x600 :: [decode_broken])
    (fresh "/pics/a.png") [137; 80; 78; 71] 4 Demo.w_three
  = Loader.load_from_memory
      [decode_magic 137 Demo.frame_800x600]
      (Loader.set_entry (Demo.entry 500 "/pics/a.png" 0) (fresh "/pics/a.png"))
      [137; 80; 78; 71] 4 Demo.w_three
  /\ exists st img' w',
       Loader.load_from_memory
         ([decode_never] ++ decode_magic 137 Demo.frame_800x600
                         :: [decode_broken])
         (fresh "/pics/a.png") [137; 80; 78; 71] 4 Demo.w_three
       = Done (st, img') w'
       /\ (st = imgload_success
           \/ imgload_success = imgload_success /\ st = imgload_ioerror
              /\ Loader.file_raw img' = None)
       /\ (st = imgload_success ->
           Loader.file_raw img' = Some (firstn (Z.to_nat 4) [137; 80; 78; 71]))
       /\ file_size (Loader.entry img') = 4
       /\ frames (Loader.entry img')
          = frames (set_frames [Demo.frame_800x600]
                               (Demo.entry 500 "/pics/a.png" 0)).
Proof.
  apply (first_decoder_decides [decode_never] [decode_broken]
           (decode_magic 137 Demo.frame_800x600) (fresh "/pics/a.png")
           [137; 80; 78; 71] 4 (Demo.entry 500 "/pics/a.png" 0)
           (set_frames [Demo.frame_800x600] (Demo.entry 500 "/pics/a.png" 0))
           imgload_success Demo.w_three);
    [ reflexivity | reflexivity | discriminate ].
Defined.

(** ** The name and the parent directory of a file (formats/loader.c) *)

Fixpoint no_slash (t : string) : bool :=
  match t with
  | EmptyString => true
  | String c rest => negb (Ascii.eqb c "/"%char) && no_slash rest
  end.

Lemma get_app_left (s t : string) (j : nat) :
  (j < String.length s)%nat -> String.get j (s ++ t) = String.get j s.
Proof. intros H. symmetry. now apply append_correct1. Qed.

Lemma get_app_right (s t : string) (j : nat) :
  String.get (String.length s + j) (s ++ t) = String.get j t.
Proof. rewrite Nat.add_comm. symmetry. apply append_correct2. Qed.

Lemma no_slash_get (t : string) (j : nat) (c : ascii) :
  no_slash t = true -> String.get j t = Some c -> c <> "/"%char.
Proof.
  revert j. induction t as [ | x rest IH ]; intros j H; cbn [String.get];
    [ discriminate | ].
  cbn [no_slash] in H. apply andb_true_iff in H. destruct H as (Hx & Hr).
  destruct j as [ | j ].
  - intros [= <-] ->. now rewrite Ascii.eqb_refl in Hx.
  - now apply IH.
Qed.

Lemma scan_step_other (s : string) (p : nat) (c : ascii) :
  String.get p s = Some c -> c <> "/"%char ->
  Loader.scan_back s (S p) = Loader.scan_back s p.
Proof.
  intros Hg Hc. cbn [Loader.scan_back]. rewrite Hg.
  destruct (Ascii.eqb_spec c "/"%char) as [ -> | _ ]; [ contradiction | ].
  destruct c as [ [] [] [] [] [] [] [] [] ]; try reflexivity.
  contradiction.
Qed.

Lemma scan_step_slash (s : string) (p : nat) :
  String.get p s = Some "/"%char -> Loader.scan_back s (S p) = p.
Proof. intros Hg. cbn [Loader.scan_back]. now rewrite Hg. Qed.

Lemma get_in_range (t : string) (j : nat) :
  (j < String.length t)%nat -> exists c, String.get j t = Some c.
Proof.
  revert j. induction t as [ | x rest IH ]; intros j H; simpl in H; [ lia | ].
  destruct j as [ | j ]; [ now exists x | ]. apply IH. lia.
Qed.

(** A scan that starts in a text without separators runs to its
    beginning. *)
Lemma scan_none (t s2 : string) (j : nat) :
  no_slash t = true -> (j <= String.length t)%nat ->
  Loader.scan_back (t ++ s2) j = 0%nat.
Proof.
  intros Ht. induction j as [ | j IH ]; intros Hj; [ reflexivity | ].
  destruct (get_in_range t j) as (c & Hc); [ lia | ].
  rewrite (scan_step_other _ j c);
    [ apply IH; lia | now rewrite get_app_left by lia
    | now apply (no_slash_get t j) ].
Qed.

(** A scan that starts behind a separator, in a text without separators,
    stops at that separator. *)
Lemma scan_stop (s1 t s2 : string) (j : nat) :
  no_slash t = true -> (j <= String.length t)%nat ->
  Loader.scan_back (s1 ++ "/" ++ t ++ s2) (String.length s1 + 1 + j)
  = String.length s1.
Proof.
  intros Ht. induction j as [ | j IH ]; intros Hj.
  - replace (String.length s1 + 1 + 0)%nat with (S (String.length s1)) by lia.
    apply scan_step_slash.
    rewrite <- (Nat.add_0_r (String.length s1)) at 1.
    now rewrite get_app_right.
  - replace (String.length s1 + 1 + S j)%nat
      with (S (String.length s1 + 1 + j)) by lia.
    destruct (get_in_range t j) as (c & Hc); [ lia | ].
    rewrite (scan_step_other _ _ c); [ apply IH; lia | | now apply (no_slash_get t j) ].
    replace (String.length s1 + 1 + j)%nat with (String.length s1 + S j)%nat by lia.
    rewrite get_app_right. cbn [append String.get].
    now rewrite get_app_left by lia.
Qed.

Lemma substring_all (t s2 : string) :
  substring 0 (String.length t) (t ++ s2) = t.
Proof. induction t as [ | c rest IH ]; simpl; [ now destruct s2 | now rewrite IH ]. Qed.

Lemma substring_skip (s1 t : string) (n : nat) :
  substring (String.length s1) n (s1 ++ t) = substring 0 n t.
Proof. induction s1 as [ | c rest IH ]; simpl; [ reflexivity | exact IH ]. Qed.

Lemma slash_at_sep (s1 t : string) :
  Loader.slash_at (s1 ++ "/" ++ t) (String.length s1) = true.
Proof.
  unfold Loader.slash_at.
  rewrite <- (Nat.add_0_r (String.length s1)) at 1. now rewrite get_app_right.
Qed.

Lemma slash_at_none (t s2 : string) (c : ascii) (rest : string) :
  t = String c rest -> no_slash t = true ->
  Loader.slash_at (t ++ s2) 0 = false.
Proof.
  intros -> H. cbn [no_slash] in H. apply andb_true_iff in H.
  destruct H as (H & _). unfold Loader.slash_at. cbn.
  now apply negb_true_iff in H.
Qed.

Lemma string_app_nil_r (s : string) : (s ++ "")%string = s.
Proof. induction s as [ | c rest IH ]; simpl; [ reflexivity | now rewrite IH ]. Qed.

Lemma string_app_assoc (a b c : string) :
  ((a ++ b) ++ c)%string = (a ++ b ++ c)%string.
Proof. induction a as [ | x rest IH ]; simpl; [ reflexivity | now rewrite IH ]. Qed.

(** The name of [dir/file] is [file]. *)
Lemma name_of_path (dir file : string) :
  file <> "" -> no_slash file = true ->
  Loader.name_of (dir ++ "/" ++ file) = file.
Proof.
  intros Hne Hf. unfold Loader.name_of.
  set (s := (dir ++ "/" ++ file)%string).
  assert (Hlen : String.length s
                 = (String.length dir + 1 + String.length file)%nat).
  { subst s. rewrite !string_length_app. simpl. lia. }
  assert (Hpos : (0 < String.length file)%nat).
  { destruct file; [ contradiction | simpl; lia ]. }
  assert (Hscan : Loader.scan_back s (String.length s - 1) = String.length dir).
  { rewrite Hlen.
    replace (String.length dir + 1 + String.length file - 1)%nat
      with (String.length dir + 1 + (String.length file - 1))%nat by lia.
    subst s. rewrite <- (string_app_nil_r file) at 1.
    apply scan_stop; [ exact Hf | lia ]. }
  rewrite Hscan. subst s. rewrite slash_at_sep, Hlen.
  replace (String.length dir + 1 + String.length file - S (String.length dir))%nat
    with (String.length file) by lia.
  replace (S (String.length dir)) with (String.length (dir ++ "/"))
    by (rewrite string_length_app; simpl; lia).
  rewrite <- string_app_assoc, substring_skip.
  rewrite <- (string_app_nil_r file) at 2. apply substring_all.
Qed.

(** The name of a source without separator is the source. *)
Lemma scan_plain (src : string) (j : nat) :
  no_slash src = true -> (j <= String.length src)%nat ->
  Loader.scan_back src j = 0%nat.
Proof.
  intros Hs Hj. rewrite <- (string_app_nil_r src). now apply scan_none.
Qed.

Lemma slash_at_plain (src : string) :
  no_slash src = true -> Loader.slash_at src 0 = false.
Proof.
  intros Hs. destruct src as [ | c rest ] eqn:E; [ reflexivity | ].
  rewrite <- (string_app_nil_r (String c rest)).
  now apply (slash_at_none (String c rest) "" c rest).
Qed.

Lemma substring_whole (src : string) :
  substring 0 (String.length src) src = src.
Proof.
  pose proof (substring_all src "") as H. now rewrite string_app_nil_r in H.
Qed.

Lemma name_of_plain (src : string) :
  no_slash src = true -> Loader.name_of src = src.
Proof.
  intros Hs. unfold Loader.name_of.
  rewrite (scan_plain src _ Hs) by lia.
  rewrite (slash_at_plain src Hs), Nat.sub_0_r. apply substring_whole.
Qed.

Lemma parent_of_plain (src : string) :
  no_slash src = true -> Loader.parent_of src = "".
Proof.
  intros Hs. unfold Loader.parent_of.
  now rewrite (scan_plain src _ Hs) by lia.
Qed.

Lemma slash_at_first (t s2 : string) :
  no_slash t = true -> t <> "" -> Loader.slash_at (t ++ s2) 0 = false.
Proof.
  intros Ht Hne. destruct t as [ | c rest ] eqn:E; [ contradiction | ].
  now apply (slash_at_none (String c rest) s2 c rest).
Qed.

(** The parent directory of [p/file] and of [q/p/file] is [p]. *)
Lemma parent_of_path (pre p file : string) :
  pre = "" \/ (exists q, pre = (q ++ "/")%string) ->
  no_slash p = true -> no_slash file = true -> file <> "" ->
  Loader.parent_of (pre ++ p ++ "/" ++ file) = p.
Proof.
  intros Hpre Hp Hf Hne. unfold Loader.parent_of.
  set (s := (pre ++ p ++ "/" ++ file)%string).
  assert (Hs : s = ((pre ++ p) ++ "/" ++ file ++ "")%string).
  { subst s. now rewrite string_app_nil_r, string_app_assoc. }
  assert (Hpos : (0 < String.length file)%nat).
  { destruct file; [ contradiction | simpl; lia ]. }
  assert (Hlen : String.length s
                 = (String.length (pre ++ p) + 1 + String.length file)%nat).
  { rewrite Hs, !string_length_app. simpl. lia. }
  assert (Hscan : Loader.scan_back s (String.length s - 1)
                  = String.length (pre ++ p)).
  { rewrite Hlen.
    replace (String.length (pre ++ p) + 1 + String.length file - 1)%nat
      with (String.length (pre ++ p) + 1 + (String.length file - 1))%nat by lia.
    rewrite Hs. apply scan_stop; [ exact Hf | lia ]. }
  rewrite Hscan.
  destruct Hpre as [ -> | (q & ->) ].
  - (* the directory is the whole of what precedes the file *)
    subst s. cbn [append].
    destruct (String.length p =? 0)%nat eqn:Hl.
    + apply Nat.eqb_eq in Hl. now destruct p.
    + apply Nat.eqb_neq in Hl.
      rewrite (scan_none p _ _ Hp) by lia.
      rewrite (slash_at_first p _ Hp) by (intros ->; now apply Hl).
      rewrite Nat.sub_0_r. apply substring_all.
  - assert (Hl : (String.length ((q ++ "/") ++ p) =? 0)%nat = false).
    { apply Nat.eqb_neq. rewrite !string_length_app. simpl. lia. }
    rewrite Hl.
    assert (Hs2 : s = (q ++ "/" ++ p ++ "/" ++ file)%string).
    { subst s. now rewrite !string_app_assoc. }
    assert (Hscan2 : Loader.scan_back s (String.length ((q ++ "/") ++ p))
                     = String.length q).
    { rewrite Hs2.
      replace (String.length ((q ++ "/") ++ p))
        with (String.length q + 1 + String.length p)%nat
        by (rewrite !string_length_app; simpl; lia).
      apply scan_stop; [ exact Hp | lia ]. }
    assert (Hsl : Loader.slash_at s (String.length q) = true).
    { rewrite Hs2. apply slash_at_sep. }
    rewrite Hscan2, Hsl.
    replace (String.length ((q ++ "/") ++ p) - S (String.length q))%nat
      with (String.length p)
      by (rewrite !string_length_app; simpl; lia).
    replace (S (String.length q)) with (String.length (q ++ "/"))
      by (rewrite string_length_app; simpl; lia).
    subst s. rewrite substring_skip. apply substring_all.
Qed.

(** The loading paths leave the name and the parent directory alone. *)
Definition same_names (a b : Loader.loading) : Prop :=
  Loader.name a = Loader.name b /\ Loader.parent_dir a = Loader.parent_dir b.

Lemma load_from_memory_names (ds : list Loader.image_decoder)
      (img : Loader.loading) (data : list Z) (size : Z) (w w' : world)
      (r : image_status * Loader.loading) :
  Loader.load_from_memory ds img data size w = Done r w' ->
  same_names (snd r) img.
Proof.
  unfold Loader.load_from_memory.
  destruct (Loader.decode ds _ _ _ _) as [ s e ].
  intros E. bind_inv E as x w1 E1. destruct x as [ s' raw ]. done_inv E.
  now split.
Qed.

Lemma stream_loop_names (ds : list Loader.image_decoder) (fuel : nat) :
  forall (img : Loader.loading) (input : list Loader.read_event)
         (data : list Z) (size capacity : Z) (w w' : world)
         (r : image_status * Loader.loading),
    Loader.stream_loop ds fuel img input data size capacity w = Done r w' ->
    same_names (snd r) img.
Proof.
  induction fuel as [ | fuel IH ]; intros img input data size capacity w w' r E;
    cbn [Loader.stream_loop] in E.
  - done_inv E. now split.
  - bind_inv E as grown w1 E1. destruct grown as [ cap | ];
      [ | done_inv E; now split ].
    destruct (cap <? size); [ discriminate | ].
    destruct (Loader.read input (cap - size)) as [ [ [ rc again ] bytes ] input' ].
    destruct (rc =? 0); [ now apply load_from_memory_names in E | ].
    destruct ((rc =? -1) && negb again); [ done_inv E; now split | ].
    now apply IH in E.
Qed.

Lemma load_paths_names (ds : list Loader.image_decoder)
      (stdin : list Loader.read_event)
      (shellcmd_exec : string -> Z * option (list Z))
      (file_data : string -> option (list Z))
      (img : Loader.loading) (arg : string) (w w' : world)
      (r : image_status * Loader.loading) :
  (Loader.load_from_stream ds stdin img w = Done r w' -> same_names (snd r) img)
  /\ (Loader.load_from_exec ds shellcmd_exec img arg w = Done r w' ->
      same_names (snd r) img)
  /\ (Loader.load_from_file ds file_data img arg w = Done r w' ->
      same_names (snd r) img).
Proof.
  split; [ | split ].
  - apply stream_loop_names.
  - unfold Loader.load_from_exec.
    destruct (shellcmd_exec arg) as [ rc out ].
    destruct rc; try (intros E; done_inv E; now split).
    destruct out as [ data | ]; [ | intros E; done_inv E; now split ].
    apply load_from_memory_names.
  - unfold Loader.load_from_file. intros E. bind_inv E as st w1 E1.
    destruct st as [ s | ]; [ | done_inv E; now split ].
    destruct (negb (S_ISREG s)); [ done_inv E; now split | ].
    destruct (file_data arg); [ | done_inv E; now split ].
    now apply load_from_memory_names in E.
Qed.

(** X22. The name and the parent directory [image_load] sets.  After a
    successful load the name of a source that is the standard input or the
    output of a command is the source, and its parent directory is empty.
    For a file whose name and parent directory were not yet set: a source
    without separator is its own name, with an empty parent directory; and
    for a source [q/p/file] or [p/file] the name is [file] and the parent
    directory is [p], the last directory of the path alone. *)
Theorem image_load_names (decoders : list Loader.image_decoder)
        (stdin : list Loader.read_event)
        (shellcmd_exec : string -> Z * option (list Z))
        (file_data : string -> option (list Z))
        (img img' : Loader.loading) (src : string) (w w' : world) :
  Loader.image_load decoders stdin shellcmd_exec file_data img w
  = Done (imgload_success, img') w' ->
  source (Loader.entry img') = src ->
  (streq src LDRSRC_STDIN || has_prefix LDRSRC_EXEC src = true ->
   Loader.name img' = Some src /\ Loader.parent_dir img' = Some "")
  /\ (streq src LDRSRC_STDIN || has_prefix LDRSRC_EXEC src = false ->
      Loader.name img = None -> Loader.parent_dir img = None ->
      (no_slash src = true ->
       Loader.name img' = Some src /\ Loader.parent_dir img' = Some "")
      /\ (forall pre p file,
            src = (pre ++ p ++ "/" ++ file)%string ->
            pre = "" \/ (exists q, pre = (q ++ "/")%string) ->
            no_slash p = true -> no_slash file = true -> file <> "" ->
            Loader.name img' = Some file /\ Loader.parent_dir img' = Some p)).
Proof.
  intros E Hsrc. unfold Loader.image_load in E.
  set (img0 := Loader.set_entry _ img) in E.
  bind_inv E as r w1 E1. destruct r as [ status img1 ].
  assert (Hn : same_names img1 img).
  { destruct (load_paths_names decoders stdin shellcmd_exec file_data img0
                (source (Loader.entry img0)) w w1 (status, img1))
      as (H1 & _ & H3).
    destruct (load_paths_names decoders stdin shellcmd_exec file_data img0
                (substring (String.length LDRSRC_EXEC)
                           (String.length (source (Loader.entry img0)))
                           (source (Loader.entry img0))) w w1 (status, img1))
      as (_ & H2 & _).
    destruct (streq _ _); [ now apply H1 in E1 | ].
    destruct (has_prefix _ _); [ now apply H2 in E1 | now apply H3 in E1 ]. }
  destruct Hn as (Hname & Hparent). cbn [snd] in *.
  destruct status; try (now done_inv E).
  destruct (streq _ _ || has_prefix _ _) eqn:Esp.
  - injection E as Hi Hw. subst img' w'.
    cbn [Loader.entry Loader.set_names Loader.name Loader.parent_dir] in *.
    subst src. split; [ intros _; now split | ].
    intros Hc. rewrite Hc in Esp. discriminate.
  - assert (Hent : Loader.entry img' = Loader.entry img1).
    { destruct (Loader.name img1), (Loader.parent_dir img1);
        try destruct (_ =? _)%nat; try discriminate;
        injection E as Hi Hw; now subst img'. }
    rewrite Hent in Hsrc. subst src.
    split; [ intros Hc; rewrite Esp in Hc; discriminate | ].
    intros _ Hn Hp. rewrite Hn in Hname. rewrite Hp in Hparent.
    rewrite Hname, Hparent in E.
    destruct (String.length (source (Loader.entry img1)) =? 0)%nat;
      [ discriminate | ].
    injection E as Hi Hw. subst img' w'.
    cbn [Loader.entry Loader.set_names Loader.name Loader.parent_dir] in *.
    split.
    + intros Hs. now rewrite name_of_plain, parent_of_plain.
    + intros pre p file Hs Hpre Hsp Hsf Hne. rewrite Hs. split; f_equal.
      * rewrite <- string_app_assoc. now apply name_of_path.
      * now apply parent_of_path.
Qed.

(** A file of four bytes under every path; no command runs. *)
Definition four_bytes (f : string) : option (list Z) := Some [137; 80; 78; 71].
Definition no_command (cmd : string) : Z * option (list Z) := (1, None).

Lemma image_load_names_witness :
  exists img' w',
    Loader.image_load [decode_magic 137 Demo.frame_800x600] [] no_command
                      four_bytes (fresh "/pics/a.png") Demo.w_three
    = Done (imgload_success, img') w'
    /\ source (Loader.entry img') = "/pics/a.png"
    /\ (streq "/pics/a.png" LDRSRC_STDIN
        || has_prefix LDRSRC_EXEC "/pics/a.png" = true ->
        Loader.name img' = Some "/pics/a.png"
        /\ Loader.parent_dir img' = Some "")
    /\ (streq "/pics/a.png" LDRSRC_STDIN
        || has_prefix LDRSRC_EXEC "/pics/a.png" = false ->
        Loader.name (fresh "/pics/a.png") = None ->
        Loader.parent_dir (fresh "/pics/a.png") = None ->
        (no_slash "/pics/a.png" = true ->
         Loader.name img' = Some "/pics/a.png"
         /\ Loader.parent_dir img' = Some "")
        /\ (forall pre p file,
              "/pics/a.png" = (pre ++ p ++ "/" ++ file)%string ->
              pre = "" \/ (exists q, pre = (q ++ "/")%string) ->
              no_slash p = true -> no_slash file = true -> file <> "" ->
              Loader.name img' = Some file
              /\ Loader.parent_dir img' = Some p)).
Proof.
  eexists _, _. split; [ vm_compute; reflexivity | ].
  split; [ reflexivity | ].
  match goal with
  | |- context [ Loader.name ?i = Some "/pics/a.png" ] =>
      eapply (image_load_names [decode_magic 137 Demo.frame_800x600] []
                no_command four_bytes (fresh "/pics/a.png") i "/pics/a.png"
                Demo.w_three)
  end.
  - vm_compute. reflexivity.
  - reflexivity.
Defined.

(** ** Reading the standard input (formats/loader.c) *)

(** A [read] that does not end the loop takes something from the stream. *)
Lemma read_weight (input input' : list Loader.read_event) (count rc : Z)
      (again : bool) (bytes : list Z) :
  Loader.read input count = (rc, again, bytes, input') ->
  (rc =? 0) = false ->
  (rc =? -1) && negb again = false ->
  (Loader.stream_weight input' < Loader.stream_weight input)%nat.
Proof.
  unfold Loader.read. destruct input as [ | [ bs | | ] rest ].
  - intros [= <- _ _ _]. discriminate.
  - intros [= <- <- _ <-] Hrc _. cbn [Loader.stream_weight].
    assert (Hs : length (skipn (Z.to_nat count) bs)
                 = (length bs - length (firstn (Z.to_nat count) bs))%nat).
    { rewrite length_skipn, length_firstn. lia. }
    assert (Hn : (0 < length (firstn (Z.to_nat count) bs))%nat).
    { apply Z.eqb_neq in Hrc. lia. }
    assert (Hle : (length (firstn (Z.to_nat count) bs) <= length bs)%nat)
      by (rewrite length_firstn; lia).
    destruct (skipn (Z.to_nat count) bs) as [ | x later ] eqn:E.
    + lia.
    + cbn [Loader.stream_weight]. lia.
  - intros [= <- <- _ <-] _ _. cbn [Loader.stream_weight]. lia.
  - intros [= <- <- _ _] _ H. discriminate.
Qed.

Lemma bind_cong {A B} (m : M A) (k1 k2 : A -> M B) (w : world) :
  (forall a w1, m w = Done a w1 -> k1 a w1 = k2 a w1) ->
  bind m k1 w = bind m k2 w.
Proof.
  intros H. unfold bind. destruct (m w) as [ a w1 | f ]; [ now apply H | reflexivity ].
Qed.

(** The fuel is immaterial once it exceeds the weight of the stream. *)
Lemma stream_fuel (ds : list Loader.image_decoder) (fuel1 : nat) :
  forall (fuel2 : nat) (img : Loader.loading)
         (input : list Loader.read_event) (data : list Z)
         (size capacity : Z) (w : world),
    (Loader.stream_weight input < fuel1)%nat ->
    (Loader.stream_weight input < fuel2)%nat ->
    Loader.stream_loop ds fuel1 img input data size capacity w
    = Loader.stream_loop ds fuel2 img input data size capacity w.
Proof.
  induction fuel1 as [ | fuel1 IH ];
    intros [ | fuel2 ] img input data size capacity w H1 H2; try lia.
  cbn [Loader.stream_loop]. apply bind_cong. intros grown w1 _.
  destruct grown as [ cap | ]; [ | reflexivity ].
  destruct (cap <? size); [ reflexivity | ].
  destruct (Loader.read input (cap - size))
    as [ [ [ rc again ] bytes ] input' ] eqn:Er.
  destruct (rc =? 0) eqn:E0; [ reflexivity | ].
  destruct ((rc =? -1) && negb again) eqn:E1; [ reflexivity | ].
  pose proof (read_weight _ _ _ _ _ _ Er E0 E1) as Hw.
  apply IH; lia.
Qed.

(** One round of the loop that does not ask for memory. *)
Lemma stream_round (ds : list Loader.image_decoder) (fuel : nat)
      (img : Loader.loading) (input : list Loader.read_event)
      (data : list Z) (size capacity : Z) (w : world) :
  size < capacity ->
  Loader.stream_loop ds (S fuel) img input data size capacity w
  = (let '(rc, again, bytes, input') := Loader.read input (capacity - size) in
     let held := firstn (Z.to_nat size) data in
     if rc =? 0 then Loader.load_from_memory ds img held size
     else if (rc =? -1) && negb again then ret (imgload_ioerror, img)
     else Loader.stream_loop ds fuel img input' (held ++ bytes)
                             (to_size_t (size + rc)) capacity) w.
Proof.
  intros H. cbn [Loader.stream_loop].
  assert (E1 : (size =? capacity) = false) by (apply Z.eqb_neq; lia).
  assert (E2 : (capacity <? size) = false) by (apply Z.ltb_ge; lia).
  rewrite E1. unfold bind at 1. unfold ret at 1. now rewrite E2.
Qed.

(** The first round: the buffer is allocated. *)
Lemma stream_start (ds : list Loader.image_decoder) (fuel : nat)
      (img : Loader.loading) (input : list Loader.read_event) (w : world) :
  Loader.stream_loop ds (S fuel) img input [] 0 0 w
  = match heap w with
    | Some _ :: rest =>
        (let '(rc, again, bytes, input') := Loader.read input 262144 in
         if rc =? 0 then Loader.load_from_memory ds img [] 0
         else if (rc =? -1) && negb again then ret (imgload_ioerror, img)
         else Loader.stream_loop ds fuel img input' bytes
                                 (to_size_t rc) 262144) (set_heap rest w)
    | None :: rest => Done (imgload_ioerror, img) (set_heap rest w)
    | [] => Done (imgload_ioerror, img) w
    end.
Proof.
  cbn [Loader.stream_loop]. unfold bind, Loader.malloc, ret.
  change (0 =? 0) with true. cbv beta iota.
  destruct (heap w) as [ | [ a | ] rest ]; reflexivity.
Qed.

Lemma read_chunk (bs : list Z) (rest : list Loader.read_event) (count : Z) :
  Z.of_nat (length bs) <= count ->
  Loader.read (Loader.Rd_data bs :: rest) count
  = (Z.of_nat (length bs), false, bs, rest).
Proof.
  intros H. unfold Loader.read.
  rewrite firstn_all2, skipn_all2 by lia. reflexivity.
Qed.

Lemma to_size_t_id (z : Z) : 0 <= z < SIZE_MOD -> to_size_t z = z.
Proof. intros H. unfold to_size_t. now apply Z.mod_small. Qed.

(** A round that reads a chunk the buffer has room for. *)
Lemma round_chunk (ds : list Loader.image_decoder) (fuel : nat)
      (img : Loader.loading) (cs : list Z) (input : list Loader.read_event)
      (data : list Z) (size capacity : Z) (w : world) :
  (Loader.stream_weight (Loader.Rd_data cs :: input) < fuel)%nat ->
  cs <> [] -> 0 <= size -> capacity < SIZE_MOD ->
  size + Z.of_nat (length cs) <= capacity ->
  Loader.stream_loop ds fuel img (Loader.Rd_data cs :: input) data size
                     capacity w
  = Loader.stream_loop ds (S (Loader.stream_weight input)) img input
                       (firstn (Z.to_nat size) data ++ cs)
                       (size + Z.of_nat (length cs)) capacity w.
Proof.
  intros Hf Hc Hs Hcap Hroom. destruct fuel as [ | fuel ]; [ lia | ].
  assert (Hm : (0 < length cs)%nat) by (destruct cs; [ contradiction | simpl; lia ]).
  rewrite stream_round by lia. rewrite read_chunk by lia.
  replace (Z.of_nat (length cs) =? 0) with false by (symmetry; apply Z.eqb_neq; lia).
  replace (Z.of_nat (length cs) =? -1) with false by (symmetry; apply Z.eqb_neq; lia).
  cbn [andb]. rewrite to_size_t_id by lia.
  apply stream_fuel; [ cbn [Loader.stream_weight] in Hf; lia | lia ].
Qed.

(** A round whose [read] finds nothing yet. *)
Lemma round_again (ds : list Loader.image_decoder) (fuel : nat)
      (img : Loader.loading) (input : list Loader.read_event)
      (data : list Z) (size capacity : Z) (w : world) :
  (Loader.stream_weight (Loader.Rd_again :: input) < fuel)%nat ->
  0 < size < capacity -> capacity < SIZE_MOD ->
  Loader.stream_loop ds fuel img (Loader.Rd_again :: input) data size
                     capacity w
  = Loader.stream_loop ds (S (Loader.stream_weight input)) img input
                       (firstn (Z.to_nat size) data) (size - 1) capacity w.
Proof.
  intros Hf Hs Hcap. destruct fuel as [ | fuel ]; [ lia | ].
  rewrite stream_round by lia. cbn [Loader.read]. cbn [Z.eqb andb negb].
  change ((1 =? 1)%positive) with true. cbn [andb].
  rewrite app_nil_r. replace (size + -1) with (size - 1) by lia.
  rewrite to_size_t_id by lia.
  apply stream_fuel; [ cbn [Loader.stream_weight] in Hf; lia | lia ].
Qed.

(** The first round, when the buffer is allocated. *)
Lemma round_first (ds : list Loader.image_decoder) (fuel : nat)
      (img : Loader.loading) (input : list Loader.read_event)
      (a : ptr) (h : list (option ptr)) (w : world) :
  (Loader.stream_weight input < fuel)%nat ->
  heap w = Some a :: h ->
  Loader.stream_loop ds fuel img input [] 0 0 w
  = Loader.stream_loop ds (S (Loader.stream_weight input)) img input [] 0
                       262144 (set_heap h w).
Proof.
  intros Hf Hh. destruct fuel as [ | fuel ]; [ lia | ].
  rewrite stream_start, Hh. rewrite stream_round by lia.
  change (262144 - 0) with 262144. change (firstn (Z.to_nat 0) []) with (@nil Z).
  destruct (Loader.read input 262144) as [ [ [ rc again ] bytes ] input' ] eqn:Er.
  destruct (rc =? 0) eqn:E0; [ reflexivity | ].
  destruct ((rc =? -1) && negb again) eqn:E1; [ reflexivity | ].
  pose proof (read_weight _ _ _ _ _ _ Er E0 E1) as Hw.
  cbn [app]. change (0 + rc) with rc.
  apply stream_fuel; lia.
Qed.

Lemma round_first_failed (ds : list Loader.image_decoder) (fuel : nat)
      (img : Loader.loading) (input : list Loader.read_event) (w : world) :
  (0 < fuel)%nat ->
  (forall a h, heap w <> Some a :: h) ->
  Loader.stream_loop ds fuel img input [] 0 0 w
  = Done (imgload_ioerror, img) (set_heap (tl (heap w)) w).
Proof.
  intros Hf Hh. destruct fuel as [ | fuel ]; [ lia | ].
  rewrite stream_start. destruct (heap w) as [ | [ a | ] h ] eqn:E.
  - destruct w. cbn in E. subst. reflexivity.
  - now destruct (Hh a h).
  - reflexivity.
Qed.

(** X23. A read that finds nothing yet loses a byte.  When a chunk of the
    standard input is followed by a [read] that fails with [EAGAIN] and
    then by another chunk (all within the first 256 KiB of the buffer),
    [load_from_stream] goes on as if the last byte of the first chunk had
    not been sent: the count of bytes is lowered by the return value -1,
    and the next chunk is stored over that byte. *)
Theorem eagain_drops_a_byte (ds : list Loader.image_decoder)
        (bs cs : list Z) (rest : list Loader.read_event)
        (img : Loader.loading) (w : world) :
  bs <> [] -> cs <> [] ->
  Z.of_nat (length bs + length cs) <= 262144 ->
  Loader.load_from_stream
    ds (Loader.Rd_data bs :: Loader.Rd_again :: Loader.Rd_data cs :: rest) img w
  = Loader.load_from_stream
      ds (Loader.Rd_data (removelast bs ++ cs) :: rest) img w.
Proof.
  intros Hb Hc Hlen. unfold Loader.load_from_stream.
  assert (Hn : (0 < length bs)%nat) by (destruct bs; [ contradiction | simpl; lia ]).
  assert (Hm : (0 < length cs)%nat) by (destruct cs; [ contradiction | simpl; lia ]).
  assert (Hr : length (removelast bs ++ cs) = (length bs - 1 + length cs)%nat).
  { rewrite length_app, removelast_firstn_len, length_firstn. lia. }
  assert (HM : 262144 < SIZE_MOD) by reflexivity.
  destruct (heap w) as [ | [ a | ] h ] eqn:Eh.
  2:{ rewrite !(round_first ds _ img _ a h w) by (try exact Eh; lia).
      rewrite round_chunk by (try assumption; cbn [Loader.stream_weight]; lia).
      rewrite round_again
        by (try assumption; cbn [Loader.stream_weight]; lia).
      rewrite round_chunk
        by (try assumption; cbn [Loader.stream_weight]; lia).
      rewrite (round_chunk ds _ img (removelast bs ++ cs))
        by (try assumption; try lia;
            intros E; apply (f_equal (@length Z)) in E; simpl in E; lia).
      change (firstn (Z.to_nat 0) (@nil Z)) with (@nil Z). cbn [app].
      rewrite !Z.add_0_l, Nat2Z.id, firstn_all.
      replace (Z.to_nat (Z.of_nat (length bs) - 1)) with (pred (length bs)) by lia.
      rewrite <- removelast_firstn_len. f_equal. lia. }
  - rewrite !round_first_failed by (try lia; rewrite Eh; discriminate).
    reflexivity.
  - rewrite !round_first_failed by (try lia; rewrite Eh; discriminate).
    reflexivity.
Qed.

Lemma eagain_drops_a_byte_witness :
  Loader.load_from_stream
    [decode_magic 137 Demo.frame_800x600]
    [Loader.Rd_data [137; 80; 0]; Loader.Rd_again; Loader.Rd_data [78; 71]]
    (fresh "stdin://") Demo.w_three
  = Loader.load_from_stream
      [decode_magic 137 Demo.frame_800x600]
      [Loader.Rd_data (removelast [137; 80; 0] ++ [78; 71])]
      (fresh "stdin://") Demo.w_three.
Proof.
  apply (eagain_drops_a_byte [decode_magic 137 Demo.frame_800x600]
           [137; 80; 0] [78; 71] [] (fresh "stdin://") Demo.w_three);
    [ discriminate | discriminate | cbn; lia ].
Defined.

(** X24. A first read that finds nothing yet.  When the first [read] of
    the standard input fails with [EAGAIN], the count of bytes, which is
    0, is lowered by the return value -1 to 2^64 - 1, and the next round
    hands [read] a position outside the buffer it has allocated. *)
Theorem eagain_at_start (ds : list Loader.image_decoder)
        (rest : list Loader.read_event) (img : Loader.loading)
        (a : ptr) (h : list (option ptr)) (w : world) :
  heap w = Some a :: h ->
  Loader.load_from_stream ds (Loader.Rd_again :: rest) img w
  = Fault OutOfBounds.
Proof.
  intros Hh. unfold Loader.load_from_stream.
  rewrite (round_first ds _ img _ a h w) by (try exact Hh; lia).
  cbn [Loader.stream_weight]. rewrite stream_round by lia.
  cbn [Loader.read]. cbn [Z.eqb andb negb].
  change ((1 =? 1)%positive) with true. cbn [andb].
  cbn [Loader.stream_loop].
  change (to_size_t (0 + -1)) with (2 ^ 64 - 1).
  reflexivity.
Qed.

Lemma eagain_at_start_witness :
  Loader.load_from_stream [decode_magic 137 Demo.frame_800x600]
                          [Loader.Rd_again; Loader.Rd_data [137; 80; 78; 71]]
                          (fresh "stdin://") Demo.w_three
  = Fault OutOfBounds.
Proof.
  apply (eagain_at_start [decode_magic 137 Demo.frame_800x600]
           [Loader.Rd_data [137; 80; 78; 71]] (fresh "stdin://")
           1000 [Some 1001; Some 1002; Some 1003] Demo.w_three).
  reflexivity.
Defined.

(** *** A stream that arrives in chunks *)

Fixpoint chunks_only (input : list Loader.read_event) : bool :=
  match input with
  | [] => true
  | Loader.Rd_data (_ :: _) :: rest => chunks_only rest
  | _ => false
  end.

Fixpoint stream_bytes (input : list Loader.read_event) : list Z :=
  match input with
  | [] => []
  | Loader.Rd_data bytes :: rest => bytes ++ stream_bytes rest
  | _ :: rest => stream_bytes rest
  end.

(** The heap after [n] allocations that succeed. *)
Fixpoint granted (n : nat) (h : list (option ptr)) : option (list (option ptr)) :=
  match n with
  | O => Some h
  | S k =>
      match h with
      | Some _ :: rest => granted k rest
      | _ => None
      end
  end.

(** A round that finds the buffer full goes on with a larger buffer. *)
Lemma round_grow (ds : list Loader.image_decoder) (fuel : nat)
      (img : Loader.loading) (input : list Loader.read_event)
      (data : list Z) (size : Z) (a : ptr) (h : list (option ptr))
      (w : world) :
  0 <= size -> size + 262144 < SIZE_MOD ->
  heap w = Some a :: h ->
  Loader.stream_loop ds (S fuel) img input data size size w
  = Loader.stream_loop ds (S fuel) img input data size (size + 262144)
                       (set_heap h w).
Proof.
  intros Hs Hb Hh. rewrite (stream_round ds fuel img input data size
                              (size + 262144)) by lia.
  cbn [Loader.stream_loop]. rewrite Z.eqb_refl.
  unfold bind, Loader.malloc, ret. rewrite Hh.
  change (256 * 1024) with 262144. rewrite to_size_t_id by lia.
  replace (size + 262144 <? size) with false by (symmetry; apply Z.ltb_ge; lia).
  reflexivity.
Qed.

Lemma set_heap_same (w : world) : set_heap (heap w) w = w.
Proof. now destruct w. Qed.

Lemma load_from_memory_held (ds : list Loader.image_decoder)
      (img : Loader.loading) (data : list Z) (w : world) :
  Loader.load_from_memory ds img
    (firstn (Z.to_nat (Z.of_nat (length data))) data) (Z.of_nat (length data)) w
  = Loader.load_from_memory ds img data (Z.of_nat (length data)) w.
Proof. now rewrite Nat2Z.id, firstn_all. Qed.

(** The rounds of the loop on a stream that arrives in chunks: the buffer
    holds [size] bytes and has room for 262144 * [c]. *)
Lemma stream_collects (ds : list Loader.image_decoder) (img : Loader.loading)
      (fuel : nat) :
  forall (input : list Loader.read_event) (data : list Z) (c : Z) (w : world)
         (h' : list (option ptr)),
    chunks_only input = true ->
    (Loader.stream_weight input < fuel)%nat ->
    c = 0 /\ data = [] \/ 262144 * (c - 1) <= Z.of_nat (length data) <= 262144 * c
                          /\ 1 <= c ->
    Z.of_nat (length data + length (stream_bytes input)) + 262144 < SIZE_MOD ->
    granted (Z.to_nat (Z.of_nat (length data + length (stream_bytes input))
                       / 262144 + 1 - c)) (heap w) = Some h' ->
    Loader.stream_loop ds fuel img input data (Z.of_nat (length data))
                       (262144 * c) w
    = Loader.load_from_memory ds img (data ++ stream_bytes input)
        (Z.of_nat (length data + length (stream_bytes input)))
        (set_heap h' w).
Proof.
  induction fuel as [ | fuel IH ]; intros input data c w h' Hin Hf Hc Hb Hg;
    [ lia | ].
  (* with room in the buffer *)
  assert (Hroom : forall (c : Z) (w : world) (h' : list (option ptr)),
             262144 * (c - 1) <= Z.of_nat (length data) < 262144 * c ->
             granted (Z.to_nat (Z.of_nat (length data
                                          + length (stream_bytes input))
                                / 262144 + 1 - c)) (heap w) = Some h' ->
             Loader.stream_loop ds (S fuel) img input data
                                (Z.of_nat (length data)) (262144 * c) w
             = Loader.load_from_memory ds img (data ++ stream_bytes input)
                 (Z.of_nat (length data + length (stream_bytes input)))
                 (set_heap h' w)).
  { clear c w h' Hc Hg. intros c w h' Hc Hg.
    rewrite stream_round by lia.
    destruct input as [ | [ [ | b bs ] | | ] rest ]; try discriminate.
    - (* the end of the stream *)
      cbn [Loader.read stream_bytes] in *. cbn [Z.eqb].
      rewrite Nat.add_0_r in *. rewrite app_nil_r.
      replace (Z.of_nat (length data) / 262144 + 1 - c) with 0 in Hg
        by (Z.to_euclidean_division_equations; lia).
      cbn [Z.to_nat granted] in Hg. injection Hg as <-.
      rewrite set_heap_same. apply load_from_memory_held.
    - (* a chunk *)
      set (chunk := b :: bs) in *.
      set (count := 262144 * c - Z.of_nat (length data)).
      cbn [Loader.read].
      assert (Hsplit : chunk = (firstn (Z.to_nat count) chunk
                                ++ skipn (Z.to_nat count) chunk)%list)
        by (symmetry; apply firstn_skipn).
      assert (Hnow : (0 < length (firstn (Z.to_nat count) chunk))%nat).
      { rewrite length_firstn. subst chunk count. cbn [length]. lia. }
      assert (Hfit : Z.of_nat (length (firstn (Z.to_nat count) chunk)) <= count).
      { rewrite length_firstn. lia. }
      assert (Hlen : length chunk
                     = (length (firstn (Z.to_nat count) chunk)
                        + length (skipn (Z.to_nat count) chunk))%nat).
      { rewrite Hsplit at 1. apply length_app. }
      replace (Z.of_nat (length (firstn (Z.to_nat count) chunk)) =? 0)
        with false by (symmetry; apply Z.eqb_neq; lia).
      replace (Z.of_nat (length (firstn (Z.to_nat count) chunk)) =? -1)
        with false by (symmetry; apply Z.eqb_neq; lia).
      cbn [andb]. rewrite Nat2Z.id, firstn_all.
      cbn [stream_bytes] in *. rewrite length_app in *.
      rewrite to_size_t_id by lia.
      set (now := firstn (Z.to_nat count) chunk) in *.
      set (later := skipn (Z.to_nat count) chunk) in *.
      set (input' := match later with
                     | [] => rest
                     | _ :: _ => Loader.Rd_data later :: rest
                     end).
      assert (Hbytes : stream_bytes input' = (later ++ stream_bytes rest)%list).
      { subst input'. now destruct later. }
      assert (Hin' : chunks_only input' = true).
      { subst input'. cbn [chunks_only] in Hin. now destruct later. }
      assert (Hw' : (Loader.stream_weight input' < fuel)%nat).
      { subst input'. cbn [Loader.stream_weight] in Hf.
        destruct later; cbn [Loader.stream_weight length] in *; lia. }
      replace (Z.of_nat (length data) + Z.of_nat (length now))
        with (Z.of_nat (length (data ++ now)))
        by (rewrite length_app; lia).
      assert (Htotal : (length (data ++ now) + length (stream_bytes input')
                        = length data + (length chunk
                                         + length (stream_bytes rest)))%nat).
      { rewrite Hbytes, !length_app. lia. }
      rewrite (IH input' (data ++ now)%list c w h' Hin' Hw').
      + rewrite Htotal, Hbytes. f_equal.
        rewrite <- app_assoc. f_equal. rewrite app_assoc.
        f_equal. subst now later. apply firstn_skipn.
      + right. rewrite length_app. subst count. lia.
      + rewrite Htotal. lia.
      + rewrite Htotal. exact Hg. }
  destruct Hc as [ (-> & ->) | (Hc & Hc1) ].
  - (* the first round *)
    cbn [length app] in *.
    destruct (heap w) as [ | [ a | ] h ] eqn:Eh;
      try (cbn [granted] in Hg;
           replace (Z.to_nat (Z.of_nat (0 + length (stream_bytes input))
                              / 262144 + 1 - 0))
             with (S (Z.to_nat (Z.of_nat (length (stream_bytes input)) / 262144)))
             in Hg by (Z.to_euclidean_division_equations; lia);
           discriminate).
    change (262144 * 0) with (Z.of_nat (@length Z [])).
    rewrite (round_grow ds fuel img input [] _ a h w) by (cbn; try lia; exact Eh).
    change (Z.of_nat (@length Z []) + 262144) with (262144 * 1).
    apply (Hroom 1 (set_heap h w) h'); [ cbn; lia | ].
    cbn [length Nat.add heap set_heap].
    replace (Z.to_nat (Z.of_nat (0 + length (stream_bytes input))
                       / 262144 + 1 - 0))
      with (S (Z.to_nat (Z.of_nat (length (stream_bytes input))
                         / 262144 + 1 - 1)))
      in Hg by (Z.to_euclidean_division_equations; lia).
    exact Hg.
  - destruct (Z.eq_dec (Z.of_nat (length data)) (262144 * c)) as [ Hfull | Hnot ].
    + (* the buffer is full *)
      set (need := Z.to_nat (Z.of_nat (length data + length (stream_bytes input))
                             / 262144 + 1 - c)) in *.
      assert (Hneed : need
                      = S (Z.to_nat (Z.of_nat (length data
                                               + length (stream_bytes input))
                                     / 262144 + 1 - (c + 1)))).
      { subst need. Z.to_euclidean_division_equations. lia. }
      rewrite Hneed in Hg. cbn [granted] in Hg.
      destruct (heap w) as [ | [ a | ] h ] eqn:Eh; try discriminate.
      rewrite <- Hfull.
      rewrite (round_grow ds fuel img input data _ a h w)
        by (try lia; exact Eh).
      replace (Z.of_nat (length data) + 262144) with (262144 * (c + 1)) by lia.
      apply (Hroom (c + 1) (set_heap h w) h'); [ lia | exact Hg ].
    + apply Hroom; [ lia | exact Hg ].
Qed.

(** X25. The standard input is read whole.  When the stream arrives in
    chunks, without a failing [read], and the allocator grants the buffer
    and each of its extensions by 256 KiB, [load_from_stream] hands to
    [load_from_memory] all the bytes of the stream, in the order they
    arrived, with their number; the buffer is extended once for every
    262144 bytes, and once more when the stream ends on such a boundary. *)
Theorem stream_is_read_whole (ds : list Loader.image_decoder)
        (stdin : list Loader.read_event) (img : Loader.loading)
        (w : world) (h' : list (option ptr)) :
  chunks_only stdin = true ->
  Z.of_nat (length (stream_bytes stdin)) + 262144 < SIZE_MOD ->
  granted (Z.to_nat (Z.of_nat (length (stream_bytes stdin)) / 262144 + 1))
          (heap w) = Some h' ->
  Loader.load_from_stream ds stdin img w
  = Loader.load_from_memory ds img (stream_bytes stdin)
      (Z.of_nat (length (stream_bytes stdin))) (set_heap h' w).
Proof.
  intros Hin Hb Hg. unfold Loader.load_from_stream.
  apply (stream_collects ds img _ stdin [] 0 w h' Hin).
  - lia.
  - now left.
  - exact Hb.
  - cbn [length Nat.add]. rewrite Z.sub_0_r. exact Hg.
Qed.

Lemma stream_is_read_whole_witness :
  Loader.load_from_stream
    [decode_magic 137 Demo.frame_800x600]
    [Loader.Rd_data [137; 80]; Loader.Rd_data [78; 71]]
    (fresh "stdin://") Demo.w_three
  = Loader.load_from_memory
      [decode_magic 137 Demo.frame_800x600] (fresh "stdin://")
      (stream_bytes [Loader.Rd_data [137; 80]; Loader.Rd_data [78; 71]])
      (Z.of_nat (length (stream_bytes [Loader.Rd_data [137; 80];
                                       Loader.Rd_data [78; 71]])))
      (set_heap [Some 1001; Some 1002; Some 1003] Demo.w_three).
Proof.
  apply (stream_is_read_whole [decode_magic 137 Demo.frame_800x600]
           [Loader.Rd_data [137; 80]; Loader.Rd_data [78; 71]]
           (fresh "stdin://") Demo.w_three
           [Some 1001; Some 1002; Some 1003]);
    [ reflexivity | reflexivity | reflexivity ].
Defined.

(** ** A load that fails (formats/loader.c) *)

(** X26. A file that cannot be read.  For a source that is neither the
    standard input nor a command, when [stat] fails, when the source is no
    regular file, or when it cannot be opened and mapped, [image_load]
    answers with an I/O error without asking a decoder and without
    allocating; the frames and the thumbnail the entry had are released
    all the same, and nothing else of the entry is changed. *)
Theorem image_load_unreadable (decoders : list Loader.image_decoder)
        (stdin : list Loader.read_event)
        (shellcmd_exec : string -> Z * option (list Z))
        (file_data : string -> option (list Z))
        (img : Loader.loading) (w : world) :
  streq (source (Loader.entry img)) LDRSRC_STDIN = false ->
  has_prefix LDRSRC_EXEC (source (Loader.entry img)) = false ->
  (forall s, fs_stat (fsroot w) (source (Loader.entry img)) = Some s ->
             S_ISREG s = true ->
             file_data (source (Loader.entry img)) = None) ->
  Loader.image_load decoders stdin shellcmd_exec file_data img w
  = Done (imgload_ioerror,
          Loader.set_entry
            (set_thumbnail None (set_frames [] (Loader.entry img))) img) w.
Proof.
  intros Hs He Hf. unfold Loader.image_load.
  cbn [Loader.entry Loader.set_entry source set_thumbnail set_frames].
  rewrite Hs, He. unfold Loader.load_from_file, bind, stat, gets.
  destruct (fs_stat (fsroot w) (source (Loader.entry img))) as [ s | ] eqn:Est;
    [ | reflexivity ].
  destruct (S_ISREG s) eqn:Er; [ | reflexivity ].
  cbn [negb]. now rewrite (Hf s eq_refl Er).
Qed.

Lemma image_load_unreadable_witness :
  Loader.image_load [decode_magic 137 Demo.frame_800x600] [] no_command
                    four_bytes
                    (Loader.mk_loading
                       (mk_image 500 "/pics/sub" 0 0 0 [Demo.frame_800x600]
                                 (Some Demo.thumb_128))
                       None None None)
                    Demo.w_three
  = Done (imgload_ioerror,
          Loader.set_entry
            (set_thumbnail None
               (set_frames []
                  (mk_image 500 "/pics/sub" 0 0 0 [Demo.frame_800x600]
                            (Some Demo.thumb_128))))
            (Loader.mk_loading
               (mk_image 500 "/pics/sub" 0 0 0 [Demo.frame_800x600]
                         (Some Demo.thumb_128))
               None None None))
         Demo.w_three.
Proof.
  apply (image_load_unreadable [decode_magic 137 Demo.frame_800x600] []
           no_command four_bytes
           (Loader.mk_loading
              (mk_image 500 "/pics/sub" 0 0 0 [Demo.frame_800x600]
                        (Some Demo.thumb_128))
              None None None)
           Demo.w_three).
  - reflexivity.
  - reflexivity.
  - intros s Hst Hreg. vm_compute in Hst. injection Hst as <-. discriminate Hreg.
Defined.

(** ** A file appears (imglist.c) *)

(** What [add_entry] does for a source the list does not hold. *)
Lemma add_entry_fresh (X : externals) (src : string) (st : option stat_t)
      (w w' : world) (r : option ptr) :
  find_source (images (il w)) src = None ->
  add_entry X src st w = Done r w' ->
  trace w' = trace w
  /\ match heap w with
     | Some a :: rest =>
         r = Some a /\ heap w' = rest
         /\ exists entry,
              addr entry = a /\ source entry = src
              /\ file_size entry = match st with
                                   | Some s => to_size_t (st_size s)
                                   | None => 0
                                   end
              /\ file_time entry = match st with
                                   | Some s => st_mtime s
                                   | None => 0
                                   end
              /\ ((exists p, images (il w')
                             = IList.insert (images (il w)) p entry)
                  \/ images (il w') = IList.append (images (il w)) entry)
     | _ => r = None /\ heap w' = tl (heap w) /\ il w' = il w
     end.
Proof.
  intros F H. unfold add_entry in H. bind_inv H as found w0 Hf.
  unfold imglist_find, gets in Hf. done_inv Hf. rewrite F in H.
  bind_inv H as created w1 Hc. unfold image_create in Hc.
  destruct (heap w0) as [ | [ ad | ] rest ] eqn:Hh; done_inv Hc;
    try (unfold ret in H; done_inv H; cbn; now repeat split).
  bind_inv H as u w2 Hs. unfold modify_il, modify in Hs. done_inv Hs.
  bind_inv H as sz w3 Hg. unfold gets in Hg. done_inv Hg.
  bind_inv H as pos w4 Hp.
  pose proof (ordered_position_il _ _ _ _ _ Hp) as (E & Eh & Et).
  bind_inv H as u' w5 Hi. unfold ret in H. done_inv H.
  set (entry := set_index _ _) in Hp.
  assert (Hfields : addr entry = ad /\ source entry = src
                    /\ file_size entry = match st with
                                         | Some s => to_size_t (st_size s)
                                         | None => 0
                                         end
                    /\ file_time entry = match st with
                                         | Some s => st_mtime s
                                         | None => 0
                                         end).
  { subst entry. destruct st; cbn; now repeat split. }
  destruct pos as [ p | ]; unfold modify_il, modify in Hi; done_inv Hi;
    cbn [il set_il images set_images size set_size heap trace];
    rewrite Eh, E, Et;
    cbn [il set_il set_heap images set_images size set_size heap trace];
    (split; [ reflexivity | ]); (split; [ destruct st; reflexivity | ]);
    (split; [ reflexivity | ]); exists entry;
    destruct Hfields as (H1 & H2 & H3 & H4);
    (split; [ exact H1 | ]); (split; [ exact H2 | ]);
    (split; [ exact H3 | ]); (split; [ exact H4 | ]).
  - left. now exists p.
  - now right.
Qed.

Lemma reindex_from_In (l : list image) (sz : Z) (x : image) :
  In x l -> exists i, In (set_index i x) (snd (reindex_from sz l)).
Proof.
  revert sz. induction l as [ | y t IH ]; intros sz; [ intros [] | ].
  cbn [reindex_from]. specialize (IH (to_size_t (sz + 1))).
  destruct (reindex_from (to_size_t (sz + 1)) t) as [ n t' ]. cbn [snd] in *.
  intros [ -> | H ].
  - exists (to_size_t (sz + 1)). now left.
  - destruct (IH H) as (i & Hi). exists i. now right.
Qed.

Lemma insert_In (l : list image) (p : ptr) (e : image) :
  In e (IList.insert l p e).
Proof.
  induction l as [ | x t IH ]; simpl; [ now left | ].
  destruct (addr x =? p); [ now left | now right ].
Qed.

Lemma append_In (l : list image) (e : image) : In e (IList.append l e).
Proof. unfold IList.append. apply in_app_iff. right. now left. Qed.

(** The body of the handler for a file that has appeared. *)
Lemma create_file_body (X : externals) (path : string) (s : stat_t)
      (w : world) :
  fs_stat (fsroot w) path = Some s -> S_ISREG s = true ->
  fsevent_body X fsevent_create path false w
  = (img <- add_entry X path (Some s) ;; notify img fsevent_create) w.
Proof.
  intros Hst Hreg. unfold fsevent_body, stat.
  unfold bind at 1. unfold gets at 1. now rewrite Hst, Hreg.
Qed.

(** X27. A file appears.  For a "create" event on a path that is a
    regular file, under every ordering policy but the random one, the
    handler completes and releases the lock, and: when the list holds the
    path already, it notifies the observers of that entry and only
    renumbers the list; when it does not and the allocation succeeds, the
    list gains exactly one entry, with the new address, the path as
    source, and the size and the modification time [stat] gave, and the
    observers are notified of it; when the allocation fails, nobody is
    notified and the list is only renumbered. *)
Theorem fsevent_create_file (X : externals) (path : string) (c : ascii)
        (s : stat_t) (w : world) :
  last_char path = Some c -> c <> "/"%char ->
  fs_stat (fsroot w) path = Some s -> S_ISREG s = true ->
  order (il w) <> order_random ->
  exists w',
    on_fsevent X fsevent_create path w = Done tt w'
    /\ lock (il w') = false
    /\ (forall p, find_source (images (il w)) path = Some p ->
          images (il w') = snd (reindex_from 0 (images (il w)))
          /\ heap w' = heap w
          /\ trace w' = (trace w ++ [Ev_imglist p fsevent_create])%list)
    /\ (find_source (images (il w)) path = None ->
        forall a h, heap w = Some a :: h ->
          heap w' = h
          /\ trace w' = (trace w ++ [Ev_imglist a fsevent_create])%list
          /\ Permutation (map tag (images (il w')))
                         ((a, path) :: map tag (images (il w)))
          /\ exists e, In e (images (il w')) /\ addr e = a /\ source e = path
                       /\ file_size e = to_size_t (st_size s)
                       /\ file_time e = st_mtime s)
    /\ (find_source (images (il w)) path = None ->
        (forall a h, heap w <> Some a :: h) ->
        images (il w') = snd (reindex_from 0 (images (il w)))
        /\ heap w' = tl (heap w)
        /\ trace w' = trace w).
Proof.
  intros L Hc Hst Hreg Ho.
  assert (Ec : Ascii.eqb c "/" = false) by now apply Ascii.eqb_neq.
  set (wl := set_il (set_lock true (il w)) w).
  destruct (completes_add_entry X path (Some s) wl Ho) as (r & w1 & E & _).
  assert (B : exists w2,
             fsevent_body X fsevent_create path (Ascii.eqb c "/") wl = Done tt w2
             /\ il w2 = il w1 /\ heap w2 = heap w1
             /\ trace w2 = (trace w1 ++ match r with
                                        | Some p => [Ev_imglist p fsevent_create]
                                        | None => []
                                        end)%list).
  { rewrite Ec, (create_file_body X path s wl Hst Hreg).
    rewrite (bind_eq _ _ _ _ _ E).
    destruct r as [ p | ]; eexists; (split; [ reflexivity | ]); cbn;
      repeat split. now rewrite app_nil_r. }
  destruct B as (w2 & B & Hil & Hheap & Htrace).
  rewrite (on_fsevent_run X fsevent_create path c w w2 L B).
  eexists. split; [ reflexivity | ].
  cbn [il set_il images set_images set_size set_lock trace set_trace lock
          size heap].
  split; [ reflexivity | ].
  rewrite Hil, Hheap, Htrace.
  split; [ | split ].
  - intros p F.
    rewrite (add_entry_present X path (Some s) wl p F) in E. done_inv E.
    now repeat split.
  - intros F a h Hh.
    destruct (add_entry_fresh X path (Some s) wl w1 r F E) as (Ht & Hcase).
    change (heap wl) with (heap w) in Hcase. rewrite Hh in Hcase.
    destruct Hcase as (-> & Hh1 & entry & Ha & Hs & Hsz & Htm & Hi).
    change (images (il wl)) with (images (il w)) in Hi.
    split; [ exact Hh1 | ]. split; [ now rewrite Ht | ].
    assert (Hin : In entry (images (il w1))
                  /\ Permutation (map tag (images (il w1)))
                                 (tag entry :: map tag (images (il w)))).
    { destruct Hi as [ (p & ->) | -> ];
        (split; [ first [ apply insert_In | apply append_In ]
                | first [ apply insert_perm | apply append_perm ] ]). }
    destruct Hin as (Hin & Hperm). split.
    + rewrite reindex_from_tag. unfold tag at 2 in Hperm.
      now rewrite Ha, Hs in Hperm.
    + destruct (reindex_from_In _ 0 _ Hin) as (i & Hi').
      exists (set_index i entry). now repeat split.
  - intros F Hh.
    destruct (add_entry_fresh X path (Some s) wl w1 r F E) as (Ht & Hcase).
    change (heap wl) with (heap w) in Hcase.
    destruct (heap w) as [ | [ a | ] h ] eqn:Eh.
    + destruct Hcase as (-> & Hh1 & Hil1). rewrite Hil1, Ht, app_nil_r.
      now repeat split.
    + now destruct (Hh a h).
    + destruct Hcase as (-> & Hh1 & Hil1). rewrite Hil1, Ht, app_nil_r.
      now repeat split.
Qed.

Lemma fsevent_create_file_witness :
  exists w',
    on_fsevent Demo.env fsevent_create "/pics/b.png" Demo.w_alpha = Done tt w'
    /\ lock (il w') = false
    /\ (forall p, find_source (images (il Demo.w_alpha)) "/pics/b.png" = Some p ->
          images (il w') = snd (reindex_from 0 (images (il Demo.w_alpha)))
          /\ heap w' = heap Demo.w_alpha
          /\ trace w'
             = (trace Demo.w_alpha ++ [Ev_imglist p fsevent_create])%list)
    /\ (find_source (images (il Demo.w_alpha)) "/pics/b.png" = None ->
        forall a h, heap Demo.w_alpha = Some a :: h ->
          heap w' = h
          /\ trace w'
             = (trace Demo.w_alpha ++ [Ev_imglist a fsevent_create])%list
          /\ Permutation (map tag (images (il w')))
                         ((a, "/pics/b.png")
                            :: map tag (images (il Demo.w_alpha)))
          /\ exists e, In e (images (il w')) /\ addr e = a
                       /\ source e = "/pics/b.png"
                       /\ file_size e
                          = to_size_t (st_size (mk_stat S_IFREG 20 Demo.t0))
                       /\ file_time e = st_mtime (mk_stat S_IFREG 20 Demo.t0))
    /\ (find_source (images (il Demo.w_alpha)) "/pics/b.png" = None ->
        (forall a h, heap Demo.w_alpha <> Some a :: h) ->
        images (il w') = snd (reindex_from 0 (images (il Demo.w_alpha)))
        /\ heap w' = tl (heap Demo.w_alpha)
        /\ trace w' = trace Demo.w_alpha).
Proof.
  apply (fsevent_create_file Demo.env "/pics/b.png" "g"%char
           (mk_stat S_IFREG 20 Demo.t0) Demo.w_alpha);
    [ reflexivity | discriminate | reflexivity | reflexivity | discriminate ].
Defined.

(** ** The directories of a stored thumbnail (gallery.c) *)

(** The directories [pstore_save] creates are the texts that end before a
    separator of the path, the separator at its very beginning apart. *)
Lemma dir_prefixes_spec (rest : string) :
  forall (done d : string),
    In d (dir_prefixes done rest)
    <-> d <> "" /\ exists a b, rest = (a ++ "/" ++ b)%string
                               /\ d = (done ++ a)%string.
Proof.
  induction rest as [ | c r IH ]; intros done d; cbn [dir_prefixes].
  - split; [ intros [] | ]. intros (_ & a & b & H & _). now destruct a.
  - rewrite in_app_iff, IH. split.
    + intros [ H | (Hd & a & b & -> & ->) ].
      * destruct (Ascii.eqb c "/") eqn:Ec; [ | destruct H ].
        destruct (streq done "") eqn:Es; [ destruct H | ].
        cbn in H. destruct H as [ <- | [] ]. apply Ascii.eqb_eq in Ec. subst c.
        split.
        -- intros ->. discriminate.
        -- exists "", r. split; [ reflexivity | ]. now rewrite string_app_nil_r.
      * split; [ exact Hd | ]. exists (String c a), b.
        split; [ reflexivity | ]. now rewrite string_app_assoc.
    + intros (Hd & a & b & Hr & ->). destruct a as [ | x a ].
      * cbn [append] in Hr. injection Hr as -> <-. left.
        rewrite string_app_nil_r in *. rewrite Ascii.eqb_refl.
        destruct (streq done "") eqn:Es; [ | now left ].
        apply streq_eq in Es. contradiction.
      * cbn [append] in Hr. injection Hr as <- ->. right.
        split; [ exact Hd | ].
        exists a, b. split; [ reflexivity | ]. now rewrite string_app_assoc.
Qed.

Lemma mkdir_all (X : externals) (path : string) :
  forallb (mkdir_ok X) (dir_prefixes "" path) = true
  <-> forall d rest, d <> "" -> path = (d ++ "/" ++ rest)%string ->
                     mkdir_ok X d = true.
Proof.
  rewrite forallb_forall. split.
  - intros H d rest Hd Hp. apply H. apply dir_prefixes_spec.
    split; [ exact Hd | ]. now exists d, rest.
  - intros H d Hin. apply dir_prefixes_spec in Hin.
    destruct Hin as (Hd & a & b & Hp & ->). now apply (H a b).
Qed.

(** X29. The directories of a stored thumbnail.  To store a thumbnail,
    [pstore_save] asks [mkdir] for the directories above the path and for
    nothing else: when [mkdir] succeeds (or finds the directory) for every
    non-empty text that ends before a separator of the path, the thumbnail
    is written under the path; when it fails for one of them, nothing is
    written. *)
Theorem pstore_save_makes_ancestors (X : externals) (img : image)
        (path : string) (t : pixmap) (w : world) :
  pstore_path X (source img) w = Done (Some path) w ->
  thumbnail img = Some t ->
  ((forall d rest, d <> "" -> path = (d ++ "/" ++ rest)%string ->
                   mkdir_ok X d = true) ->
   pstore_save X img w
   = Done tt (set_trace (trace w ++ [Ev_thumb_save path t])%list w))
  /\ (forall d rest, d <> "" -> path = (d ++ "/" ++ rest)%string ->
                     mkdir_ok X d = false ->
      pstore_save X img w = Done tt w).
Proof.
  intros Hp Ht. rewrite (pstore_save_cases X img w (Some path) t Hp Ht).
  split.
  - intros H. apply mkdir_all in H. now rewrite H.
  - intros d rest Hd Hpath Hfail.
    destruct (forallb (mkdir_ok X) (dir_prefixes "" path)) eqn:E;
      [ | reflexivity ].
    rewrite mkdir_all in E. rewrite (E d rest Hd Hpath) in Hfail. discriminate.
Qed.

Definition thumbed (a : ptr) (src : string) : image :=
  mk_image a src 0 0 0 [] (Some Demo.thumb_128).

Lemma pstore_save_makes_ancestors_witness :
  ((forall d rest, d <> "" ->
      "/home/u/.cache/swayimg/pics/a.png.008000" = (d ++ "/" ++ rest)%string ->
      mkdir_ok Demo.env d = true) ->
   pstore_save Demo.env (thumbed 500 "/pics/a.png") Demo.w_three
   = Done tt (set_trace
                (trace Demo.w_three
                 ++ [Ev_thumb_save "/home/u/.cache/swayimg/pics/a.png.008000"
                                   Demo.thumb_128])%list
                Demo.w_three))
  /\ (forall d rest, d <> "" ->
        "/home/u/.cache/swayimg/pics/a.png.008000" = (d ++ "/" ++ rest)%string ->
        mkdir_ok Demo.env d = false ->
        pstore_save Demo.env (thumbed 500 "/pics/a.png") Demo.w_three
        = Done tt Demo.w_three).
Proof.
  apply (pstore_save_makes_ancestors Demo.env (thumbed 500 "/pics/a.png")
           "/home/u/.cache/swayimg/pics/a.png.008000" Demo.thumb_128
           Demo.w_three);
    [ vm_compute; reflexivity | reflexivity ].
Defined.

(** ** The lexicographic policy (imglist.c) *)

(** Every source is followed by sources that do not collate before it, or
    with the order reversed by sources that do not collate after it. *)
Fixpoint collated (cmp : string -> string -> Z) (rev : bool)
         (ss : list string) : Prop :=
  match ss with
  | [] => True
  | s :: t =>
      (forall s', In s' t -> if rev then cmp s' s <= 0 else 0 <= cmp s' s)
      /\ collated cmp rev t
  end.

(** A collation that orders: its sign is antisymmetric, and "before" is
    transitive. *)
Definition orders (cmp : string -> string -> Z) : Prop :=
  (forall a b, cmp a b < 0 <-> 0 < cmp b a)
  /\ (forall a b c, cmp a b < 0 -> cmp b c < 0 -> cmp a c < 0).

Lemma place_collated (X : externals) (rev : bool) (entry : image)
      (l : list image) :
  orders (strcoll X) ->
  NoDup (map addr l) ->
  collated (strcoll X) rev (map source l) ->
  collated (strcoll X) rev (map source (place X order_alpha rev entry l)).
Proof.
  intros (Ha & Ht). induction l as [ | x t IH ]; intros Hn Hc.
  - unfold place. simpl. split; [ intros s' [] | exact I ].
  - rewrite place_cons by exact Hn. cbn [entry_cmp].
    cbn [map collated] in Hc. destruct Hc as (Hx & Hc).
    inversion Hn as [ | a m Hnot Hnd ]; subst.
    specialize (IH Hnd Hc).
    remember (source entry) as n eqn:En. remember (source x) as sx eqn:Ex.
    destruct rev; cbn [andb negb orb].
    + rewrite orb_false_r. destruct (strcoll X n sx >? 0) eqn:C.
      * rewrite Z.gtb_ltb in C. apply Z.ltb_lt in C. cbn [map collated]. rewrite <- ?En, <- ?Ex.
        split; [ | split; assumption ].
        assert (Cx : strcoll X sx n < 0) by now apply Ha.
        intros s' [ <- | Hin ]; [ lia | ].
        specialize (Hx s' Hin). cbv beta in Hx.
        destruct (Z_lt_le_dec 0 (strcoll X s' n)) as [ Hgt | Hle ];
          [ | exact Hle ].
        (* s' after n and n after x would put s' after x *)
        assert (Hns : strcoll X n s' < 0) by now apply Ha.
        pose proof (Ht _ _ _ Cx Hns) as Hlt. apply Ha in Hlt. lia.
      * rewrite Z.gtb_ltb in C. apply Z.ltb_ge in C. cbn [map collated]. rewrite <- ?En, <- ?Ex.
        split; [ | exact IH ].
        intros s' Hin.
        apply (Permutation_in _ (place_perm X order_alpha true source entry t))
          in Hin.
        destruct Hin as [ <- | Hin ]; [ rewrite <- En; exact C | now apply Hx ].
    + destruct (strcoll X n sx <? 0) eqn:C.
      * apply Z.ltb_lt in C. cbn [map collated]. rewrite <- ?En, <- ?Ex.
        split; [ | split; assumption ].
        assert (Cx : 0 < strcoll X sx n) by now apply Ha.
        intros s' [ <- | Hin ]; [ lia | ].
        specialize (Hx s' Hin). cbv beta in Hx.
        destruct (Z_lt_le_dec (strcoll X s' n) 0) as [ Hlt | Hge ];
          [ | exact Hge ].
        (* s' before n and n before x would put s' before x *)
        pose proof (Ht _ _ _ Hlt C) as Hlt'. lia.
      * apply Z.ltb_ge in C. cbn [map collated]. rewrite <- ?En, <- ?Ex.
        split; [ | exact IH ].
        intros s' Hin.
        apply (Permutation_in _ (place_perm X order_alpha false source entry t))
          in Hin.
        destruct Hin as [ <- | Hin ]; [ rewrite <- En; exact C | now apply Hx ].
Qed.

Lemma add_entry_placed_alpha (X : externals) (src : string)
      (st : option stat_t) (w w' : world) (e : ptr) :
  find_source (images (il w)) src = None ->
  order (il w) = order_alpha ->
  add_entry X src st w = Done (Some e) w' ->
  exists entry,
    source entry = src
    /\ images (il w')
       = place X order_alpha (reverse (il w)) entry (images (il w)).
Proof.
  intros F Ho H. unfold add_entry in H. bind_inv H as found w0 Hf.
  unfold imglist_find, gets in Hf. done_inv Hf. rewrite F in H.
  bind_inv H as created w1 Hc. unfold image_create in Hc.
  destruct (heap w0) as [ | [ ad | ] rest ] eqn:Hh; done_inv Hc;
    try (unfold ret in H; discriminate).
  bind_inv H as u w2 Hs. unfold modify_il, modify in Hs. done_inv Hs.
  bind_inv H as sz w3 Hg. unfold gets in Hg. done_inv Hg.
  bind_inv H as pos w4 Hp.
  bind_inv H as u' w5 Hi. unfold ret in H. done_inv H.
  set (entry := set_index _ _) in *.
  exists entry. split; [ subst entry; now destruct st | ].
  unfold ordered_position, bind, gets in Hp.
  cbn [il set_il set_heap order set_size images reverse] in Hp.
  unfold place. rewrite Ho in *. unfold ret in Hp. done_inv Hp.
  destruct (scan_position X _ (reverse (il w0)) entry (images (il w0)));
    unfold modify_il, modify in Hi; done_inv Hi; reflexivity.
Qed.

(** X30. Under the lexicographic policy, with a collation that orders the
    sources, [add_entry] keeps the list sorted: if no entry was followed
    by one that collates before it (after it, with the reverse flag), this
    still holds once the new entry has been inserted. *)
Theorem add_entry_keeps_collated (X : externals) (src : string)
        (st : option stat_t) (w w' : world) (e : ptr) :
  order (il w) = order_alpha ->
  orders (strcoll X) ->
  NoDup (map addr (images (il w))) ->
  collated (strcoll X) (reverse (il w)) (map source (images (il w))) ->
  add_entry X src st w = Done (Some e) w' ->
  collated (strcoll X) (reverse (il w)) (map source (images (il w'))).
Proof.
  intros Ho Hord Hn Hc E.
  destruct (find_source (images (il w)) src) as [ e0 | ] eqn:F.
  - rewrite (add_entry_present X src st w e0 F) in E. now done_inv E.
  - destruct (add_entry_placed_alpha _ _ _ _ _ _ F Ho E) as (entry & _ & Hi).
    rewrite Hi. now apply place_collated.
Qed.

(** The comparison of the C locale orders the sources. *)
Lemma strcmp_sign (a b : string) :
  Demo.strcmp a b < 0 <-> 0 < Demo.strcmp b a.
Proof.
  revert b. induction a as [ | x a IH ]; intros [ | y b ]; cbn [Demo.strcmp].
  - lia.
  - pose proof (N2Z.is_nonneg (N_of_ascii y)). lia.
  - pose proof (N2Z.is_nonneg (N_of_ascii x)). lia.
  - rewrite (Ascii.eqb_sym y x). destruct (Ascii.eqb x y); [ apply IH | lia ].
Qed.

Lemma strcmp_trans (a b c : string) :
  Demo.strcmp a b < 0 -> Demo.strcmp b c < 0 -> Demo.strcmp a c < 0.
Proof.
  revert b c. induction a as [ | x a IH ]; intros [ | y b ] [ | z c ];
    cbn [Demo.strcmp];
    try pose proof (N2Z.is_nonneg (N_of_ascii x));
    try pose proof (N2Z.is_nonneg (N_of_ascii y));
    try pose proof (N2Z.is_nonneg (N_of_ascii z));
    try lia.
  - destruct (Ascii.eqb_spec y z) as [ -> | _ ]; lia.
  - destruct (Ascii.eqb x y) eqn:Exy, (Ascii.eqb y z) eqn:Eyz,
      (Ascii.eqb x z) eqn:Exz;
      rewrite ?Ascii.eqb_eq, ?Ascii.eqb_neq in *; subst;
      try lia; try congruence.
    apply IH.
Qed.

Lemma strcmp_orders : orders (strcoll Demo.env).
Proof. split; [ exact strcmp_sign | exact strcmp_trans ]. Qed.

(** Two files in the order of [order_alpha]; a third one belongs between
    them. *)
Definition w_by_name : world :=
  Demo.world_of (Demo.ctx_of [Demo.entry 1 "/pics/a.png" 1;
                              Demo.entry 2 "/pics/d.png" 2]
                             2 order_alpha false).

Lemma add_entry_keeps_collated_witness :
  exists w',
    add_entry Demo.env "/pics/b.png" None w_by_name = Done (Some 1000) w'
    /\ map source (images (il w'))
       = ["/pics/a.png"; "/pics/b.png"; "/pics/d.png"]
    /\ collated (strcoll Demo.env) false (map source (images (il w'))).
Proof.
  eexists. split; [ vm_compute; reflexivity | ]. split; [ reflexivity | ].
  match goal with
  | |- collated _ false (map source (images (il ?v))) =>
      apply (add_entry_keeps_collated Demo.env "/pics/b.png" None
               w_by_name v 1000)
  end.
  - reflexivity.
  - exact strcmp_orders.
  - repeat constructor; simpl; intuition discriminate.
  - simpl. repeat split; intros s' H; simpl in H;
      repeat (destruct H as [ <- | H ]; [ vm_compute; discriminate | ]);
      destruct H.
  - vm_compute. reflexivity.
Defined.

(** ** The worker runs to its end (gallery.c, formats/loader.c) *)









(** Where a [read] of the standard input does fail with [EAGAIN], the
    worker is stopped in [image_load]: the list holds the standard input,
    the first [read] finds nothing yet, and the next one is given a
    position outside the buffer. *)
Definition env_polling : externals :=
  {| strcoll := strcoll Demo.env;
     fs_envpath := fs_envpath Demo.env;
     fs_append_path := fs_append_path Demo.env;
     mkdir_ok := mkdir_ok Demo.env;
     decoders := decoders Demo.env;
     stdin := [Loader.Rd_again; Loader.Rd_data [137; 80; 78; 71]];
     shellcmd_exec := shellcmd_exec Demo.env;
     file_data := file_data Demo.env;
     thumb_scale := thumb_scale Demo.env;
     thumb_read := thumb_read Demo.env |}.

Definition w_stdin : world :=
  Demo.world_of (Demo.ctx_of [Demo.entry 1 LDRSRC_STDIN 1] 1 order_none false).

Lemma worker_stopped_by_eagain :
  loader_loop env_polling (ret tt) [Demo.entry 500 LDRSRC_STDIN 0] w_stdin
  = Fault OutOfBounds.
Proof. vm_compute. reflexivity. Qed.



